(** * Array2d: a row-major two-dimensional array over one contiguous buffer

  A shallow embedding of [qm::array2d<Ty, Idx>] (single_include/array2d.hpp)
  at the default index type [Idx = int]: [index_type] is a 32-bit signed
  integer, [size_type = std::make_unsigned_t<int>] a 32-bit unsigned one.
  For an index type narrower than [int] the language promotes the
  [size_type] arithmetic to [int]; the module [Short] embeds the size
  computation and the dimensioned constructor at [Idx = short], the
  narrow index type of the README.

  Integers are modelled in [Z] with every conversion and wrap-around
  written out; the buffer [std::vector<Ty> data_] is a [list Ty]; pointers
  and references into a buffer are element offsets; member functions are
  computations in a state-and-exception monad over the object [this].
  Allocations and the constructions and copies of elements into new
  storage may throw, as an oracle of the environment decides; the
  assignments and swaps of existing elements are taken not to throw. The
  capacity of the buffer is no part of the state: the two members whose
  behaviour depends on it ([reserve] and the copy assignment) take it as
  an argument. Two objects are two values; where a call may be given the
  object it is called on (move assignment), the argument says so. The
  element type enters through its default value, its size and the traits
  the code dispatches on. *)

From Stdlib Require Import ZArith Lia String DecimalString.
From stdpp Require Import base list strings.

Open Scope Z_scope.

(** ** Machine integers *)

Module Machine.

Definition INT_MIN : Z := - 2 ^ 31.
Definition INT_MAX : Z := 2 ^ 31 - 1.
Definition SIZE_MAX : Z := 2 ^ 32 - 1.

(** The values of [index_type]. *)
Definition is_index (z : Z) : Prop := INT_MIN <= z <= INT_MAX.

Definition is_indexb (z : Z) : bool := (INT_MIN <=? z) && (z <=? INT_MAX).

(** [static_cast<size_type>(z)]: reduction modulo [2^32]. *)
Definition to_size (z : Z) : Z := z mod 2 ^ 32.

(** Conversion of an unsigned value back to [index_type] (modular, as
    C++20 defines it). *)
Definition to_index (z : Z) : Z := (z + 2 ^ 31) mod 2 ^ 32 - 2 ^ 31.

(** [std::to_string] on an [int]. *)
Definition to_string (z : Z) : string := NilEmpty.string_of_int (Z.to_int z).

End Machine.

Import Machine.

(** ** Exceptions and outcomes *)

Inductive exn : Type :=
| invalid_argument (what : string)   (* std::invalid_argument *)
| overflow_error (what : string)     (* std::overflow_error *)
| out_of_range (what : string)       (* std::out_of_range *)
| bad_alloc                          (* std::bad_alloc, from the allocator *)
| element_error (what : string).     (* thrown by an operation of the element type *)

(** What a call can do: return, throw, run into undefined behaviour (an
    access outside a buffer, a signed overflow), or still be running when
    the fuel given to one of its loops is used up. *)
Inductive outcome (A : Type) : Type :=
| Ok (a : A)
| Throw (e : exn)
| Undefined
| OutOfFuel.

Arguments Ok {A} a.
Arguments Throw {A} e.
Arguments Undefined {A}.
Arguments OutOfFuel {A}.

Definition obind {A B : Type} (o : outcome A) (k : A -> outcome B) : outcome B :=
  match o with
  | Ok a => k a
  | Throw e => Throw e
  | Undefined => Undefined
  | OutOfFuel => OutOfFuel
  end.

Notation "'let?' x ':=' c 'in' k" := (obind c (fun x => k))
  (at level 10, x name, c at level 100, k at level 200).

(** ** Element types *)

(** What the container asks of its element type [Ty]. *)
Class ElemTraits (Ty : Type) : Type := {
  Ty_default : Ty;                 (* the value of [Ty{}] *)
  sizeof_Ty : Z;                   (* [sizeof(Ty)] *)
  is_trivially_copyable : bool;    (* [std::is_trivially_copyable_v<Ty>] *)
  is_trivial_standard_layout : bool;
    (* trivially destructible, trivially default constructible and standard layout *)
  object_byte : Ty -> Z;           (* [*reinterpret_cast<const unsigned char *>(&val)] *)
  byte_object : Z -> Ty            (* the object every byte of whose storage holds that value *)
}.

Section Container.

Context {Ty : Type} {ET : ElemTraits Ty}.

(** The oracle of the environment: the [k]-th operation that may fail (an
    allocation, the construction or the copy of an element) throws when
    [throws k] is [Some e]. *)
Variable throws : nat -> option exn.

(** ** The object *)

Record array2d : Type := mk_array2d {
  rows_ : Z;
  cols_ : Z;
  data_ : list Ty
}.

(** Members as their default initialisers leave them ([rows_{}], [cols_{}]
    and an empty vector): the state of a default-constructed container. *)
Definition array2d_default : array2d := mk_array2d 0 0 [].

Record world : Type := mk_world {
  this : array2d;
  clock : nat
}.

Definition M (A : Type) : Type := world -> outcome A * world.

Definition ret {A : Type} (a : A) : M A := fun w => (Ok a, w).

Definition bind {A B : Type} (c : M A) (k : A -> M B) : M B :=
  fun w =>
    match c w with
    | (Ok a, w') => k a w'
    | (Throw e, w') => (Throw e, w')
    | (Undefined, w') => (Undefined, w')
    | (OutOfFuel, w') => (OutOfFuel, w')
    end.

Definition lift {A : Type} (o : outcome A) : M A := fun w => (o, w).

Definition throw {A : Type} (e : exn) : M A := lift (Throw e).

Definition get_this : M array2d := fun w => (Ok (this w), w).

Definition set_rows (r : Z) : M unit :=
  fun w => (Ok tt, mk_world (mk_array2d r (cols_ (this w)) (data_ (this w))) (clock w)).

Definition set_cols (c : Z) : M unit :=
  fun w => (Ok tt, mk_world (mk_array2d (rows_ (this w)) c (data_ (this w))) (clock w)).

Definition set_data (d : list Ty) : M unit :=
  fun w => (Ok tt, mk_world (mk_array2d (rows_ (this w)) (cols_ (this w)) d) (clock w)).

(** One operation that may fail. *)
Definition may_throw : M unit :=
  fun w =>
    (match throws (clock w) with Some e => Throw e | None => Ok tt end,
     mk_world (this w) (S (clock w))).

End Container.

Arguments array2d Ty : clear implicits.
Arguments world Ty : clear implicits.
Arguments M Ty A : clear implicits.

Notation "'let*' x ':=' c 'in' k" := (bind c (fun x => k))
  (at level 10, x name, c at level 100, k at level 200).

(** ** Private helpers of [array2d] *)

Definition validate_dimension (dim : Z) (name : string) : outcome Z :=
  if dim <? 0 then Throw (invalid_argument (name +:+ " must be non-negative"))
  else Ok dim.

(** The product is formed in [size_type], hence modulo [2^32]; the division
    test is reached only behind [rows > 0 && cols > 0]. *)
Definition calculate_size (rows cols : Z) : outcome Z :=
  let size := to_size (to_size rows * to_size cols) in
  if (0 <? rows) && (0 <? cols) && negb (size / to_size rows =? to_size cols)
  then Throw (overflow_error "Matrix size calculation overflow")
  else Ok size.

(** ** Loops *)

(** [for (k = lo; k < hi; ++k) body]: [n] rounds from [k] on; the counter
    stays below [hi], so the increment cannot overflow. *)
Fixpoint for_loop {S : Type} (n : nat) (k : Z) (body : Z -> S -> outcome S) (s : S)
  : outcome S :=
  match n with
  | O => Ok s
  | Datatypes.S n' => let? s' := body k s in for_loop n' (k + 1) body s'
  end.

Definition for_range {S : Type} (lo hi : Z) (body : Z -> S -> outcome S) (s : S)
  : outcome S :=
  for_loop (Z.to_nat (hi - lo)) lo body s.

(** [for (index_type k = lo; k < hi; k += block_size) body]: the sum is
    formed in [size_type] and converted back to [index_type]. *)
Definition next_block (k block_size : Z) : Z :=
  to_index (to_size (to_size k + block_size)).

Fixpoint for_blocks {S : Type} (fuel : nat) (k hi block_size : Z)
  (body : Z -> S -> outcome S) (s : S) : outcome S :=
  if k <? hi then
    match fuel with
    | O => OutOfFuel
    | Datatypes.S fuel' =>
        let? s' := body k s in
        for_blocks fuel' (next_block k block_size) hi block_size body s'
    end
  else Ok s.

(** Addition in [index_type]: a signed overflow is undefined behaviour. *)
Definition int_add (a b : Z) : outcome Z :=
  if is_indexb (a + b) then Ok (a + b) else Undefined.

Section Operations.

Context {Ty : Type} {ET : ElemTraits Ty}.

Variable throws : nat -> option exn.

(** The order in which a parallel fill over [n] elements writes them. *)
Variable schedule : nat -> list nat.

Local Abbreviation array2d := (array2d Ty).
Local Abbreviation M := (M Ty).

Fixpoint for_loopM {S : Type} (n : nat) (k : Z) (body : Z -> S -> M S) (s : S) : M S :=
  match n with
  | O => ret s
  | Datatypes.S n' => let* s' := body k s in for_loopM n' (k + 1) body s'
  end.

Definition for_rangeM {S : Type} (lo hi : Z) (body : Z -> S -> M S) (s : S) : M S :=
  for_loopM (Z.to_nat (hi - lo)) lo body s.

Definition calculate_offset (m : array2d) (row col : Z) : Z :=
  to_size (to_size (to_size row * to_size (cols_ m)) + to_size col).

Definition format_bounds_error (m : array2d) (row col : Z) : string :=
  "array2d: index (" +:+ to_string row +:+ ", " +:+ to_string col +:+
  ") out of range [0, " +:+ to_string (rows_ m) +:+ ") x [0, " +:+
  to_string (cols_ m) +:+ ")".

(** ** [std::vector<Ty>] and raw memory *)

(** [v[k]] as a reference: the offset itself when it lies inside the
    buffer, undefined behaviour otherwise. *)
Definition vector_ref (v : list Ty) (k : Z) : outcome Z :=
  if (0 <=? k) && (k <? Z.of_nat (length v)) then Ok k else Undefined.

(** Reading through a pointer or reference at offset [k]. *)
Definition load (v : list Ty) (k : Z) : outcome Ty :=
  if k <? 0 then Undefined
  else match v !! Z.to_nat k with Some x => Ok x | None => Undefined end.

(** Writing through a pointer or reference at offset [k]. *)
Definition store (v : list Ty) (k : Z) (x : Ty) : outcome (list Ty) :=
  if (0 <=? k) && (k <? Z.of_nat (length v)) then Ok (<[Z.to_nat k := x]> v)
  else Undefined.

(** [std::swap(v[p], v[q])] *)
Definition swap_at (v : list Ty) (p q : Z) : outcome (list Ty) :=
  let? x := load v p in
  let? y := load v q in
  let? v1 := store v p y in
  store v1 q x.

(** [k] elements constructed from [x] one after the other, each
    construction able to throw. *)
Fixpoint construct_n (k : nat) (x : Ty) : M (list Ty) :=
  match k with
  | O => ret []
  | Datatypes.S k' =>
      let* _ := may_throw throws in
      let* l := construct_n k' x in
      ret (x :: l)
  end.

(** The elements of [l] copy-constructed one after the other. *)
Fixpoint copy_construct (l : list Ty) : M (list Ty) :=
  match l with
  | [] => ret []
  | x :: l' =>
      let* _ := may_throw throws in
      let* r := copy_construct l' in
      ret (x :: r)
  end.

(** [v.resize(n)] and [v.resize(n, x)]: shrinking drops the tail; growing
    allocates and constructs the new elements from [x]. *)
Definition vector_resize (v : list Ty) (n : Z) (x : Ty) : M (list Ty) :=
  if n <=? Z.of_nat (length v) then ret (take (Z.to_nat n) v)
  else
    let* _ := may_throw throws in
    let* ext := construct_n (Z.to_nat n - length v) x in
    ret (v ++ ext).

(** [v.assign(n, val)] on a fresh vector: allocation, then [n] copy
    constructions. *)
Definition vector_assign (n : Z) (val : Ty) : M (list Ty) :=
  let* _ := may_throw throws in
  construct_n (Z.to_nat n) val.

(** The copy of a vector: allocation, then one copy construction per
    element. *)
Definition vector_copy (v : list Ty) : M (list Ty) :=
  let* _ := may_throw throws in
  copy_construct v.

(** [std::memcpy(dst_v + dst, src_v + src, n * sizeof(Ty))] between two
    buffers: both ranges must lie inside their buffers. *)
Definition memcpy (dst_v : list Ty) (dst : Z) (src_v : list Ty) (src n : Z)
  : outcome (list Ty) :=
  if (0 <=? n) && (0 <=? src) && (src + n <=? Z.of_nat (length src_v))
     && (0 <=? dst) && (dst + n <=? Z.of_nat (length dst_v))
  then Ok (take (Z.to_nat dst) dst_v
           ++ take (Z.to_nat n) (drop (Z.to_nat src) src_v)
           ++ drop (Z.to_nat (dst + n)) dst_v)
  else Undefined.

(** [std::memcpy] inside one buffer: the ranges must not overlap either. *)
Definition memcpy_within (v : list Ty) (dst src n : Z) : outcome (list Ty) :=
  if (0 <? n) && (src <? dst + n) && (dst <? src + n) then Undefined
  else memcpy v dst v src n.

(** [std::copy_n(v + src, n, v + dst)] inside one buffer: element by
    element, front to back. *)
Definition copy_n_within (v : list Ty) (src n dst : Z) : outcome (list Ty) :=
  for_range 0 n
    (fun k d => let? x := load d (src + k) in store d (dst + k) x) v.

(** [std::copy_n(src_v + src, n, dst_v + dst)] between two buffers; each
    element assignment may throw. *)
Definition copy_n (src_v : list Ty) (src n : Z) (dst_v : list Ty) (dst : Z) : M (list Ty) :=
  for_rangeM 0 n
    (fun k d =>
       let* _ := may_throw throws in
       lift (let? x := load src_v (src + k) in store d (dst + k) x)) dst_v.

(** ** Constructors *)

(** A constructor runs on the storage of the new object; when it throws
    there is no object. *)
Definition construct (ctor : M unit) (k : nat) : outcome array2d * nat :=
  match ctor (mk_world array2d_default k) with
  | (Ok _, w) => (Ok (this w), clock w)
  | (Throw e, w) => (Throw e, clock w)
  | (Undefined, w) => (Undefined, clock w)
  | (OutOfFuel, w) => (OutOfFuel, clock w)
  end.

(** A local object built inside a member function of [this]. *)
Definition new_object (ctor : M unit) : M array2d :=
  fun w => let (r, k) := construct ctor (clock w) in (r, mk_world (this w) k).

(** [array2d(index_type rows, index_type cols)] *)
Definition ctor_dims (rows cols : Z) : M unit :=
  let* r := lift (validate_dimension rows "rows") in
  let* _ := set_rows r in
  let* c := lift (validate_dimension cols "cols") in
  let* _ := set_cols c in
  if (0 <? r) && (0 <? c) then
    let* size := lift (calculate_size r c) in
    let* m := get_this in
    let* d := vector_resize (data_ m) size Ty_default in
    set_data d
  else ret tt.

(** [array2d(index_type rows, index_type cols, const Ty &val)] *)
Definition ctor_dims_val (rows cols : Z) (val : Ty) : M unit :=
  let* r := lift (validate_dimension rows "rows") in
  let* _ := set_rows r in
  let* c := lift (validate_dimension cols "cols") in
  let* _ := set_cols c in
  if (0 <? r) && (0 <? c) then
    let* size := lift (calculate_size r c) in
    let* m := get_this in
    let* d := vector_resize (data_ m) size val in
    set_data d
  else ret tt.

(** The row-length check of the nested-list constructor. *)
Fixpoint check_row_lengths (cols : Z) (init_list : list (list Ty)) : outcome unit :=
  match init_list with
  | [] => Ok tt
  | row :: rest =>
      if to_index (Z.of_nat (length row)) =? cols then check_row_lengths cols rest
      else Throw (invalid_argument "All rows must have the same number of columns")
  end.

(** [data_.insert(data_.end(), row.begin(), row.end())] for every row. *)
Fixpoint insert_rows (init_list : list (list Ty)) : M unit :=
  match init_list with
  | [] => ret tt
  | row :: rest =>
      let* m := get_this in
      let* ext := copy_construct row in
      let* _ := set_data (data_ m ++ ext) in
      insert_rows rest
  end.

(** [array2d(std::initializer_list<std::initializer_list<Ty>>)] *)
Definition ctor_init_list (init_list : list (list Ty)) : M unit :=
  match init_list with
  | [] => let* _ := set_cols 0 in set_rows 0
  | first :: _ =>
      let* _ := set_rows (to_index (Z.of_nat (length init_list))) in
      let* _ := set_cols (to_index (Z.of_nat (length first))) in
      let* m := get_this in
      let* _ := lift (check_row_lengths (cols_ m) init_list) in
      let* size := lift (calculate_size (rows_ m) (cols_ m)) in
      let* _ := may_throw throws in
      insert_rows init_list
  end.

(** [array2d(index_type rows, index_type cols, const Container &)] *)
Definition ctor_container (rows cols : Z) (container : list Ty) : M unit :=
  let* r := lift (validate_dimension rows "rows") in
  let* _ := set_rows r in
  let* c := lift (validate_dimension cols "cols") in
  let* _ := set_cols c in
  let* expected_size := lift (calculate_size r c) in
  if negb (Z.of_nat (length container) =? expected_size) then
    throw (invalid_argument "Container size doesn't match matrix dimensions")
  else
    let* _ := may_throw throws in
    let* d := copy_construct container in
    set_data d.

(** The defaulted copy constructor: member by member. *)
Definition ctor_copy (other : array2d) : M unit :=
  let* _ := set_rows (rows_ other) in
  let* _ := set_cols (cols_ other) in
  let* d := vector_copy (data_ other) in
  set_data d.

(** The defaulted move constructor: the dimensions are copied, the buffer
    changes owner. The value returned is the state [other] is left in. *)
Definition ctor_move (other : array2d) : M array2d :=
  let* _ := set_rows (rows_ other) in
  let* _ := set_cols (cols_ other) in
  let* _ := set_data (data_ other) in
  ret (mk_array2d (rows_ other) (cols_ other) []).

(** The defaulted copy assignment: member by member, in declaration
    order. The vector's copy assignment (as libstdc++ has it) depends on
    [capacity], the capacity of [data_] when the call is made:
    - a source longer than the capacity is copied into new storage, which
      replaces the old one only once it is complete;
    - a source no longer than the buffer is assigned over its first
      elements and the others are destroyed;
    - otherwise the existing elements are assigned over and the remaining
      ones are copy-constructed into the spare capacity.
    Assigning a container to itself is the second case. *)
Definition assign_copy (capacity : Z) (other : array2d) : M unit :=
  let* _ := set_rows (rows_ other) in
  let* _ := set_cols (cols_ other) in
  let* m := get_this in
  let len := length (data_ m) in
  if capacity <? Z.of_nat (length (data_ other)) then
    let* d := vector_copy (data_ other) in
    set_data d
  else if (length (data_ other) <=? len)%nat then
    set_data (data_ other)
  else
    let* _ := set_data (take len (data_ other)) in
    let* ext := copy_construct (drop len (data_ other)) in
    set_data (take len (data_ other) ++ ext).

(** The argument of a move assignment: another object, or the object the
    assignment is called on ([a = std::move(a)]). *)
Inductive move_source : Type :=
| Another (other : array2d)
| Itself.

(** The defaulted move assignment; returns the state the source is left
    in. From another object the dimensions are copied and the buffer
    changes owner. From the object itself the dimensions are assigned to
    themselves and the vector is move-assigned from itself, which (as
    libstdc++ has it) hands its buffer to a temporary and leaves it
    empty. *)
Definition assign_move (source : move_source) : M array2d :=
  match source with
  | Another other =>
      let* _ := set_rows (rows_ other) in
      let* _ := set_cols (cols_ other) in
      let* _ := set_data (data_ other) in
      ret (mk_array2d (rows_ other) (cols_ other) [])
  | Itself =>
      let* m := get_this in
      let* _ := set_rows (rows_ m) in
      let* _ := set_cols (cols_ m) in
      let* _ := set_data [] in
      get_this
  end.

(** ** Element access *)

(** [operator[](row)]: the pointer [data_.data() + calculate_offset(row, 0)],
    as an offset into the buffer. The bounds assertion exists in debug
    builds only. *)
Definition row_ptr (m : array2d) (row : Z) : Z := calculate_offset m row 0.

(** [m[row][col]]: the row pointer advanced by [col]. *)
Definition subscript (m : array2d) (row col : Z) : Z := row_ptr m row + col.

(** [operator()(row, col)] *)
Definition call (m : array2d) (row col : Z) : outcome Z :=
  vector_ref (data_ m) (calculate_offset m row col).

(** [at_impl<IsConst>(row, col)] *)
Definition at_impl (row col : Z) : M Z :=
  let* m := get_this in
  if (row <? 0) || (rows_ m <=? row) || (col <? 0) || (cols_ m <=? col) then
    throw (out_of_range (format_bounds_error m row col))
  else lift (vector_ref (data_ m) (calculate_offset m row col)).

(** [at(row, col)] *)
Definition at_ (row col : Z) : M Z := at_impl row col.

(** ** Iterators *)

(** An iterator holds a pointer into the buffer. *)
Record Array2d_iterator : Type := mk_iterator { ptr_ : Z }.

Definition begin_ (m : array2d) : Array2d_iterator := mk_iterator 0.

Definition end_ (m : array2d) : Array2d_iterator :=
  mk_iterator (Z.of_nat (length (data_ m))).

(** [it + offset] *)
Definition iterator_plus (it : Array2d_iterator) (offset : Z) : Array2d_iterator :=
  mk_iterator (ptr_ it + offset).

(** [*it] on an iterator into the buffer of [m]. *)
Definition iterator_deref (m : array2d) (it : Array2d_iterator) : outcome Z :=
  vector_ref (data_ m) (ptr_ it).

(** ** Queries *)

Definition rows (m : array2d) : Z := rows_ m.
Definition cols (m : array2d) : Z := cols_ m.
Definition size (m : array2d) : Z := to_size (Z.of_nat (length (data_ m))).
Definition empty (m : array2d) : bool := bool_decide (data_ m = []).
Definition is_square (m : array2d) : bool := rows_ m =? cols_ m.

(** ** Capacity *)

(** The two [validate_dimension] calls of [reserve] are arguments of one
    call, and the language leaves their order to the compiler:
    [cols_first] tells whether the second argument is evaluated first. *)
Definition validate_dimensions (cols_first : bool) (rows cols : Z) : outcome (Z * Z) :=
  if cols_first then
    let? c := validate_dimension cols "cols" in
    let? r := validate_dimension rows "rows" in
    Ok (r, c)
  else
    let? r := validate_dimension rows "rows" in
    let? c := validate_dimension cols "cols" in
    Ok (r, c).

(** [reserve(rows, cols)]. [data_.reserve(n)] does nothing when [n] does
    not exceed [capacity], the capacity of [data_] when the call is made;
    otherwise it allocates new storage and constructs the elements there
    before it releases the old one. The elements and their number stay. *)
Definition reserve (cols_first : bool) (capacity : Z) (rows cols : Z) : M unit :=
  let* dims := lift (validate_dimensions cols_first rows cols) in
  let* new_capacity := lift (calculate_size (fst dims) (snd dims)) in
  if new_capacity <=? capacity then ret tt
  else
    let* m := get_this in
    let* _ := may_throw throws in
    let* _ := copy_construct (data_ m) in
    ret tt.

Definition shrink_to_fit : M unit := ret tt.

(** ** Bulk mutation *)

Inductive Array_reset_opt : Type := All_bits0 | All_bits1 | Safe_max.

Definition reset_opt_value (opt : Array_reset_opt) : Z :=
  match opt with
  | All_bits0 => 0
  | All_bits1 => -1
  | Safe_max => 63
  end.

(** [std::memset(p, c, n)] writes [static_cast<unsigned char>(c)]. *)
Definition to_uchar (c : Z) : Z := c mod 256.

(** [reset(opt)] *)
Definition reset (opt : Array_reset_opt) : M unit :=
  let* m := get_this in
  if empty m then ret tt
  else if is_trivial_standard_layout then
    match opt with
    | All_bits0 =>
        if sizeof_Ty mod 8 =? 0
        then set_data (replicate (length (data_ m)) (byte_object 0))
        else set_data (replicate (length (data_ m)) (byte_object (to_uchar 0)))
    | _ =>
        set_data (replicate (length (data_ m))
                    (byte_object (to_uchar (reset_opt_value opt))))
    end
  else set_data (replicate (length (data_ m)) Ty_default).

(** [std::fill(first, last, val)] over the whole buffer. *)
Definition std_fill (v : list Ty) (val : Ty) : list Ty := (fun _ => val) <$> v.

(** [std::fill(std::execution::par_unseq, first, last, val)]: every element
    is assigned once, in the order the schedule gives. *)
Definition std_fill_par (v : list Ty) (val : Ty) : list Ty :=
  foldl (fun d i => <[i := val]> d) v (schedule (length v)).

(** [fill(val)] *)
Definition fill (val : Ty) : M unit :=
  let* m := get_this in
  if is_trivially_copyable && (sizeof_Ty =? 1) then
    set_data (replicate (length (data_ m)) (byte_object (to_uchar (object_byte val))))
  else set_data (std_fill (data_ m) val).

(** [fill_parallel(val)] *)
Definition fill_parallel (val : Ty) : M unit :=
  let* m := get_this in
  if 10000 <? Z.of_nat (length (data_ m)) then set_data (std_fill_par (data_ m) val)
  else fill val.

(** ** Row operations *)

(** [copy_row(src_row, dest_row)] *)
Definition copy_row (src_row dest_row : Z) : M unit :=
  let* m := get_this in
  if src_row =? dest_row then ret tt
  else
    let src_offset := calculate_offset m src_row 0 in
    let dest_offset := calculate_offset m dest_row 0 in
    let copy_size := to_size (cols_ m) in
    let* d :=
      lift (if is_trivially_copyable
            then memcpy_within (data_ m) dest_offset src_offset copy_size
            else copy_n_within (data_ m) src_offset copy_size dest_offset) in
    set_data d.

(** [swap_rows(row1, row2)]; [offset + i] is a sum in [size_type]. *)
Definition swap_rows (row1 row2 : Z) : M unit :=
  let* m := get_this in
  if row1 =? row2 then ret tt
  else
    let offset1 := calculate_offset m row1 0 in
    let offset2 := calculate_offset m row2 0 in
    let swap_size := to_size (cols_ m) in
    let* d :=
      lift (for_range 0 swap_size
              (fun i d => swap_at d (to_size (offset1 + i)) (to_size (offset2 + i)))
              (data_ m)) in
    set_data d.

(** [fill_row(row, val)]: [std::fill_n(data_.data() + offset, cols_, val)]. *)
Definition fill_row (row : Z) (val : Ty) : M unit :=
  let* m := get_this in
  let offset := calculate_offset m row 0 in
  let* d := lift (for_range 0 (cols_ m) (fun k d => store d (offset + k) val) (data_ m)) in
  set_data d.

(** ** Transposition *)

(** [constexpr size_type block_size = 64 / sizeof(Ty)] *)
Definition block_size : Z := to_size (64 / sizeof_Ty).

(** The loop nest of [transpose()], on the buffer of [m]. *)
Definition transpose_loops (fuel : nat) (m : array2d) : outcome (list Ty) :=
  for_blocks fuel 0 (rows_ m) block_size
    (fun i d =>
       let? i_next := int_add i (to_index block_size) in
       let i_end := Z.min i_next (rows_ m) in
       for_blocks fuel i (cols_ m) block_size
         (fun j d =>
            let? j_next := int_add j (to_index block_size) in
            let j_end := Z.min j_next (cols_ m) in
            for_range i i_end
              (fun bi d =>
                 let? start_j := if i =? j then int_add bi 1 else Ok j in
                 for_range start_j j_end
                   (fun bj d => swap_at d (subscript m bi bj) (subscript m bj bi)) d)
              d)
         d)
    (data_ m).

(** [transpose()] *)
Definition transpose (fuel : nat) : M unit :=
  let* m := get_this in
  if negb (is_square m) then
    throw (invalid_argument "transpose: matrix must be square for in-place transpose")
  else
    let* d := lift (transpose_loops fuel m) in
    set_data d.

(** The loop nest of [transposed()]: reads the buffer of [m], writes the
    buffer of [result]. *)
Definition transposed_loops (fuel : nat) (m result : array2d) : outcome (list Ty) :=
  for_blocks fuel 0 (rows_ m) block_size
    (fun i d =>
       let? i_next := int_add i (to_index block_size) in
       let i_end := Z.min i_next (rows_ m) in
       for_blocks fuel 0 (cols_ m) block_size
         (fun j d =>
            let? j_next := int_add j (to_index block_size) in
            let j_end := Z.min j_next (cols_ m) in
            for_range i i_end
              (fun bi d =>
                 for_range j j_end
                   (fun bj d =>
                      let? x := load (data_ m) (subscript m bi bj) in
                      store d (subscript result bj bi) x) d)
              d)
         d)
    (data_ result).

(** [transposed()] *)
Definition transposed (fuel : nat) : M array2d :=
  let* m := get_this in
  let* result := new_object (ctor_dims (cols_ m) (rows_ m)) in
  let* d := lift (transposed_loops fuel m result) in
  ret (mk_array2d (rows_ result) (cols_ result) d).

(** ** Resizing *)

(** [resize_impl(new_rows, new_cols, fill_value)] *)
Definition resize_impl (new_rows new_cols : Z) (fill_value : option Ty) : M unit :=
  let* new_rows := lift (validate_dimension new_rows "new_rows") in
  let* new_cols := lift (validate_dimension new_cols "new_cols") in
  let* m := get_this in
  if (new_rows =? rows_ m) && (new_cols =? cols_ m) then ret tt
  else
    let* new_size := lift (calculate_size new_rows new_cols) in
    if new_size =? 0 then
      let* _ := set_data [] in
      let* _ := set_rows new_rows in
      set_cols new_cols
    else
      let* new_data :=
        match fill_value with
        | Some val => vector_assign new_size val
        | None => vector_resize [] new_size Ty_default
        end in
      let* new_data :=
        if (0 <? rows_ m) && (0 <? cols_ m) then
          let copy_rows := Z.min (rows_ m) new_rows in
          let copy_cols := Z.min (cols_ m) new_cols in
          for_rangeM 0 copy_rows
            (fun i nd =>
               let old_offset := to_size (to_size i * to_size (cols_ m)) in
               let new_offset := to_size (to_size i * to_size new_cols) in
               if is_trivially_copyable then
                 lift (memcpy nd new_offset (data_ m) old_offset (to_size copy_cols))
               else copy_n (data_ m) old_offset copy_cols nd new_offset)
            new_data
        else ret new_data in
      let* _ := set_data new_data in
      let* _ := set_rows new_rows in
      set_cols new_cols.

(** [resize(new_rows, new_cols)] *)
Definition resize (new_rows new_cols : Z) : M unit :=
  resize_impl new_rows new_cols None.

(** [resize(new_rows, new_cols, val)]: the [std::optional<Ty>] argument is
    a copy of [val]. *)
Definition resize_val (new_rows new_cols : Z) (val : Ty) : M unit :=
  let* _ := may_throw throws in
  resize_impl new_rows new_cols (Some val).

(** ** Swap *)

(** [swap(other)]; returns the state [other] is left in. *)
Definition swap (other : array2d) : M array2d :=
  let* m := get_this in
  let* _ := set_rows (rows_ other) in
  let* _ := set_cols (cols_ other) in
  let* _ := set_data (data_ other) in
  ret m.

End Operations.

(** ** Well-formed containers and quiet environments *)

(** The state every constructor establishes: dimensions in the
    non-negative range of [index_type] and a buffer of exactly
    [rows_ * cols_] elements, a count [size_type] can hold. *)
Definition wf {Ty : Type} (m : array2d Ty) : Prop :=
  0 <= rows_ m <= INT_MAX /\ 0 <= cols_ m <= INT_MAX /\
  Z.of_nat (length (data_ m)) = rows_ m * cols_ m /\
  rows_ m * cols_ m <= SIZE_MAX.

(** An environment in which no allocation and no element operation fails. *)
Definition quiet (throws : nat -> option exn) : Prop := forall k, throws k = None.

Definition never_throws : nat -> option exn := fun _ => None.

(** The element of [m] at row [r] and column [c] of the row-major layout. *)
Definition elem {Ty : Type} (m : array2d Ty) (r c : Z) : option Ty :=
  data_ m !! Z.to_nat (r * cols_ m + c).

(** ** Element types used in the examples *)

(** [int]: four bytes, trivially copyable; values are kept in [Z]. *)
Definition int_traits : ElemTraits Z := {|
  Ty_default := 0;
  sizeof_Ty := 4;
  is_trivially_copyable := true;
  is_trivial_standard_layout := true;
  object_byte := fun v => v mod 256;
  byte_object := fun b => to_index (b * 16843009)
|}.

(** [unsigned char]: one byte, trivially copyable; a value is its byte. *)
Definition uchar_traits : ElemTraits Byte.byte := {|
  Ty_default := Byte.x00;
  sizeof_Ty := 1;
  is_trivially_copyable := true;
  is_trivial_standard_layout := true;
  object_byte := fun v => Z.of_N (Byte.to_N v);
  byte_object := fun b =>
    match Byte.of_N (Z.to_N (b mod 256)) with Some v => v | None => Byte.x00 end
|}.

(** [std::string]: thirty-two bytes, not trivially copyable. *)
Definition string_traits : ElemTraits string := {|
  Ty_default := EmptyString;
  sizeof_Ty := 32;
  is_trivially_copyable := false;
  is_trivial_standard_layout := false;
  object_byte := fun v => 0;
  byte_object := fun b => EmptyString
|}.

(** A plain struct of ten [double]s ([struct { double v[10]; }]): eighty
    bytes; a value is kept as the list of its fields. *)
Definition wide_traits : ElemTraits (list Z) := {|
  Ty_default := replicate 10 0;
  sizeof_Ty := 80;
  is_trivially_copyable := true;
  is_trivial_standard_layout := true;
  object_byte := fun v => 0;
  byte_object := fun b => replicate 10 0
|}.

(** Runs a member function on the container [m]. *)
Definition run {Ty A : Type} (c : M Ty A) (m : array2d Ty) : outcome A * array2d Ty :=
  let (r, w) := c (mk_world m 0) in (r, this w).

(** ** Reasoning in the monad *)

Ltac munfold :=
  unfold bind, ret, lift, throw, get_this, set_rows, set_cols, set_data, may_throw.

(** A computation that leaves the object alone. *)
Definition frame {Ty A : Type} (c : M Ty A) : Prop :=
  forall w r w', c w = (r, w') -> this w' = this w.

(** A member function that either returns normally or leaves the object
    alone. *)
Definition guarded {Ty : Type} (c : M Ty unit) : Prop :=
  forall w r w', c w = (r, w') -> r = Ok tt \/ this w' = this w.

(** A computation that leaves the object alone, fails only when the
    environment makes it fail, and returns values that satisfy [Q]. *)
Definition post {Ty A : Type} (throws : nat -> option exn) (Q : A -> Prop) (c : M Ty A)
  : Prop :=
  forall w r w', c w = (r, w') ->
    this w' = this w /\
    match r with
    | Ok a => Q a
    | Throw e => exists j, throws j = Some e
    | _ => False
    end.

(** An environment in the manner of the test suite's [ThrowingType]: the
    first five fallible operations succeed, every later one throws. *)
Definition throws_after_five : nat -> option exn :=
  fun j => if (5 <=? j)%nat then Some (element_error "Construction failed") else None.

(** A member function that either returns normally with the object in a
    state satisfying [R], or is made to throw by the environment and leaves
    the object alone. *)
Definition commits {Ty : Type} (throws : nat -> option exn) (R : array2d Ty -> Prop)
  (c : M Ty unit) : Prop :=
  forall w r w', c w = (r, w') ->
    (r = Ok tt /\ R (this w')) \/
    (exists e j, throws j = Some e /\ r = Throw e /\ this w' = this w).

(** The buffer a resize of [m] to [new_rows] by [new_cols] builds: the
    overlapping rectangle taken from [m], [fill] everywhere else. *)
Definition resized_buffer {Ty : Type} (m : array2d Ty) (new_rows new_cols : Z)
  (limit : Z) (fill : Ty) (nd : list Ty) : Prop :=
  Z.of_nat (length nd) = new_rows * new_cols /\
  forall a b, 0 <= a < new_rows -> 0 <= b < new_cols ->
    nd !! Z.to_nat (a * new_cols + b) =
    if (a <? limit) && (b <? cols_ m) then data_ m !! Z.to_nat (a * cols_ m + b)
    else Some fill.

(** ** Public calls *)

(** The ways to build a container. *)
Inductive constructor_call (Ty : Type) : Type :=
| CtorDefault
| CtorDims (rows cols : Z)
| CtorDimsVal (rows cols : Z) (val : Ty)
| CtorInitList (init_list : list (list Ty))
| CtorContainer (rows cols : Z) (container : list Ty)
| CtorCopy (other : array2d Ty)
| CtorMove (other : array2d Ty).

Arguments CtorDefault {Ty}.
Arguments CtorDims {Ty} rows cols.
Arguments CtorDimsVal {Ty} rows cols val.
Arguments CtorInitList {Ty} init_list.
Arguments CtorContainer {Ty} rows cols container.
Arguments CtorCopy {Ty} other.
Arguments CtorMove {Ty} other.

(** The calls that change an existing container, with the capacity of
    the receiver's buffer and the compiler's choice of evaluation order
    where the call depends on them. *)
Inductive member_call (Ty : Type) : Type :=
| CallAssignCopy (capacity : Z) (other : array2d Ty)
| CallAssignMove (source : move_source (Ty := Ty))
| CallFill (val : Ty)
| CallFillParallel (val : Ty)
| CallReset (opt : Array_reset_opt)
| CallResize (new_rows new_cols : Z)
| CallResizeVal (new_rows new_cols : Z) (val : Ty)
| CallReserve (cols_first : bool) (capacity : Z) (rows cols : Z)
| CallShrinkToFit
| CallTranspose
| CallCopyRow (src_row dest_row : Z)
| CallSwapRows (row1 row2 : Z)
| CallFillRow (row : Z) (val : Ty)
| CallSwap (other : array2d Ty).

Arguments CallAssignCopy {Ty} capacity other.
Arguments CallAssignMove {Ty} source.
Arguments CallFill {Ty} val.
Arguments CallFillParallel {Ty} val.
Arguments CallReset {Ty} opt.
Arguments CallResize {Ty} new_rows new_cols.
Arguments CallResizeVal {Ty} new_rows new_cols val.
Arguments CallReserve {Ty} cols_first capacity rows cols.
Arguments CallShrinkToFit {Ty}.
Arguments CallTranspose {Ty}.
Arguments CallCopyRow {Ty} src_row dest_row.
Arguments CallSwapRows {Ty} row1 row2.
Arguments CallFillRow {Ty} row val.
Arguments CallSwap {Ty} other.

Section Calls.

Context {Ty : Type} {ET : ElemTraits Ty}.
Variable throws : nat -> option exn.
Variable schedule : nat -> list nat.

Definition build (c : constructor_call Ty) : M Ty unit :=
  match c with
  | CtorDefault => ret tt
  | CtorDims rows cols => ctor_dims throws rows cols
  | CtorDimsVal rows cols val => ctor_dims_val throws rows cols val
  | CtorInitList init_list => ctor_init_list throws init_list
  | CtorContainer rows cols container => ctor_container throws rows cols container
  | CtorCopy other => ctor_copy throws other
  | CtorMove other => let* _ := ctor_move other in ret tt
  end.

Definition perform (fuel : nat) (c : member_call Ty) : M Ty unit :=
  match c with
  | CallAssignCopy capacity other => assign_copy throws capacity other
  | CallAssignMove source => let* _ := assign_move source in ret tt
  | CallFill val => fill val
  | CallFillParallel val => fill_parallel schedule val
  | CallReset opt => reset opt
  | CallResize new_rows new_cols => resize throws new_rows new_cols
  | CallResizeVal new_rows new_cols val => resize_val throws new_rows new_cols val
  | CallReserve cols_first capacity rows cols => reserve throws cols_first capacity rows cols
  | CallShrinkToFit => shrink_to_fit
  | CallTranspose => transpose fuel
  | CallCopyRow src_row dest_row => copy_row src_row dest_row
  | CallSwapRows row1 row2 => swap_rows row1 row2
  | CallFillRow row val => fill_row row val
  | CallSwap other => let* _ := swap other in ret tt
  end.

(** Arguments as their types allow them: integers of [index_type],
    well-formed containers, and nested lists no longer than [index_type]
    can count. *)
Definition constructor_args_ok (c : constructor_call Ty) : Prop :=
  match c with
  | CtorDefault => True
  | CtorDims rows cols => is_index rows /\ is_index cols
  | CtorDimsVal rows cols _ => is_index rows /\ is_index cols
  | CtorInitList init_list =>
      Z.of_nat (length init_list) <= INT_MAX /\
      Forall (fun row => Z.of_nat (length row) <= INT_MAX) init_list
  | CtorContainer rows cols _ => is_index rows /\ is_index cols
  | CtorCopy other => wf other
  | CtorMove other => wf other
  end.

Definition member_args_ok (c : member_call Ty) : Prop :=
  match c with
  | CallAssignCopy _ other => wf other
  | CallAssignMove (Another other) => wf other
  | CallAssignMove Itself => True
  | CallResize new_rows new_cols => is_index new_rows /\ is_index new_cols
  | CallResizeVal new_rows new_cols _ => is_index new_rows /\ is_index new_cols
  | CallSwap other => wf other
  | _ => True
  end.

End Calls.

(** A one-by-one matrix of the eighty-byte struct. *)
Definition wide_1x1 : array2d (list Z) := mk_array2d 1 1 [replicate 10 0].

(** ** Invariants of the transposition loops *)

(** The buffer [d] of the result of [transposed()] holds the transposed
    element at every written cell; [W a b] tells that the cell for element
    [(a, b)] of [m] has been written. *)
Definition transposed_upto {Ty : Type} (m : array2d Ty) (W : Z -> Z -> Prop)
  (d : list Ty) : Prop :=
  Z.of_nat (length d) = rows_ m * cols_ m /\
  forall a b, 0 <= a < rows_ m -> 0 <= b < cols_ m -> W a b ->
    d !! Z.to_nat (b * rows_ m + a) = data_ m !! Z.to_nat (a * cols_ m + b).

(** The buffer [d] of a square matrix during [transpose()]: [S a b] tells,
    for [a < b], that elements [(a, b)] and [(b, a)] of the initial buffer
    [d0] have been exchanged; all others, the diagonal included, are where
    they were. *)
Definition swapped_upto {Ty : Type} (n : Z) (d0 : list Ty) (S : Z -> Z -> Prop)
  (d : list Ty) : Prop :=
  length d = length d0 /\
  (forall a, 0 <= a < n -> d !! Z.to_nat (a * n + a) = d0 !! Z.to_nat (a * n + a)) /\
  forall a b, 0 <= a -> a < b -> b < n ->
    (S a b ->
     d !! Z.to_nat (a * n + b) = d0 !! Z.to_nat (b * n + a) /\
     d !! Z.to_nat (b * n + a) = d0 !! Z.to_nat (a * n + b)) /\
    (~ S a b ->
     d !! Z.to_nat (a * n + b) = d0 !! Z.to_nat (a * n + b) /\
     d !! Z.to_nat (b * n + a) = d0 !! Z.to_nat (b * n + a)).

(** An environment whose first allocation fails. *)
Definition first_allocation_fails : nat -> option exn :=
  fun j => if (j =? 0)%nat then Some bad_alloc else None.

(** The containers of the worked scenarios. *)
Definition m_2x3 : array2d Z := mk_array2d 2 3 [1; 2; 3; 4; 5; 6].
Definition m_3x3 : array2d Z := mk_array2d 3 3 [1; 2; 3; 4; 5; 6; 7; 8; 9].

(** * Further members *)

(** Multiplication in [index_type]: a signed overflow is undefined
    behaviour. *)
Definition int_mul (a b : Z) : outcome Z :=
  if is_indexb (a * b) then Ok (a * b) else Undefined.

(** ** The index type [short]

    [array2d<Ty, short>]: [index_type] is a 16-bit signed integer and
    [size_type = unsigned short]. Both are narrower than [int], so the
    usual arithmetic conversions promote the operands of [*], [/] and [!=]
    to [int]. *)
Module Short.

Definition SHRT_MIN : Z := - 2 ^ 15.
Definition SHRT_MAX : Z := 2 ^ 15 - 1.
Definition USHRT_MAX : Z := 2 ^ 16 - 1.

Definition is_index (z : Z) : Prop := SHRT_MIN <= z <= SHRT_MAX.

(** [static_cast<size_type>(z)]: reduction modulo [2^16]. *)
Definition to_size (z : Z) : Z := z mod 2 ^ 16.

(** [calculate_size]: the product of the two promoted operands is an
    [int], and so is [const auto size]; the quotient and the comparison
    are formed in [int] too; the [return] converts [size] to
    [size_type]. *)
Definition calculate_size (rows cols : Z) : outcome Z :=
  let? size := int_mul (to_size rows) (to_size cols) in
  if (0 <? rows) && (0 <? cols) && negb (size / to_size rows =? to_size cols)
  then Throw (overflow_error "Matrix size calculation overflow")
  else Ok (to_size size).

Section ShortOperations.

Context {Ty : Type} {ET : ElemTraits Ty}.
Variable throws : nat -> option exn.

(** [array2d(index_type rows, index_type cols)] *)
Definition ctor_dims (rows cols : Z) : M Ty unit :=
  let* r := lift (validate_dimension rows "rows") in
  let* _ := set_rows r in
  let* c := lift (validate_dimension cols "cols") in
  let* _ := set_cols c in
  if (0 <? r) && (0 <? c) then
    let* size := lift (calculate_size r c) in
    let* m := get_this in
    let* d := vector_resize throws (data_ m) size Ty_default in
    set_data d
  else ret tt.

(** [size()]: [data_.size()] converted to [size_type]. *)
Definition size (m : array2d Ty) : Z := to_size (Z.of_nat (length (data_ m))).

End ShortOperations.

End Short.

(** ** Iterator operations *)

(** Pointer arithmetic is kept in [Z]; what a pointer outside its buffer
    costs shows when it is dereferenced. *)
Module Iterator.

(** [++it]: the iterator afterwards (which is also what is returned). *)
Definition pre_inc (it : Array2d_iterator) : Array2d_iterator :=
  mk_iterator (ptr_ it + 1).

(** [it++]: the iterator returned, and the iterator afterwards. *)
Definition post_inc (it : Array2d_iterator) : Array2d_iterator * Array2d_iterator :=
  (mk_iterator (ptr_ it), mk_iterator (ptr_ it + 1)).

(** [--it] *)
Definition pre_dec (it : Array2d_iterator) : Array2d_iterator :=
  mk_iterator (ptr_ it - 1).

(** [it--] *)
Definition post_dec (it : Array2d_iterator) : Array2d_iterator * Array2d_iterator :=
  (mk_iterator (ptr_ it), mk_iterator (ptr_ it - 1)).

(** [it += offset] *)
Definition plus_assign (it : Array2d_iterator) (offset : Z) : Array2d_iterator :=
  mk_iterator (ptr_ it + offset).

(** [it -= offset] *)
Definition minus_assign (it : Array2d_iterator) (offset : Z) : Array2d_iterator :=
  mk_iterator (ptr_ it - offset).

(** [it - offset] *)
Definition minus (it : Array2d_iterator) (offset : Z) : Array2d_iterator :=
  mk_iterator (ptr_ it - offset).

(** [offset + it], the free operator: [iter + offset]. *)
Definition offset_plus (offset : Z) (it : Array2d_iterator) : Array2d_iterator :=
  iterator_plus it offset.

(** [it - other] *)
Definition distance (it other : Array2d_iterator) : Z := ptr_ it - ptr_ other.

(** [it <=> other] *)
Definition compare (it other : Array2d_iterator) : comparison := ptr_ it ?= ptr_ other.

(** [it == other] *)
Definition eqb (it other : Array2d_iterator) : bool := ptr_ it =? ptr_ other.

End Iterator.

(** [std::reverse_iterator<iterator>]: it holds the iterator one past the
    element it designates. *)
Record reverse_iterator : Type := mk_reverse { current : Array2d_iterator }.

Section MoreOperations.

Context {Ty : Type} {ET : ElemTraits Ty}.
Variable throws : nat -> option exn.

Local Abbreviation array2d := (array2d Ty).
Local Abbreviation M := (M Ty).

(** [it[offset]] on an iterator into the buffer of [m]. *)
Definition iterator_index (m : array2d) (it : Array2d_iterator) (offset : Z) : outcome Z :=
  vector_ref (data_ m) (ptr_ it + offset).

(** [rbegin()] and [rend()] *)
Definition rbegin (m : array2d) : reverse_iterator := mk_reverse (end_ m).
Definition rend (m : array2d) : reverse_iterator := mk_reverse (begin_ m).

(** [*rit]: [Iter tmp = current; return *--tmp;] *)
Definition reverse_deref (m : array2d) (rit : reverse_iterator) : outcome Z :=
  iterator_deref m (Iterator.pre_dec (current rit)).

(** [++rit]: [--current] *)
Definition reverse_pre_inc (rit : reverse_iterator) : reverse_iterator :=
  mk_reverse (Iterator.pre_dec (current rit)).

(** [for (auto it = first; it != last; ++it)] with [*it] read in the body:
    the loop a range-based [for] runs, collecting what it reads. *)
Fixpoint traverse (fuel : nat) (m : array2d) (it last : Array2d_iterator)
  : outcome (list Ty) :=
  if Iterator.eqb it last then Ok []
  else
    match fuel with
    | O => OutOfFuel
    | S fuel' =>
        let? k := iterator_deref m it in
        let? x := load (data_ m) k in
        let? rest := traverse fuel' m (Iterator.pre_inc it) last in
        Ok (x :: rest)
    end.

(** The same loop over reverse iterators. *)
Fixpoint reverse_traverse (fuel : nat) (m : array2d) (rit rlast : reverse_iterator)
  : outcome (list Ty) :=
  if Iterator.eqb (current rit) (current rlast) then Ok []
  else
    match fuel with
    | O => OutOfFuel
    | S fuel' =>
        let? k := reverse_deref m rit in
        let? x := load (data_ m) k in
        let? rest := reverse_traverse fuel' m (reverse_pre_inc rit) rlast in
        Ok (x :: rest)
    end.

(** [row_iterator_wrapper]: a pointer to the start of a row and the
    number of columns. *)
Record row_iterator_wrapper : Type := mk_row_wrapper {
  wrapper_ptr_ : Z;
  wrapper_cols_ : Z
}.

(** [row_range(row)] *)
Definition row_range (m : array2d) (row : Z) : row_iterator_wrapper :=
  mk_row_wrapper (calculate_offset m row 0) (to_size (cols_ m)).

Definition wrapper_begin (w : row_iterator_wrapper) : Array2d_iterator :=
  mk_iterator (wrapper_ptr_ w).

Definition wrapper_end (w : row_iterator_wrapper) : Array2d_iterator :=
  mk_iterator (wrapper_ptr_ w + wrapper_cols_ w).

(** ** Views *)

(** [std::span<Ty>]: a pointer into the buffer and a count. *)
Record span : Type := mk_span { span_data : Z; span_size : Z }.

(** [s[i]] as a reference into the buffer [v] the span points into. *)
Definition span_ref (v : list Ty) (s : span) (i : Z) : outcome Z :=
  if (0 <=? i) && (i <? span_size s) then vector_ref v (span_data s + i)
  else Undefined.

(** [as_span()] *)
Definition as_span (m : array2d) : span := mk_span 0 (Z.of_nat (length (data_ m))).

(** [submatrix_row_major(start_row, start_col, num_rows, num_cols)];
    [num_rows * cols_] is a product in [index_type]. *)
Definition submatrix_row_major (m : array2d) (start_row start_col num_rows num_cols : Z)
  : outcome span :=
  if (start_col =? 0) && (num_cols =? cols_ m) then
    let? n := int_mul num_rows (cols_ m) in
    Ok (mk_span (calculate_offset m start_row 0) (to_size n))
  else Ok (mk_span (calculate_offset m start_row start_col) (to_size num_cols)).

End MoreOperations.

(** The views that share their names with the dimension queries' arguments. *)
Module View.

Section View.

Context {Ty : Type}.
Variable throws : nat -> option exn.

(** [row(row)]: the span over one row. *)
Definition row (m : array2d Ty) (row : Z) : span :=
  mk_span (calculate_offset m row 0) (to_size (cols_ m)).

(** [col(col)]: a new vector, one element per row; the reservation and
    every [push_back] may throw. *)
Definition col (col : Z) : M Ty (list Ty) :=
  let* m := get_this in
  let* _ := may_throw throws in
  for_rangeM 0 (rows_ m)
    (fun i result =>
       let* x := lift (let? k := vector_ref (data_ m) (calculate_offset m i col) in
                       load (data_ m) k) in
       let* _ := may_throw throws in
       ret (result ++ [x]))
    [].

End View.

End View.

(** ** Writing through the reference [at] returns *)

(** [m.at(row, col) = x] *)
Definition at_assign {Ty : Type} (row col : Z) (x : Ty) : M Ty unit :=
  let* k := at_ row col in
  let* m := get_this in
  let* d := lift (store (data_ m) k x) in
  set_data d.

(** ** Comparison *)

(** What [operator==] and [operator<=>] ask of the element type: its
    [==] and its [<=>], which has to be a [std::strong_ordering] for the
    container's [operator<=>] to compile. *)
Class ElemOrder (Ty : Type) : Type := {
  Ty_eqb : Ty -> Ty -> bool;
  Ty_compare : Ty -> Ty -> comparison
}.

Section Comparison.

Context {Ty : Type} {EO : ElemOrder Ty}.

(** [std::equal] over two ranges of the same length. *)
Fixpoint std_equal (l1 l2 : list Ty) : bool :=
  match l1, l2 with
  | x :: l1', y :: l2' => Ty_eqb x y && std_equal l1' l2'
  | _, _ => true
  end.

(** [v1 == v2] on vectors: the sizes, then the elements. *)
Definition vector_eqb (v1 v2 : list Ty) : bool :=
  (length v1 =? length v2)%nat && std_equal v1 v2.

(** [v1 <=> v2] on vectors: the first pair of elements that differ
    decides; without one, the shorter vector is the smaller. *)
Fixpoint vector_compare (v1 v2 : list Ty) : comparison :=
  match v1, v2 with
  | [], [] => Eq
  | [], _ :: _ => Lt
  | _ :: _, [] => Gt
  | x :: v1', y :: v2' =>
      match Ty_compare x y with
      | Eq => vector_compare v1' v2'
      | c => c
      end
  end.

(** [operator==] *)
Definition operator_eq (m other : array2d Ty) : bool :=
  (rows_ m =? rows_ other) && (cols_ m =? cols_ other) && vector_eqb (data_ m) (data_ other).

(** [operator<=>] *)
Definition operator_compare (m other : array2d Ty) : comparison :=
  match rows_ m ?= rows_ other with
  | Eq =>
      match cols_ m ?= cols_ other with
      | Eq => vector_compare (data_ m) (data_ other)
      | cmp => cmp
      end
  | cmp => cmp
  end.

End Comparison.

(** [int] elements compare as integers. *)
Definition int_order : ElemOrder Z := {| Ty_eqb := Z.eqb; Ty_compare := Z.compare |}.

(** More containers for examples. *)
Definition m_3x4 : array2d Z := mk_array2d 3 4 [1; 2; 3; 4; 5; 6; 7; 8; 9; 10; 11; 12].

(** * Properties *)

(** ** Machine arithmetic *)

Lemma to_size_small z : 0 <= z <= SIZE_MAX -> to_size z = z.
Proof. unfold to_size, SIZE_MAX. intros H. apply Z.mod_small. lia. Qed.

Lemma to_size_index z : 0 <= z <= INT_MAX -> to_size z = z.
Proof. unfold INT_MAX. intros H. apply to_size_small. unfold SIZE_MAX. lia. Qed.

Lemma to_index_small z : is_index z -> to_index z = z.
Proof.
  unfold is_index, INT_MIN, INT_MAX, to_index. intros H.
  rewrite Z.mod_small by lia. lia.
Qed.

Lemma to_size_range z : 0 <= to_size z <= SIZE_MAX.
Proof.
  unfold to_size, SIZE_MAX.
  pose proof (Z.mod_pos_bound z (2 ^ 32) ltac:(lia)). lia.
Qed.

(** ** The size computation *)

Lemma calculate_size_fits rows cols :
  0 <= rows <= INT_MAX -> 0 <= cols <= INT_MAX -> rows * cols <= SIZE_MAX ->
  calculate_size rows cols = Ok (rows * cols).
Proof.
  intros Hr Hc Hfit. unfold calculate_size.
  rewrite (to_size_index rows), (to_size_index cols) by assumption.
  rewrite (to_size_small (rows * cols)) by nia.
  destruct (0 <? rows) eqn:Er; simpl; [|reflexivity].
  destruct (0 <? cols) eqn:Ec; simpl; [|reflexivity].
  apply Z.ltb_lt in Er.
  rewrite Z.mul_comm, Z.div_mul by lia.
  rewrite Z.eqb_refl. simpl. now rewrite Z.mul_comm.
Qed.

Lemma calculate_size_overflow rows cols :
  0 < rows <= INT_MAX -> 0 < cols <= INT_MAX -> SIZE_MAX < rows * cols ->
  calculate_size rows cols = Throw (overflow_error "Matrix size calculation overflow").
Proof.
  intros Hr Hc Hbig. unfold calculate_size.
  rewrite (to_size_index rows), (to_size_index cols) by lia.
  destruct (0 <? rows) eqn:Er; [|apply Z.ltb_ge in Er; lia].
  destruct (0 <? cols) eqn:Ec; [|apply Z.ltb_ge in Ec; lia].
  simpl.
  assert (Hlt : to_size (rows * cols) / rows < cols).
  { apply Z.div_lt_upper_bound; [lia|].
    pose proof (to_size_range (rows * cols)). lia. }
  destruct (Z.eqb_spec (to_size (rows * cols) / rows) cols); [lia|reflexivity].
Qed.


(** ** Vector primitives *)

Section VectorFacts.

Context {Ty : Type}.
Variable throws : nat -> option exn.

Lemma construct_n_run k (x : Ty) w r w' :
  construct_n throws k x w = (r, w') ->
  this w' = this w /\
  match r with
  | Ok l => l = replicate k x
  | Throw e => exists j, throws j = Some e
  | _ => False
  end.
Proof.
  revert w r w'. induction k as [|k IH]; intros w r w'; simpl.
  - munfold. intros [= <- <-]. auto.
  - munfold. simpl. destruct (throws (clock w)) as [e|] eqn:Eo.
    + intros [= <- <-]. eauto.
    + destruct (construct_n throws k x _) as [[l|e| |] w1] eqn:E;
        apply IH in E; simpl in E; destruct E as [Ht Hr];
        intros [= <- <-]; try contradiction; subst; auto.
Qed.

Lemma construct_n_quiet k (x : Ty) w :
  quiet throws ->
  construct_n throws k x w = (Ok (replicate k x), mk_world (this w) (clock w + k)).
Proof.
  intros Hq. revert w. induction k as [|k IH]; intros w; simpl.
  - munfold. destruct w; simpl. do 2 f_equal. lia.
  - munfold. rewrite Hq, IH. simpl. do 2 f_equal. lia.
Qed.

Lemma copy_construct_run (l : list Ty) w r w' :
  copy_construct throws l w = (r, w') ->
  this w' = this w /\
  match r with
  | Ok l' => l' = l
  | Throw e => exists j, throws j = Some e
  | _ => False
  end.
Proof.
  revert w r w'. induction l as [|x l IH]; intros w r w'; simpl.
  - munfold. intros [= <- <-]. auto.
  - munfold. simpl. destruct (throws (clock w)) as [e|] eqn:Eo.
    + intros [= <- <-]. eauto.
    + destruct (copy_construct throws l _) as [[l'|e| |] w1] eqn:E;
        apply IH in E; simpl in E; destruct E as [Ht Hr];
        intros [= <- <-]; try contradiction; subst; auto.
Qed.

Lemma copy_construct_quiet (l : list Ty) w :
  quiet throws ->
  copy_construct throws l w = (Ok l, mk_world (this w) (clock w + length l)).
Proof.
  intros Hq. revert w. induction l as [|x l IH]; intros w; simpl.
  - munfold. destruct w; simpl. do 2 f_equal. lia.
  - munfold. rewrite Hq, IH. simpl. do 2 f_equal. lia.
Qed.

Lemma vector_resize_run (v : list Ty) n x w r w' :
  vector_resize throws v n x w = (r, w') ->
  this w' = this w /\
  match r with
  | Ok l =>
      l = if n <=? Z.of_nat (length v) then take (Z.to_nat n) v
          else v ++ replicate (Z.to_nat n - length v) x
  | Throw e => exists j, throws j = Some e
  | _ => False
  end.
Proof.
  unfold vector_resize. destruct (n <=? Z.of_nat (length v)).
  - munfold. intros [= <- <-]. auto.
  - munfold. simpl. destruct (throws (clock w)) as [e|] eqn:Eo.
    + intros [= <- <-]. eauto.
    + destruct (construct_n throws _ x _) as [[l|e| |] w1] eqn:E;
        apply construct_n_run in E; simpl in E; destruct E as [Ht Hr];
        intros [= <- <-]; try contradiction; subst; auto.
Qed.

Lemma vector_resize_quiet (v : list Ty) n x w :
  quiet throws ->
  exists k,
    vector_resize throws v n x w =
    (Ok (if n <=? Z.of_nat (length v) then take (Z.to_nat n) v
         else v ++ replicate (Z.to_nat n - length v) x),
     mk_world (this w) k).
Proof.
  intros Hq. unfold vector_resize. destruct (n <=? Z.of_nat (length v)).
  - munfold. exists (clock w). destruct w; reflexivity.
  - munfold. rewrite Hq. rewrite construct_n_quiet by assumption. simpl. eauto.
Qed.

Lemma vector_assign_run n (x : Ty) w r w' :
  vector_assign throws n x w = (r, w') ->
  this w' = this w /\
  match r with
  | Ok l => l = replicate (Z.to_nat n) x
  | Throw e => exists j, throws j = Some e
  | _ => False
  end.
Proof.
  unfold vector_assign. munfold. simpl. destruct (throws (clock w)) as [e|] eqn:Eo.
  - intros [= <- <-]. eauto.
  - intros E. apply construct_n_run in E. simpl in E. exact E.
Qed.

Lemma vector_assign_quiet n (x : Ty) w :
  quiet throws ->
  exists k,
    vector_assign throws n x w = (Ok (replicate (Z.to_nat n) x), mk_world (this w) k).
Proof.
  intros Hq. unfold vector_assign. munfold. rewrite Hq.
  rewrite construct_n_quiet by assumption. simpl. eauto.
Qed.

Lemma vector_copy_run (v : list Ty) w r w' :
  vector_copy throws v w = (r, w') ->
  this w' = this w /\
  match r with
  | Ok l => l = v
  | Throw e => exists j, throws j = Some e
  | _ => False
  end.
Proof.
  unfold vector_copy. munfold. simpl. destruct (throws (clock w)) as [e|] eqn:Eo.
  - intros [= <- <-]. eauto.
  - intros E. apply copy_construct_run in E. simpl in E. exact E.
Qed.

End VectorFacts.

(** ** Dimensioned construction *)

Lemma validate_dimension_neg dim name :
  dim < 0 ->
  validate_dimension dim name = Throw (invalid_argument (name +:+ " must be non-negative")).
Proof. intros H. unfold validate_dimension. destruct (Z.ltb_spec dim 0); [reflexivity|lia]. Qed.

Lemma validate_dimension_ok dim name :
  0 <= dim -> validate_dimension dim name = Ok dim.
Proof. intros H. unfold validate_dimension. destruct (Z.ltb_spec dim 0); [lia|reflexivity]. Qed.

Lemma resize_fresh_result {Ty : Type} (n : Z) (x : Ty) :
  0 < n ->
  (if n <=? Z.of_nat (length (@nil Ty)) then take (Z.to_nat n) []
   else [] ++ replicate (Z.to_nat n - length (@nil Ty)) x) = replicate (Z.to_nat n) x.
Proof.
  intros Hn. simpl length. change (Z.of_nat 0) with 0.
  destruct (Z.leb_spec n 0); [lia|]. simpl. now rewrite Nat.sub_0_r.
Qed.

Lemma ctor_dims_positive {Ty : Type} {ET : ElemTraits Ty} (throws : nat -> option exn)
  (rows cols : Z) (w : world Ty) :
  0 < rows <= INT_MAX -> 0 < cols <= INT_MAX -> rows * cols <= SIZE_MAX ->
  ctor_dims throws rows cols w =
  bind (vector_resize throws (data_ (this w)) (rows * cols) Ty_default) set_data
    (mk_world (mk_array2d rows cols (data_ (this w))) (clock w)).
Proof.
  intros Hr Hc Hfit. unfold ctor_dims. munfold.
  rewrite !validate_dimension_ok by lia.
  destruct (Z.ltb_spec 0 rows); [|lia]. destruct (Z.ltb_spec 0 cols); [|lia].
  simpl. rewrite calculate_size_fits by lia. reflexivity.
Qed.



(** ** Dimensioned construction at the index type [short] *)

Lemma short_to_size_small z : 0 <= z <= Short.USHRT_MAX -> Short.to_size z = z.
Proof. unfold Short.to_size, Short.USHRT_MAX. intros H. apply Z.mod_small. lia. Qed.

(** The overflow test never fires: the quotient is formed in [int], where
    the product is exact. *)
Lemma short_calculate_size_wraps rows cols :
  0 < rows <= Short.SHRT_MAX -> 0 < cols <= Short.SHRT_MAX ->
  Short.calculate_size rows cols = Ok ((rows * cols) mod 2 ^ 16).
Proof.
  unfold Short.SHRT_MAX. intros Hr Hc. unfold Short.calculate_size.
  rewrite !short_to_size_small by (unfold Short.USHRT_MAX; lia).
  unfold int_mul, is_indexb, INT_MIN, INT_MAX.
  destruct (Z.leb_spec (- 2 ^ 31) (rows * cols)); [|nia].
  destruct (Z.leb_spec (rows * cols) (2 ^ 31 - 1)); [|nia].
  simpl obind.
  replace (rows * cols / rows) with cols by (rewrite Z.mul_comm, Z.div_mul; lia).
  rewrite Z.eqb_refl, !andb_false_r. reflexivity.
Qed.

Lemma short_ctor_dims_positive {Ty : Type} {ET : ElemTraits Ty}
  (throws : nat -> option exn) (rows cols : Z) (w : world Ty) :
  0 < rows <= Short.SHRT_MAX -> 0 < cols <= Short.SHRT_MAX ->
  Short.ctor_dims throws rows cols w =
  bind (vector_resize throws (data_ (this w)) ((rows * cols) mod 2 ^ 16) Ty_default) set_data
    (mk_world (mk_array2d rows cols (data_ (this w))) (clock w)).
Proof.
  intros Hr Hc. unfold Short.ctor_dims. munfold.
  rewrite !validate_dimension_ok by lia.
  destruct (Z.ltb_spec 0 rows); [|lia]. destruct (Z.ltb_spec 0 cols); [|lia].
  simpl. rewrite short_calculate_size_wraps by assumption. reflexivity.
Qed.

(** What [array2d<Ty, short>(rows, cols)] builds for positive dimensions:
    [rows * cols] modulo [2^16] elements, and no [std::overflow_error]. *)
Lemma short_ctor_dims_builds {Ty : Type} {ET : ElemTraits Ty}
  (throws : nat -> option exn) (rows cols : Z) (k : nat) :
  0 < rows <= Short.SHRT_MAX -> 0 < cols <= Short.SHRT_MAX ->
  match fst (construct (Short.ctor_dims throws rows cols) k) with
  | Ok m => m = mk_array2d rows cols
                  (replicate (Z.to_nat ((rows * cols) mod 2 ^ 16)) Ty_default)
  | Throw e => exists j, throws j = Some e
  | _ => False
  end.
Proof.
  intros Hr Hc. unfold construct. rewrite short_ctor_dims_positive by assumption.
  unfold bind. cbn [this clock data_ array2d_default].
  match goal with |- context [vector_resize ?t ?v ?n ?x ?w] =>
    destruct (vector_resize t v n x w) as [[d|e| |] w1] eqn:E end;
    apply vector_resize_run in E; destruct E as [Ht E]; cbn [fst];
    try contradiction; try assumption.
  unfold set_data. cbn [fst this]. rewrite Ht. cbn [this rows_ cols_]. subst d.
  f_equal. cbn [length]. change (Z.of_nat 0) with 0.
  pose proof (Z.mod_pos_bound (rows * cols) (2 ^ 16) ltac:(lia)) as Hm.
  destruct (Z.leb_spec ((rows * cols) mod 2 ^ 16) 0) as [Hz|Hp].
  - replace ((rows * cols) mod 2 ^ 16) with 0 by lia. reflexivity.
  - cbn [app]. now rewrite Nat.sub_0_r.
Qed.

(** C8 at a failing input: with the index type [short],
    [array2d(300, 300)] asks for 90000 elements, more than the 65535 that
    [size_type] holds. No [std::overflow_error] is thrown: unless the
    environment makes the allocation or an element construction fail, the
    constructor returns a container with [rows() = 300], [cols() = 300]
    and 24464 elements; and [array2d(256, 256)] returns one with an empty
    buffer. *)
Theorem ctor_dims_short_index_misses_overflow :
  forall (throws : nat -> option exn) (k : nat),
    Short.is_index 300 /\ Short.USHRT_MAX < 300 * 300 /\
    match fst (construct (Short.ctor_dims (ET := int_traits) throws 300 300) k) with
    | Ok m => rows m = 300 /\ cols m = 300 /\ Short.size m = 24464 /\
              Z.of_nat (length (data_ m)) <> rows m * cols m
    | Throw e => exists j, throws j = Some e
    | _ => False
    end /\
    fst (construct (Short.ctor_dims (ET := int_traits) never_throws 300 300) k) =
    Ok (mk_array2d 300 300 (replicate (Z.to_nat 24464) 0)) /\
    fst (construct (Short.ctor_dims (ET := int_traits) never_throws 256 256) k) =
    Ok (mk_array2d 256 256 []).
Proof.
  intros throws k.
  split; [unfold Short.is_index, Short.SHRT_MIN, Short.SHRT_MAX; lia|].
  split; [unfold Short.USHRT_MAX; lia|].
  assert (H300 : 0 < 300 <= Short.SHRT_MAX) by (unfold Short.SHRT_MAX; lia).
  assert (H256 : 0 < 256 <= Short.SHRT_MAX) by (unfold Short.SHRT_MAX; lia).
  split; [|split].
  - pose proof (short_ctor_dims_builds (ET := int_traits) throws 300 300 k H300 H300) as H.
    destruct (fst (construct (Short.ctor_dims (ET := int_traits) throws 300 300) k))
      as [m|e| |]; try assumption.
    subst m. unfold rows, cols, Short.size, Short.to_size. cbn [rows_ cols_ data_].
    rewrite length_replicate.
    change ((300 * 300) mod 2 ^ 16) with 24464.
    repeat split; try reflexivity. lia.
  - pose proof (short_ctor_dims_builds (ET := int_traits) never_throws 300 300 k H300 H300)
      as H.
    destruct (fst (construct (Short.ctor_dims (ET := int_traits) never_throws 300 300) k))
      as [m|e| |]; try contradiction.
    + subst m. reflexivity.
    + destruct H as [j Hj]. discriminate.
  - pose proof (short_ctor_dims_builds (ET := int_traits) never_throws 256 256 k H256 H256)
      as H.
    destruct (fst (construct (Short.ctor_dims (ET := int_traits) never_throws 256 256) k))
      as [m|e| |]; try contradiction.
    + subst m. reflexivity.
    + destruct H as [j Hj]. discriminate.
Qed.

(** ** Row-major addressing *)

Section Addressing.

Context {Ty : Type}.
Implicit Types m : array2d Ty.

Lemma wf_cell_bound m r c :
  wf m -> 0 <= r < rows_ m -> 0 <= c < cols_ m ->
  0 <= r * cols_ m + c < Z.of_nat (length (data_ m)) /\
  r * cols_ m + c <= SIZE_MAX.
Proof.
  intros (Hr & Hc & Hlen & Hfit) Hrow Hcol. rewrite Hlen.
  assert (r * cols_ m + c < rows_ m * cols_ m) by nia.
  split; [split; [nia|assumption]|lia].
Qed.

Lemma calculate_offset_cell m r c :
  wf m -> 0 <= r < rows_ m -> 0 <= c < cols_ m ->
  calculate_offset m r c = r * cols_ m + c.
Proof.
  intros Hwf Hrow Hcol. pose proof (wf_cell_bound m r c Hwf Hrow Hcol) as [Hb Hs].
  destruct Hwf as (Hr & Hc & Hlen & Hfit). unfold calculate_offset.
  rewrite (to_size_index r), (to_size_index (cols_ m)), (to_size_index c) by lia.
  rewrite (to_size_small (r * cols_ m)) by nia.
  apply to_size_small. lia.
Qed.

Lemma calculate_offset_row m r :
  wf m -> 0 <= r < rows_ m ->
  calculate_offset m r 0 = r * cols_ m.
Proof.
  intros (Hr & Hc & Hlen & Hfit) Hrow. unfold calculate_offset.
  rewrite (to_size_index r), (to_size_index (cols_ m)) by lia.
  change (to_size 0) with 0. rewrite Z.add_0_r.
  rewrite (to_size_small (r * cols_ m)) by nia.
  apply to_size_small. nia.
Qed.

Lemma subscript_cell m r c :
  wf m -> 0 <= r < rows_ m -> subscript m r c = r * cols_ m + c.
Proof.
  intros Hwf Hrow. unfold subscript, row_ptr.
  now rewrite calculate_offset_row.
Qed.

Lemma vector_ref_in (v : list Ty) k :
  0 <= k < Z.of_nat (length v) -> vector_ref v k = Ok k.
Proof.
  intros H. unfold vector_ref.
  destruct (Z.leb_spec 0 k); [|lia]. destruct (Z.ltb_spec k (Z.of_nat (length v))); [|lia].
  reflexivity.
Qed.

Lemma load_in (v : list Ty) k :
  0 <= k < Z.of_nat (length v) ->
  exists x, v !! Z.to_nat k = Some x /\ load v k = Ok x.
Proof.
  intros H. unfold load. destruct (Z.ltb_spec k 0); [lia|].
  destruct (lookup_lt_is_Some_2 v (Z.to_nat k)) as [x Hx]; [lia|].
  exists x. now rewrite Hx.
Qed.

Lemma load_lookup (v : list Ty) k x :
  0 <= k -> v !! Z.to_nat k = Some x -> load v k = Ok x.
Proof.
  intros H Hx. unfold load. destruct (Z.ltb_spec k 0); [lia|]. now rewrite Hx.
Qed.

Lemma store_in (v : list Ty) k x :
  0 <= k < Z.of_nat (length v) -> store v k x = Ok (<[Z.to_nat k := x]> v).
Proof.
  intros H. unfold store.
  destruct (Z.leb_spec 0 k); [|lia]. destruct (Z.ltb_spec k (Z.of_nat (length v))); [|lia].
  reflexivity.
Qed.

(** C2: for a well-formed container and a valid pair [(r, c)],
    [operator()(r, c)] and [operator[](r)[c]] both designate the element at
    offset [r * cols() + c] of the buffer, which is the element [begin()]
    advanced by [r * cols() + c] designates; the offset lies inside the
    buffer. *)
Theorem row_major_addressing m r c :
  wf m -> 0 <= r < rows m -> 0 <= c < cols m ->
  let k := r * cols m + c in
  call m r c = Ok k /\
  subscript m r c = k /\
  iterator_deref m (iterator_plus (begin_ m) k) = Ok k /\
  exists x, load (data_ m) k = Ok x /\ elem m r c = Some x.
Proof.
  unfold rows, cols. intros Hwf Hrow Hcol. cbv zeta.
  pose proof (wf_cell_bound m r c Hwf Hrow Hcol) as [Hb Hs].
  split; [|split; [|split]].
  - unfold call. rewrite calculate_offset_cell by assumption.
    now apply vector_ref_in.
  - now apply subscript_cell.
  - unfold iterator_deref, iterator_plus, begin_. simpl.
    now apply vector_ref_in.
  - destruct (load_in (data_ m) _ Hb) as (x & Hx & Hl). exists x. split; assumption.
Qed.

End Addressing.

Lemma row_major_addressing_witness :
  let m := mk_array2d 2 3 [1; 2; 3; 4; 5; 6] in
  wf m /\ call m 1 2 = Ok 5 /\ subscript m 1 2 = 5 /\ elem m 1 2 = Some 6.
Proof.
  cbv zeta.
  assert (Hwf : wf (mk_array2d 2 3 [1; 2; 3; 4; 5; 6])).
  { unfold wf, INT_MAX, SIZE_MAX. simpl. lia. }
  split; [exact Hwf|].
  destruct (row_major_addressing (mk_array2d 2 3 [1; 2; 3; 4; 5; 6]) 1 2 Hwf)
    as (H1 & H2 & _ & x & Hx & He); [unfold rows; simpl; lia|unfold cols; simpl; lia|].
  split; [exact H1|]. split; [exact H2|]. reflexivity.
Defined.

(** ** Checked access *)

(** C5: [at(row, col)] throws [std::out_of_range] exactly when
    [row < 0], [row >= rows()], [col < 0] or [col >= cols()]; the message
    spells out both indices and both bounds; otherwise, on a well-formed
    container, it returns the reference to offset [row * cols() + col],
    which lies inside the buffer; the container is the same afterwards in
    every case. *)
Theorem at_checked {Ty : Type} (m : array2d Ty) (row col : Z) (k : nat) :
  let out := at_ row col (mk_world m k) in
  this (snd out) = m /\
  ((row < 0 \/ rows m <= row \/ col < 0 \/ cols m <= col) <->
   exists msg, fst out = Throw (out_of_range msg)) /\
  (forall e, fst out = Throw e ->
     e = out_of_range
           ("array2d: index (" +:+ to_string row +:+ ", " +:+ to_string col +:+
            ") out of range [0, " +:+ to_string (rows m) +:+ ") x [0, " +:+
            to_string (cols m) +:+ ")")) /\
  (wf m -> 0 <= row < rows m -> 0 <= col < cols m ->
   fst out = Ok (row * cols m + col) /\
   is_Some (data_ m !! Z.to_nat (row * cols m + col))).
Proof.
  unfold rows, cols, at_, at_impl. munfold. simpl.
  destruct (Z.ltb_spec row 0) as [Hr0|Hr0]; simpl.
  { split; [reflexivity|]. split; [split; [eauto|intros; lia]|].
    split; [intros e [= <-]; reflexivity|intros; lia]. }
  destruct (Z.leb_spec (rows_ m) row) as [Hr1|Hr1]; simpl.
  { split; [reflexivity|]. split; [split; [eauto|intros; lia]|].
    split; [intros e [= <-]; reflexivity|intros; lia]. }
  destruct (Z.ltb_spec col 0) as [Hc0|Hc0]; simpl.
  { split; [reflexivity|]. split; [split; [eauto|intros; lia]|].
    split; [intros e [= <-]; reflexivity|intros; lia]. }
  destruct (Z.leb_spec (cols_ m) col) as [Hc1|Hc1]; simpl.
  { split; [reflexivity|]. split; [split; [eauto|intros; lia]|].
    split; [intros e [= <-]; reflexivity|intros; lia]. }
  split; [reflexivity|]. split; [|split].
  - split; [lia|]. intros [msg Hmsg]. unfold vector_ref in Hmsg.
    destruct (_ && _); discriminate.
  - intros e He. unfold vector_ref in He. destruct (_ && _); discriminate.
  - intros Hwf Hrow Hcol.
    pose proof (wf_cell_bound m row col Hwf Hrow Hcol) as [Hb Hs].
    rewrite calculate_offset_cell by assumption.
    split; [now apply vector_ref_in|].
    apply lookup_lt_is_Some_2. lia.
Qed.

Lemma at_checked_witness :
  let m := mk_array2d 2 3 [1; 2; 3; 4; 5; 6] in
  wf m /\
  fst (at_ 1 2 (mk_world m 0)) = Ok 5 /\
  fst (at_ 2 0 (mk_world m 0)) =
  Throw (out_of_range "array2d: index (2, 0) out of range [0, 2) x [0, 3)").
Proof.
  cbv zeta.
  assert (Hwf : wf (mk_array2d 2 3 [1; 2; 3; 4; 5; 6])).
  { unfold wf, INT_MAX, SIZE_MAX. simpl. lia. }
  split; [exact Hwf|]. split.
  - destruct (at_checked (mk_array2d 2 3 [1; 2; 3; 4; 5; 6]) 1 2 0) as (_ & _ & _ & H).
    destruct H as [H _]; [exact Hwf|unfold rows; simpl; lia|unfold cols; simpl; lia|].
    exact H.
  - destruct (at_checked (mk_array2d 2 3 [1; 2; 3; 4; 5; 6]) 2 0 0) as (_ & Hiff & Hmsg & _).
    destruct (proj1 Hiff) as [msg Hm]; [unfold rows; simpl; lia|].
    rewrite Hm. f_equal. exact (Hmsg _ Hm).
Defined.

(** ** Loops and buffers *)

Lemma for_loop_inv {S : Type} (Inv : Z -> S -> Prop) n k (body : Z -> S -> outcome S) s :
  Inv k s ->
  (forall j s0, k <= j < k + Z.of_nat n -> Inv j s0 ->
     exists s1, body j s0 = Ok s1 /\ Inv (j + 1) s1) ->
  exists s', for_loop n k body s = Ok s' /\ Inv (k + Z.of_nat n) s'.
Proof.
  revert k s. induction n as [|n IH]; intros k s Hk Hstep; simpl for_loop.
  - exists s. split; [reflexivity|]. now replace (k + Z.of_nat 0) with k by lia.
  - destruct (Hstep k s) as (s1 & Hb & Hi); [lia|assumption|].
    rewrite Hb. simpl.
    destruct (IH (k + 1) s1 Hi) as (s' & Hf & Hi').
    { intros j s0 Hj. apply Hstep. lia. }
    exists s'. split; [assumption|].
    now replace (k + Z.of_nat (Datatypes.S n)) with (k + 1 + Z.of_nat n) by lia.
Qed.

Lemma for_range_inv {S : Type} (Inv : Z -> S -> Prop) lo hi (body : Z -> S -> outcome S) s :
  lo <= hi -> Inv lo s ->
  (forall j s0, lo <= j < hi -> Inv j s0 ->
     exists s1, body j s0 = Ok s1 /\ Inv (j + 1) s1) ->
  exists s', for_range lo hi body s = Ok s' /\ Inv hi s'.
Proof.
  intros Hle Hlo Hstep. unfold for_range.
  destruct (for_loop_inv Inv (Z.to_nat (hi - lo)) lo body s Hlo) as (s' & Hf & Hi).
  { intros j s0 Hj. apply Hstep. lia. }
  exists s'. split; [assumption|].
  assert (E : lo + Z.of_nat (Z.to_nat (hi - lo)) = hi) by lia.
  rewrite E in Hi. exact Hi.
Qed.

Lemma for_range_empty {S : Type} lo hi (body : Z -> S -> outcome S) s :
  hi <= lo -> for_range lo hi body s = Ok s.
Proof.
  intros H. unfold for_range. now replace (Z.to_nat (hi - lo)) with O by lia.
Qed.

Section Buffers.

Context {Ty : Type}.
Implicit Types v d : list Ty.

Lemma lookup_stored v k x i :
  0 <= k < Z.of_nat (length v) -> 0 <= i ->
  <[Z.to_nat k := x]> v !! Z.to_nat i = if i =? k then Some x else v !! Z.to_nat i.
Proof.
  intros Hk Hi. destruct (Z.eqb_spec i k) as [->|Hne].
  - apply list_lookup_insert_eq. lia.
  - apply list_lookup_insert_ne. lia.
Qed.

Lemma memcpy_in dst_v dst src_v src n :
  0 <= n -> 0 <= src -> src + n <= Z.of_nat (length src_v) ->
  0 <= dst -> dst + n <= Z.of_nat (length dst_v) ->
  exists d,
    memcpy dst_v dst src_v src n = Ok d /\
    length d = length dst_v /\
    forall i, 0 <= i ->
      d !! Z.to_nat i =
      if (dst <=? i) && (i <? dst + n) then src_v !! Z.to_nat (src + (i - dst))
      else dst_v !! Z.to_nat i.
Proof.
  intros Hn Hs Hsn Hd Hdn. unfold memcpy.
  destruct (Z.leb_spec 0 n); [|lia]. destruct (Z.leb_spec 0 src); [|lia].
  destruct (Z.leb_spec (src + n) (Z.of_nat (length src_v))); [|lia].
  destruct (Z.leb_spec 0 dst); [|lia].
  destruct (Z.leb_spec (dst + n) (Z.of_nat (length dst_v))); [|lia].
  simpl. eexists. split; [reflexivity|].
  assert (Hl1 : length (take (Z.to_nat dst) dst_v) = Z.to_nat dst).
  { apply length_take_le. lia. }
  assert (Hl2 : length (take (Z.to_nat n) (drop (Z.to_nat src) src_v)) = Z.to_nat n).
  { apply length_take_le. rewrite length_drop. lia. }
  split.
  - rewrite !length_app, Hl1, Hl2, length_drop. lia.
  - intros i Hi.
    destruct (Z.leb_spec dst i) as [Hdi|Hdi]; simpl.
    + rewrite lookup_app_r by lia. rewrite Hl1.
      destruct (Z.ltb_spec i (dst + n)) as [Hin|Hin].
      * rewrite lookup_app_l by lia.
        rewrite lookup_take_lt by lia. rewrite lookup_drop. f_equal. lia.
      * rewrite lookup_app_r by lia. rewrite Hl2, lookup_drop. f_equal. lia.
    + rewrite lookup_app_l by lia. apply lookup_take_lt. lia.
Qed.

Lemma memcpy_within_in v dst src n :
  0 <= n -> 0 <= src -> src + n <= Z.of_nat (length v) ->
  0 <= dst -> dst + n <= Z.of_nat (length v) ->
  src + n <= dst \/ dst + n <= src ->
  memcpy_within v dst src n = memcpy v dst v src n.
Proof.
  intros Hn Hs Hsn Hd Hdn Hdis. unfold memcpy_within.
  destruct (Z.ltb_spec 0 n); simpl; [|reflexivity].
  destruct (Z.ltb_spec src (dst + n)); simpl; [|reflexivity].
  destruct (Z.ltb_spec dst (src + n)); simpl; [lia|reflexivity].
Qed.

Lemma copy_n_within_in v src n dst :
  0 <= n -> 0 <= src -> src + n <= Z.of_nat (length v) ->
  0 <= dst -> dst + n <= Z.of_nat (length v) ->
  src + n <= dst \/ dst + n <= src ->
  exists d,
    copy_n_within v src n dst = Ok d /\
    length d = length v /\
    forall i, 0 <= i ->
      d !! Z.to_nat i =
      if (dst <=? i) && (i <? dst + n) then v !! Z.to_nat (src + (i - dst))
      else v !! Z.to_nat i.
Proof.
  intros Hn Hs Hsn Hd Hdn Hdis. unfold copy_n_within.
  apply (for_range_inv
           (fun k d => length d = length v /\
              forall i, 0 <= i ->
                d !! Z.to_nat i =
                if (dst <=? i) && (i <? dst + k) then v !! Z.to_nat (src + (i - dst))
                else v !! Z.to_nat i)); [lia| |].
  - split; [reflexivity|]. intros i Hi.
    destruct (Z.leb_spec dst i); destruct (Z.ltb_spec i (dst + 0)); simpl;
      try reflexivity; lia.
  - intros j d [Hj1 Hj2] [Hlen Hinv].
    assert (Hsrc : d !! Z.to_nat (src + j) = v !! Z.to_nat (src + j)).
    { rewrite Hinv by lia.
      destruct (Z.leb_spec dst (src + j)); destruct (Z.ltb_spec (src + j) (dst + j));
        simpl; try reflexivity; lia. }
    destruct (load_in d (src + j)) as (x & Hx & Hl); [lia|].
    rewrite Hl. simpl. rewrite store_in by lia.
    eexists. split; [reflexivity|]. split.
    + rewrite length_insert. assumption.
    + intros i Hi. rewrite lookup_stored by lia.
      destruct (Z.eqb_spec i (dst + j)) as [->|Hne].
      * destruct (Z.leb_spec dst (dst + j)); [|lia].
        destruct (Z.ltb_spec (dst + j) (dst + (j + 1))); [|lia]. simpl.
        rewrite <- Hx, Hsrc. f_equal. lia.
      * rewrite Hinv by lia.
        destruct (Z.leb_spec dst i); simpl; [|reflexivity].
        destruct (Z.ltb_spec i (dst + j)); destruct (Z.ltb_spec i (dst + (j + 1)));
          try reflexivity; lia.
Qed.

End Buffers.

(** ** Row copy *)

Lemma row_range_bounds rows cols r :
  0 <= cols -> 0 <= r < rows -> 0 <= r * cols /\ r * cols + cols <= rows * cols.
Proof. intros. split; nia. Qed.

Lemma rows_disjoint cols r1 r2 :
  0 <= cols -> r1 <> r2 ->
  r1 * cols + cols <= r2 * cols \/ r2 * cols + cols <= r1 * cols.
Proof. intros Hc Hne. destruct (Z.lt_ge_cases r1 r2); [left|right]; nia. Qed.

Lemma cell_in_row cols r c dest :
  0 <= c < cols ->
  ((dest * cols <=? r * cols + c) && (r * cols + c <? dest * cols + cols)) = (r =? dest).
Proof.
  intros Hc. destruct (Z.eqb_spec r dest) as [->|Hne].
  - destruct (Z.leb_spec (dest * cols) (dest * cols + c)); [|lia].
    destruct (Z.ltb_spec (dest * cols + c) (dest * cols + cols)); [reflexivity|lia].
  - destruct (Z.leb_spec (dest * cols) (r * cols + c)); simpl; [|reflexivity].
    destruct (Z.ltb_spec (r * cols + c) (dest * cols + cols)); [|reflexivity].
    exfalso. apply Hne. nia.
Qed.

(** C10: on a well-formed container with valid rows [src] and [dest],
    [copy_row(src, dest)] returns; when [src <> dest] every element of row
    [dest] becomes the element of row [src] in the same column and every
    other element, [rows()] and [cols()] stay as they were; when
    [src = dest] nothing changes. *)
Theorem copy_row_frame {Ty : Type} {ET : ElemTraits Ty} (m : array2d Ty)
  (src dest : Z) (k : nat) :
  wf m -> 0 <= src < rows m -> 0 <= dest < rows m ->
  let out := copy_row src dest (mk_world m k) in
  let m' := this (snd out) in
  fst out = Ok tt /\ rows m' = rows m /\ cols m' = cols m /\
  length (data_ m') = length (data_ m) /\
  (src = dest -> m' = m) /\
  (src <> dest -> forall r c, 0 <= r < rows m -> 0 <= c < cols m ->
     elem m' r c = if r =? dest then elem m src c else elem m r c).
Proof.
  unfold rows, cols. intros Hwf Hsrc Hdest. cbv zeta.
  unfold copy_row. munfold. simpl.
  destruct (Z.eqb_spec src dest) as [->|Hne].
  { simpl. repeat split; auto. contradiction. }
  rewrite !calculate_offset_row by assumption.
  pose proof Hwf as (Hr & Hc & Hlen & Hfit).
  rewrite (to_size_index (cols_ m)) by lia.
  pose proof (row_range_bounds (rows_ m) (cols_ m) src ltac:(lia) Hsrc) as [Hs0 Hs1].
  pose proof (row_range_bounds (rows_ m) (cols_ m) dest ltac:(lia) Hdest) as [Hd0 Hd1].
  pose proof (rows_disjoint (cols_ m) src dest ltac:(lia) Hne) as Hdis.
  assert (Hcopy : exists d,
    (if is_trivially_copyable
     then memcpy_within (data_ m) (dest * cols_ m) (src * cols_ m) (cols_ m)
     else copy_n_within (data_ m) (src * cols_ m) (cols_ m) (dest * cols_ m)) = Ok d /\
    length d = length (data_ m) /\
    forall i, 0 <= i ->
      d !! Z.to_nat i =
      if (dest * cols_ m <=? i) && (i <? dest * cols_ m + cols_ m)
      then data_ m !! Z.to_nat (src * cols_ m + (i - dest * cols_ m))
      else data_ m !! Z.to_nat i).
  { destruct is_trivially_copyable.
    - rewrite memcpy_within_in by lia. apply memcpy_in; lia.
    - apply copy_n_within_in; lia. }
  destruct Hcopy as (d & -> & Hdl & Hd). simpl.
  repeat split; auto; try contradiction.
  intros _ r c Hrr Hcc. unfold elem. simpl.
  rewrite Hd by nia. rewrite cell_in_row by assumption.
  destruct (Z.eqb_spec r dest) as [->|Hrd]; [|reflexivity].
  f_equal. lia.
Qed.

Lemma copy_row_frame_witness :
  let m := mk_array2d 2 3 [1; 2; 3; 4; 5; 6] in
  wf m /\
  this (snd (copy_row (ET := int_traits) 0 1 (mk_world m 0))) =
  mk_array2d 2 3 [1; 2; 3; 1; 2; 3] /\
  elem (this (snd (copy_row (ET := int_traits) 0 1 (mk_world m 0)))) 1 2 = elem m 0 2.
Proof.
  cbv zeta.
  assert (Hwf : wf (mk_array2d 2 3 [1; 2; 3; 4; 5; 6])).
  { unfold wf, INT_MAX, SIZE_MAX. simpl. lia. }
  split; [exact Hwf|]. split; [reflexivity|].
  destruct (copy_row_frame (ET := int_traits) (mk_array2d 2 3 [1; 2; 3; 4; 5; 6]) 0 1 0 Hwf)
    as (_ & _ & _ & _ & _ & H); [unfold rows; simpl; lia|unfold rows; simpl; lia|].
  apply (H ltac:(lia) 1 2); [unfold rows; simpl; lia|unfold cols; simpl; lia].
Defined.

(** ** Filling *)

Section Filling.

Context {Ty : Type}.

Lemma std_fill_replicate (v : list Ty) val : std_fill v val = replicate (length v) val.
Proof. unfold std_fill. induction v as [|x v IH]; csimpl; [reflexivity|now rewrite IH]. Qed.

Lemma scheduled_fill_length (sched : list nat) (v : list Ty) val :
  length (foldl (fun d i => <[i := val]> d) v sched) = length v.
Proof.
  revert v. induction sched as [|i sched IH]; intros v; simpl; [reflexivity|].
  now rewrite IH, length_insert.
Qed.

Lemma scheduled_fill_written (sched : list nat) (v : list Ty) val i :
  i ∈ sched -> (i < length v)%nat ->
  foldl (fun d i => <[i := val]> d) v sched !! i = Some val.
Proof.
  induction sched as [|x sched IH] using rev_ind; intros Hin Hlt.
  - now apply elem_of_nil in Hin.
  - rewrite foldl_snoc. destruct (decide (x = i)) as [->|Hne].
    + apply list_lookup_insert_eq. now rewrite scheduled_fill_length.
    + rewrite list_lookup_insert_ne by assumption. apply IH; [|assumption].
      apply elem_of_app in Hin as [Hin|Hin]; [assumption|].
      apply list_elem_of_singleton in Hin. congruence.
Qed.

Lemma std_fill_par_replicate (schedule : nat -> list nat) (v : list Ty) val :
  (forall n, Permutation (schedule n) (seq 0 n)) ->
  std_fill_par schedule v val = replicate (length v) val.
Proof.
  intros Hperm. unfold std_fill_par. apply list_eq. intros i.
  destruct (decide (i < length v)%nat) as [Hlt|Hge].
  - rewrite scheduled_fill_written; [|rewrite (Hperm (length v)); apply elem_of_seq; lia|assumption].
    symmetry. now apply lookup_replicate_2.
  - rewrite !lookup_ge_None_2; [reflexivity| |].
    + rewrite length_replicate. lia.
    + rewrite scheduled_fill_length. lia.
Qed.

End Filling.

(** C9: when a one-byte trivially copyable value is determined by its
    byte, [fill(v)] returns and leaves the dimensions untouched and every
    element equal to [v]. Up to 10000 elements [fill_parallel(v)] is
    [fill(v)] itself, whatever the schedule; above, it is the parallel
    [std::fill], the assignments the schedule names; and when the
    schedule writes every element once, [fill_parallel(v)] returns and
    leaves the container [fill(v)] leaves. *)
Theorem fill_parallel_equiv {Ty : Type} {ET : ElemTraits Ty}
  (schedule : nat -> list nat) (m : array2d Ty) (v : Ty) (k : nat) :
  (is_trivially_copyable = true -> sizeof_Ty = 1 ->
   forall x : Ty, byte_object (to_uchar (object_byte x)) = x) ->
  let par := fill_parallel schedule v (mk_world m k) in
  let sequential := fill v (mk_world m k) in
  fst sequential = Ok tt /\
  this (snd sequential) = mk_array2d (rows m) (cols m) (replicate (length (data_ m)) v) /\
  (Z.of_nat (length (data_ m)) <= 10000 -> par = sequential) /\
  (10000 < Z.of_nat (length (data_ m)) ->
   par = (Ok tt, mk_world (mk_array2d (rows m) (cols m)
                             (std_fill_par schedule (data_ m) v)) k)) /\
  ((forall n, Permutation (schedule n) (seq 0 n)) ->
   fst par = Ok tt /\ this (snd par) = this (snd sequential)).
Proof.
  intros Hbyte. cbv zeta.
  assert (Hfill : fill v (mk_world m k) =
                  (Ok tt, mk_world (mk_array2d (rows_ m) (cols_ m)
                                      (replicate (length (data_ m)) v)) k)).
  { unfold fill. munfold. simpl.
    destruct is_trivially_copyable eqn:Etc; simpl.
    - destruct (Z.eqb_spec sizeof_Ty 1) as [E1|E1].
      + now rewrite Hbyte.
      + now rewrite std_fill_replicate.
    - now rewrite std_fill_replicate. }
  assert (Hsmall : Z.of_nat (length (data_ m)) <= 10000 ->
                   fill_parallel schedule v (mk_world m k) = fill v (mk_world m k)).
  { intros Hle. unfold fill_parallel. unfold bind at 1. unfold get_this. cbn [this].
    destruct (Z.ltb_spec 10000 (Z.of_nat (length (data_ m)))); [lia|reflexivity]. }
  assert (Hlarge : 10000 < Z.of_nat (length (data_ m)) ->
                   fill_parallel schedule v (mk_world m k) =
                   (Ok tt, mk_world (mk_array2d (rows_ m) (cols_ m)
                                       (std_fill_par schedule (data_ m) v)) k)).
  { intros Hgt. unfold fill_parallel. unfold bind at 1. unfold get_this. cbn [this].
    destruct (Z.ltb_spec 10000 (Z.of_nat (length (data_ m)))); [reflexivity|lia]. }
  split; [now rewrite Hfill|]. split; [now rewrite Hfill|].
  split; [exact Hsmall|]. split; [exact Hlarge|].
  intros Hperm.
  destruct (Z.le_gt_cases (Z.of_nat (length (data_ m))) 10000) as [Hle|Hgt].
  - rewrite (Hsmall Hle), Hfill. split; reflexivity.
  - rewrite (Hlarge ltac:(lia)), Hfill. cbn [fst snd this].
    rewrite std_fill_par_replicate by assumption. split; reflexivity.
Qed.

Lemma fill_parallel_equiv_witness :
  let writes_nothing := fun _ : nat => @nil nat in
  let backwards := fun n : nat => rev (seq 0 n) in
  let small := mk_array2d 1 2 [Byte.x00; Byte.x00] in
  let large := mk_array2d 101 100 (replicate (Z.to_nat 10100) Byte.x00) in
  fill_parallel (ET := uchar_traits) writes_nothing Byte.xff (mk_world small 0) =
  fill (ET := uchar_traits) Byte.xff (mk_world small 0) /\
  this (snd (fill (ET := uchar_traits) Byte.xff (mk_world small 0))) =
  mk_array2d 1 2 [Byte.xff; Byte.xff] /\
  fill_parallel (ET := uchar_traits) backwards Byte.xff (mk_world large 0) =
  (Ok tt, mk_world (mk_array2d 101 100
                      (std_fill_par backwards (replicate (Z.to_nat 10100) Byte.x00) Byte.xff))
            0) /\
  this (snd (fill_parallel (ET := uchar_traits) backwards Byte.xff (mk_world large 0))) =
  mk_array2d 101 100 (replicate (Z.to_nat 10100) Byte.xff).
Proof.
  cbv zeta.
  assert (Hbyte : is_trivially_copyable (ElemTraits := uchar_traits) = true ->
                  sizeof_Ty (ElemTraits := uchar_traits) = 1 ->
                  forall x : Byte.byte,
                    byte_object (ElemTraits := uchar_traits)
                      (to_uchar (object_byte (ElemTraits := uchar_traits) x)) = x).
  { intros _ _ x. destruct x; reflexivity. }
  assert (Hlen : 10000 < Z.of_nat (length (replicate (Z.to_nat 10100) Byte.x00))).
  { rewrite length_replicate. lia. }
  destruct (fill_parallel_equiv (ET := uchar_traits) (fun _ : nat => @nil nat)
              (mk_array2d 1 2 [Byte.x00; Byte.x00]) Byte.xff 0 Hbyte)
    as (_ & Hs & Hsmall & _ & _).
  destruct (fill_parallel_equiv (ET := uchar_traits) (fun n : nat => rev (seq 0 n))
              (mk_array2d 101 100 (replicate (Z.to_nat 10100) Byte.x00)) Byte.xff 0 Hbyte)
    as (_ & Hl & _ & Hlarge & Hperm).
  split; [apply Hsmall; simpl; lia|]. split; [exact Hs|]. split.
  - exact (Hlarge Hlen).
  - destruct Hperm as [_ E]; [intros n; apply Permutation_sym, Permutation_rev|].
    rewrite E, Hl. unfold rows, cols. cbn [rows_ cols_ data_]. now rewrite length_replicate.
Defined.

(** ** Frames *)

Section Frames.

Context {Ty : Type}.
Variable throws : nat -> option exn.

Lemma frame_ret {A : Type} (a : A) : frame (Ty := Ty) (ret a).
Proof. intros w r w'. munfold. now intros [= <- <-]. Qed.

Lemma frame_lift {A : Type} (o : outcome A) : frame (Ty := Ty) (lift o).
Proof. intros w r w'. munfold. now intros [= <- <-]. Qed.

Lemma frame_get_this : frame (Ty := Ty) get_this.
Proof. intros w r w'. munfold. now intros [= <- <-]. Qed.

Lemma frame_may_throw : frame (Ty := Ty) (may_throw throws).
Proof. intros w r w'. munfold. now intros [= <- <-]. Qed.

Lemma frame_bind {A B : Type} (c : M Ty A) (k : A -> M Ty B) :
  frame c -> (forall a, frame (k a)) -> frame (bind c k).
Proof.
  intros Hc Hk w r w'. unfold bind.
  destruct (c w) as [[a|e| |] w1] eqn:E; apply Hc in E.
  - intros E2. apply Hk in E2. congruence.
  - now intros [= <- <-].
  - now intros [= <- <-].
  - now intros [= <- <-].
Qed.

Lemma frame_for_loopM {S : Type} n k (body : Z -> S -> M Ty S) s :
  (forall j s0, frame (body j s0)) -> frame (for_loopM n k body s).
Proof.
  intros Hb. revert k s. induction n as [|n IH]; intros k s; simpl.
  - apply frame_ret.
  - apply frame_bind; [apply Hb|]. intros s1. apply IH.
Qed.

Lemma post_frame {A : Type} (Q : A -> Prop) (c : M Ty A) : post throws Q c -> frame c.
Proof. intros H w r w' E. now apply H in E. Qed.

Lemma frame_vector_assign n (x : Ty) : frame (vector_assign throws n x).
Proof. intros w r w' E. now apply vector_assign_run in E. Qed.

Lemma frame_vector_resize (v : list Ty) n x : frame (vector_resize throws v n x).
Proof. intros w r w' E. now apply vector_resize_run in E. Qed.

Lemma frame_copy_n (src_v : list Ty) src n dst_v dst :
  frame (copy_n throws src_v src n dst_v dst).
Proof.
  unfold copy_n, for_rangeM. apply frame_for_loopM. intros j s0.
  apply frame_bind; [apply frame_may_throw|]. intros _. apply frame_lift.
Qed.

Lemma guarded_ret : guarded (Ty := Ty) (ret tt).
Proof. intros w r w'. munfold. intros [= <- <-]. now left. Qed.

Lemma guarded_throw e : guarded (Ty := Ty) (throw e).
Proof. intros w r w'. munfold. intros [= <- <-]. now right. Qed.

Lemma guarded_commit (d : list Ty) r0 c0 :
  guarded (bind (set_data d) (fun _ => bind (set_rows r0) (fun _ => set_cols c0))).
Proof. intros w r w'. munfold. simpl. intros [= <- <-]. now left. Qed.

Lemma guarded_bind {A : Type} (c : M Ty A) (k : A -> M Ty unit) :
  frame c -> (forall a, guarded (k a)) -> guarded (bind c k).
Proof.
  intros Hc Hk w r w'. unfold bind.
  destruct (c w) as [[a|e| |] w1] eqn:E; apply Hc in E.
  - intros E2. apply Hk in E2. destruct E2 as [->|E2]; [now left|right; congruence].
  - intros [= <- <-]. now right.
  - intros [= <- <-]. now right.
  - intros [= <- <-]. now right.
Qed.

End Frames.

(** ** Resizing: exception safety *)

Lemma resize_impl_guarded {Ty : Type} {ET : ElemTraits Ty} (throws : nat -> option exn)
  (new_rows new_cols : Z) (fill_value : option Ty) :
  guarded (resize_impl throws new_rows new_cols fill_value).
Proof.
  unfold resize_impl.
  apply guarded_bind; [apply frame_lift|]. intros nr.
  apply guarded_bind; [apply frame_lift|]. intros nc.
  apply guarded_bind; [apply frame_get_this|]. intros m.
  destruct (_ && _); [apply guarded_ret|].
  apply guarded_bind; [apply frame_lift|]. intros new_size.
  destruct (new_size =? 0); [apply guarded_commit|].
  apply guarded_bind.
  { destruct fill_value; [apply frame_vector_assign|apply frame_vector_resize]. }
  intros nd. apply guarded_bind; [|intros nd'; apply guarded_commit].
  destruct (_ && _); [|apply frame_ret].
  unfold for_rangeM. apply frame_for_loopM. intros j s0.
  destruct is_trivially_copyable; [apply frame_lift|apply frame_copy_n].
Qed.

(** C4: a call of [resize] (with or without a fill value) that does not
    return normally, whatever made it throw (a negative dimension, an
    overflowing size, the allocator, the construction or the copy of an
    element), leaves [rows_], [cols_] and the buffer as they were; the
    negative dimension and the overflowing size do throw. *)
Theorem resize_strong_exception_safety {Ty : Type} {ET : ElemTraits Ty}
  (throws : nat -> option exn) (m : array2d Ty) (new_rows new_cols : Z)
  (val : Ty) (k : nat) :
  let out := resize throws new_rows new_cols (mk_world m k) in
  let out_val := resize_val throws new_rows new_cols val (mk_world m k) in
  (fst out = Ok tt \/ this (snd out) = m) /\
  (fst out_val = Ok tt \/ this (snd out_val) = m) /\
  (new_rows < 0 \/ new_cols < 0 ->
   exists msg, fst out = Throw (invalid_argument msg) /\ this (snd out) = m) /\
  (0 < new_rows <= INT_MAX -> 0 < new_cols <= INT_MAX -> SIZE_MAX < new_rows * new_cols ->
   (new_rows, new_cols) <> (rows m, cols m) ->
   fst out = Throw (overflow_error "Matrix size calculation overflow") /\
   this (snd out) = m) /\
  (forall e, throws k = Some e ->
   fst out_val = Throw e /\ this (snd out_val) = m).
Proof.
  cbv zeta. split; [|split; [|split; [|split]]].
  - destruct (resize throws new_rows new_cols (mk_world m k)) as [r w'] eqn:E.
    apply resize_impl_guarded in E. exact E.
  - destruct (resize_val throws new_rows new_cols val (mk_world m k)) as [r w'] eqn:E.
    assert (G : guarded (resize_val throws new_rows new_cols val)).
    { unfold resize_val. apply guarded_bind; [apply frame_may_throw|].
      intros _. apply resize_impl_guarded. }
    apply G in E. exact E.
  - intros Hneg. unfold resize, resize_impl. munfold.
    destruct (Z.ltb_spec new_rows 0) as [Hr|Hr].
    + rewrite validate_dimension_neg by assumption. simpl. eauto.
    + rewrite (validate_dimension_ok new_rows) by assumption.
      rewrite validate_dimension_neg by lia. simpl. eauto.
  - intros Hr Hc Hbig Hne. unfold resize, resize_impl. munfold.
    rewrite !validate_dimension_ok by lia. simpl.
    destruct (Z.eqb_spec new_rows (rows_ m)) as [E1|E1];
      destruct (Z.eqb_spec new_cols (cols_ m)) as [E2|E2]; simpl;
      try (rewrite calculate_size_overflow by lia; simpl; auto).
    exfalso. apply Hne. unfold rows, cols. congruence.
  - intros e He. unfold resize_val. munfold. simpl. rewrite He. simpl. auto.
Qed.

Lemma resize_strong_exception_safety_witness :
  let m := mk_array2d 2 2 [1; 2; 3; 4] in
  let out := resize (ET := int_traits) throws_after_five 5 5 (mk_world m 0) in
  fst out = Throw (element_error "Construction failed") /\ this (snd out) = m.
Proof.
  cbv zeta.
  assert (Hthrow : fst (resize (ET := int_traits) throws_after_five 5 5
                          (mk_world (mk_array2d 2 2 [1; 2; 3; 4]) 0)) =
                   Throw (element_error "Construction failed")) by (vm_compute; reflexivity).
  split; [exact Hthrow|].
  destruct (resize_strong_exception_safety (ET := int_traits) throws_after_five
              (mk_array2d 2 2 [1; 2; 3; 4]) 5 5 0 0%nat) as ([H|H] & _).
  - rewrite Hthrow in H. discriminate H.
  - exact H.
Defined.

(** ** Postconditions *)

Section Posts.

Context {Ty : Type}.
Variable throws : nat -> option exn.

Lemma post_ret {A : Type} (Q : A -> Prop) (a : A) : Q a -> post (Ty := Ty) throws Q (ret a).
Proof. intros HQ w r w'. munfold. intros [= <- <-]. auto. Qed.

Lemma post_lift {A : Type} (Q : A -> Prop) (o : outcome A) (a : A) :
  o = Ok a -> Q a -> post (Ty := Ty) throws Q (lift o).
Proof. intros -> HQ w r w'. munfold. intros [= <- <-]. auto. Qed.

Lemma post_may_throw : post (Ty := Ty) throws (fun _ => True) (may_throw throws).
Proof.
  intros w r w'. munfold. destruct (throws (clock w)) eqn:E; intros [= <- <-]; eauto.
Qed.

Lemma post_bind {A B : Type} (Q1 : A -> Prop) (Q2 : B -> Prop) (c : M Ty A) (k : A -> M Ty B) :
  post throws Q1 c -> (forall a, Q1 a -> post throws Q2 (k a)) -> post throws Q2 (bind c k).
Proof.
  intros Hc Hk w r w'. unfold bind.
  destruct (c w) as [[a|e| |] w1] eqn:E; apply Hc in E; destruct E as [Ht HQ].
  - intros E2. apply (Hk a HQ) in E2. destruct E2 as [Ht2 HQ2]. split; [congruence|assumption].
  - intros [= <- <-]. auto.
  - contradiction.
  - contradiction.
Qed.

Lemma post_weaken {A : Type} (Q1 Q2 : A -> Prop) (c : M Ty A) :
  post throws Q1 c -> (forall a, Q1 a -> Q2 a) -> post throws Q2 c.
Proof.
  intros Hc Hw w r w' E. apply Hc in E. destruct E as [Ht HQ].
  split; [assumption|]. destruct r; auto.
Qed.

Lemma post_quiet {A : Type} (Q : A -> Prop) (c : M Ty A) w :
  quiet throws -> post throws Q c ->
  exists a w', c w = (Ok a, w') /\ this w' = this w /\ Q a.
Proof.
  intros Hq Hc. destruct (c w) as [r w'] eqn:E. apply Hc in E. destruct E as [Ht HQ].
  destruct r as [a|e| |]; try contradiction.
  - eauto.
  - destruct HQ as [j Hj]. rewrite Hq in Hj. discriminate.
Qed.

Lemma post_for_loopM {S : Type} (Inv : Z -> S -> Prop) n k (body : Z -> S -> M Ty S) s :
  Inv k s ->
  (forall j s0, k <= j < k + Z.of_nat n -> Inv j s0 ->
     post throws (Inv (j + 1)) (body j s0)) ->
  post throws (Inv (k + Z.of_nat n)) (for_loopM n k body s).
Proof.
  revert k s. induction n as [|n IH]; intros k s Hk Hstep; simpl for_loopM.
  - apply post_ret. now replace (k + Z.of_nat 0) with k by lia.
  - apply (post_bind (Inv (k + 1))); [apply Hstep; [lia|assumption]|].
    intros s1 Hs1.
    replace (k + Z.of_nat (Datatypes.S n)) with (k + 1 + Z.of_nat n) by lia.
    apply IH; [assumption|]. intros j s0 Hj. apply Hstep. lia.
Qed.

Lemma post_for_rangeM {S : Type} (Inv : Z -> S -> Prop) lo hi (body : Z -> S -> M Ty S) s :
  lo <= hi -> Inv lo s ->
  (forall j s0, lo <= j < hi -> Inv j s0 -> post throws (Inv (j + 1)) (body j s0)) ->
  post throws (Inv hi) (for_rangeM lo hi body s).
Proof.
  intros Hle Hlo Hstep. unfold for_rangeM.
  assert (E : lo + Z.of_nat (Z.to_nat (hi - lo)) = hi) by lia.
  rewrite <- E at 1. apply post_for_loopM; [assumption|].
  intros j s0 Hj. apply Hstep. lia.
Qed.

Lemma post_vector_assign n (x : Ty) :
  post throws (fun l => l = replicate (Z.to_nat n) x) (vector_assign throws n x).
Proof. intros w r w' E. now apply vector_assign_run in E. Qed.

Lemma post_vector_resize_fresh n (x : Ty) :
  0 < n ->
  post throws (fun l => l = replicate (Z.to_nat n) x) (vector_resize throws [] n x).
Proof.
  intros Hn w r w' E. apply vector_resize_run in E.
  rewrite resize_fresh_result in E by assumption. exact E.
Qed.

Lemma post_copy_n (src_v : list Ty) src n dst_v dst :
  0 <= n -> 0 <= src -> src + n <= Z.of_nat (length src_v) ->
  0 <= dst -> dst + n <= Z.of_nat (length dst_v) ->
  post throws
    (fun d => length d = length dst_v /\
       forall i, 0 <= i ->
         d !! Z.to_nat i =
         if (dst <=? i) && (i <? dst + n) then src_v !! Z.to_nat (src + (i - dst))
         else dst_v !! Z.to_nat i)
    (copy_n throws src_v src n dst_v dst).
Proof.
  intros Hn Hs Hsn Hd Hdn. unfold copy_n.
  apply (post_for_rangeM
           (fun k d => length d = length dst_v /\
              forall i, 0 <= i ->
                d !! Z.to_nat i =
                if (dst <=? i) && (i <? dst + k) then src_v !! Z.to_nat (src + (i - dst))
                else dst_v !! Z.to_nat i)); [lia| |].
  - split; [reflexivity|]. intros i Hi.
    destruct (Z.leb_spec dst i); destruct (Z.ltb_spec i (dst + 0)); simpl;
      try reflexivity; lia.
  - intros j d [Hj1 Hj2] [Hlen Hinv].
    apply (post_bind (fun _ => True)); [apply post_may_throw|]. intros _ _.
    destruct (load_in src_v (src + j)) as (x & Hx & Hl); [lia|].
    eapply post_lift.
    { rewrite Hl. simpl. apply store_in. lia. }
    split.
    + rewrite length_insert. assumption.
    + intros i Hi. rewrite lookup_stored by lia.
      destruct (Z.eqb_spec i (dst + j)) as [->|Hne].
      * destruct (Z.leb_spec dst (dst + j)); [|lia].
        destruct (Z.ltb_spec (dst + j) (dst + (j + 1))); [|lia]. simpl.
        rewrite <- Hx. f_equal. lia.
      * rewrite Hinv by lia.
        destruct (Z.leb_spec dst i); simpl; [|reflexivity].
        destruct (Z.ltb_spec i (dst + j)); destruct (Z.ltb_spec i (dst + (j + 1)));
          try reflexivity; lia.
Qed.

End Posts.

(** ** Resizing: what the new container holds *)

Section Resizing.

Context {Ty : Type} {ET : ElemTraits Ty}.
Variable throws : nat -> option exn.

Lemma commits_bind {A : Type} (Q : A -> Prop) (R : array2d Ty -> Prop)
  (c : M Ty A) (k : A -> M Ty unit) :
  post throws Q c -> (forall a, Q a -> commits throws R (k a)) ->
  commits throws R (bind c k).
Proof.
  intros Hc Hk w r w'. unfold bind.
  destruct (c w) as [[a|e| |] w1] eqn:E; apply Hc in E; destruct E as [Ht HQ].
  - intros E2. apply (Hk a HQ) in E2.
    destruct E2 as [E2|(e & j & Hj & He & Ht2)]; [now left|].
    right. exists e, j. repeat split; congruence.
  - intros [= <- <-]. right. destruct HQ as [j Hj]. exists e, j. auto.
  - contradiction.
  - contradiction.
Qed.

Lemma commits_commit (R : array2d Ty -> Prop) (d : list Ty) r0 c0 :
  R (mk_array2d r0 c0 d) ->
  commits throws R (bind (set_data d) (fun _ => bind (set_rows r0) (fun _ => set_cols c0))).
Proof. intros HR w r w'. munfold. simpl. intros [= <- <-]. left. auto. Qed.

Lemma cell_in_copied_row nc cc a b i :
  0 <= b < nc -> 0 <= cc <= nc ->
  ((i * nc <=? a * nc + b) && (a * nc + b <? i * nc + cc)) = ((a =? i) && (b <? cc)).
Proof.
  intros Hb Hcc. destruct (Z.eqb_spec a i) as [->|Hne]; simpl.
  - destruct (Z.leb_spec (i * nc) (i * nc + b)); [|lia]. simpl.
    destruct (Z.ltb_spec (i * nc + b) (i * nc + cc)); destruct (Z.ltb_spec b cc);
      try reflexivity; lia.
  - destruct (Z.leb_spec (i * nc) (a * nc + b)); simpl; [|reflexivity].
    destruct (Z.ltb_spec (a * nc + b) (i * nc + cc)); [|reflexivity].
    exfalso. apply Hne. nia.
Qed.

Lemma resize_copy_rows_post (m : array2d Ty) nr nc fill nd0 :
  wf m -> 0 < rows_ m -> 0 < cols_ m ->
  0 < nr <= INT_MAX -> 0 < nc <= INT_MAX -> nr * nc <= SIZE_MAX ->
  nd0 = replicate (Z.to_nat (nr * nc)) fill ->
  post throws (resized_buffer m nr nc (rows_ m) fill)
    (for_rangeM 0 (Z.min (rows_ m) nr)
       (fun i nd =>
          let old_offset := to_size (to_size i * to_size (cols_ m)) in
          let new_offset := to_size (to_size i * to_size nc) in
          if is_trivially_copyable then
            lift (memcpy nd new_offset (data_ m) old_offset (to_size (Z.min (cols_ m) nc)))
          else copy_n throws (data_ m) old_offset (Z.min (cols_ m) nc) nd new_offset)
       nd0).
Proof.
  intros Hwf Hrp Hcp Hnr Hnc Hfit ->.
  pose proof Hwf as (Hr & Hc & Hlen & Hsz).
  set (cc := Z.min (cols_ m) nc).
  assert (Hcc : 0 <= cc <= nc /\ cc <= cols_ m) by lia.
  apply (post_weaken throws (resized_buffer m nr nc (Z.min (rows_ m) nr) fill)).
  - apply (post_for_rangeM throws (fun i nd => resized_buffer m nr nc i fill nd)); [lia| |].
    + split; [rewrite length_replicate; lia|].
      intros a b Ha Hb. destruct (Z.ltb_spec a 0); [lia|]. simpl.
      apply lookup_replicate_2. nia.
    + intros i nd Hi [Hl Hcells]. cbv zeta.
      rewrite (to_size_index i), (to_size_index (cols_ m)), (to_size_index nc) by lia.
      rewrite (to_size_small (i * cols_ m)), (to_size_small (i * nc)) by nia.
      assert (Hstep : forall d,
        (length d = length nd /\
         forall p, 0 <= p ->
           d !! Z.to_nat p =
           if (i * nc <=? p) && (p <? i * nc + cc)
           then data_ m !! Z.to_nat (i * cols_ m + (p - i * nc))
           else nd !! Z.to_nat p) ->
        resized_buffer m nr nc (i + 1) fill d).
      { intros d [Hdl Hd]. split; [lia|].
        intros a b Ha Hb. rewrite Hd by nia.
        rewrite cell_in_copied_row by lia.
        destruct (Z.eqb_spec a i) as [->|Hai]; simpl.
        - destruct (Z.ltb_spec i (i + 1)); [|lia]. simpl.
          destruct (Z.ltb_spec b cc); destruct (Z.ltb_spec b (cols_ m)); try lia.
          + f_equal. lia.
          + rewrite Hcells by lia.
            destruct (Z.ltb_spec i i); [lia|reflexivity].
        - rewrite Hcells by lia.
          destruct (Z.ltb_spec a i); destruct (Z.ltb_spec a (i + 1)); try reflexivity; lia. }
      destruct is_trivially_copyable.
      * rewrite (to_size_index cc) by lia.
        destruct (memcpy_in nd (i * nc) (data_ m) (i * cols_ m) cc) as (d & Hm & Hd);
          try nia.
        eapply post_lift; [exact Hm|]. apply Hstep. exact Hd.
      * eapply post_weaken; [apply post_copy_n; nia|]. exact Hstep.
  - intros nd [Hl Hcells]. split; [assumption|].
    intros a b Ha Hb. rewrite Hcells by assumption.
    destruct (Z.ltb_spec a (Z.min (rows_ m) nr)); destruct (Z.ltb_spec a (rows_ m));
      try reflexivity; lia.
Qed.

Lemma bind_lift_ok {A B : Type} (a : A) (k : A -> M Ty B) w :
  bind (lift (Ok a)) k w = k a w.
Proof. reflexivity. Qed.

Lemma bind_get_this {B : Type} (k : array2d Ty -> M Ty B) w :
  bind get_this k w = k (this w) w.
Proof. reflexivity. Qed.

Lemma resize_impl_same nr nc fv w :
  0 <= nr -> 0 <= nc -> nr = rows_ (this w) -> nc = cols_ (this w) ->
  resize_impl throws nr nc fv w = (Ok tt, w).
Proof.
  intros Hr Hc E1 E2. unfold resize_impl.
  rewrite !validate_dimension_ok by assumption.
  rewrite !bind_lift_ok, bind_get_this.
  rewrite <- E1, <- E2, !Z.eqb_refl. reflexivity.
Qed.

Lemma resize_impl_zero nr nc fv w :
  0 <= nr <= INT_MAX -> 0 <= nc <= INT_MAX ->
  (nr, nc) <> (rows_ (this w), cols_ (this w)) -> nr * nc = 0 ->
  resize_impl throws nr nc fv w = (Ok tt, mk_world (mk_array2d nr nc []) (clock w)).
Proof.
  intros Hr Hc Hne Hz. unfold resize_impl.
  rewrite !validate_dimension_ok by lia.
  rewrite !bind_lift_ok, bind_get_this.
  destruct (Z.eqb_spec nr (rows_ (this w))) as [E1|E1];
    destruct (Z.eqb_spec nc (cols_ (this w))) as [E2|E2]; simpl;
    try (exfalso; apply Hne; congruence);
    rewrite calculate_size_fits by (unfold SIZE_MAX; lia);
    rewrite bind_lift_ok, Hz; reflexivity.
Qed.

Lemma resize_impl_overflow nr nc fv w :
  0 < nr <= INT_MAX -> 0 < nc <= INT_MAX ->
  (nr, nc) <> (rows_ (this w), cols_ (this w)) -> SIZE_MAX < nr * nc ->
  resize_impl throws nr nc fv w =
  (Throw (overflow_error "Matrix size calculation overflow"), w).
Proof.
  intros Hr Hc Hne Hbig. unfold resize_impl.
  rewrite !validate_dimension_ok by lia.
  rewrite !bind_lift_ok, bind_get_this.
  destruct (Z.eqb_spec nr (rows_ (this w))) as [E1|E1];
    destruct (Z.eqb_spec nc (cols_ (this w))) as [E2|E2]; simpl;
    try (exfalso; apply Hne; congruence);
    rewrite calculate_size_overflow by lia; reflexivity.
Qed.

Lemma resize_impl_build nr nc fv w r w' :
  wf (this w) -> 0 < nr <= INT_MAX -> 0 < nc <= INT_MAX -> nr * nc <= SIZE_MAX ->
  (nr, nc) <> (rows_ (this w), cols_ (this w)) ->
  resize_impl throws nr nc fv w = (r, w') ->
  (r = Ok tt /\
   rows_ (this w') = nr /\ cols_ (this w') = nc /\
   resized_buffer (this w) nr nc (rows_ (this w))
     (match fv with Some val => val | None => Ty_default end) (data_ (this w'))) \/
  (exists e j, throws j = Some e /\ r = Throw e /\ this w' = this w).
Proof.
  intros Hwf Hr Hc Hfit Hne. unfold resize_impl.
  rewrite !validate_dimension_ok by lia.
  rewrite !bind_lift_ok, bind_get_this.
  set (m := this w) in *. set (fill := match fv with Some val => val | None => Ty_default end).
  assert (Hdiff : (nr =? rows_ m) && (nc =? cols_ m) = false).
  { destruct (Z.eqb_spec nr (rows_ m)) as [E1|E1];
      destruct (Z.eqb_spec nc (cols_ m)) as [E2|E2]; try reflexivity.
    exfalso. apply Hne. congruence. }
  rewrite Hdiff. rewrite calculate_size_fits by lia. rewrite bind_lift_ok.
  destruct (Z.eqb_spec (nr * nc) 0) as [Hz|Hz]; [nia|].
  match goal with |- ?c w = _ -> _ =>
    assert (Hcom : commits throws
                     (fun m' => rows_ m' = nr /\ cols_ m' = nc /\
                                resized_buffer m nr nc (rows_ m) fill (data_ m')) c) end.
  { apply (commits_bind (fun nd => nd = replicate (Z.to_nat (nr * nc)) fill)).
    - destruct fv as [val|]; [apply post_vector_assign|apply post_vector_resize_fresh; nia].
    - intros nd0 Hnd0.
      apply (commits_bind (resized_buffer m nr nc (rows_ m) fill)).
      + destruct (Z.ltb_spec 0 (rows_ m)) as [Hrp|Hrp];
          [destruct (Z.ltb_spec 0 (cols_ m)) as [Hcp|Hcp]|]; simpl.
        * now apply resize_copy_rows_post.
        * apply post_ret. subst nd0. split; [rewrite length_replicate; nia|].
          intros a b Ha Hb. destruct (Z.ltb_spec b (cols_ m)); [lia|].
          rewrite andb_false_r. apply lookup_replicate_2. nia.
        * apply post_ret. subst nd0. split; [rewrite length_replicate; nia|].
          intros a b Ha Hb. destruct (Z.ltb_spec a (rows_ m)); [lia|].
          simpl. apply lookup_replicate_2. nia.
      + intros nd Hnd. apply commits_commit. simpl. auto. }
  intros E. apply Hcom in E. exact E.
Qed.

End Resizing.

Lemma wf_empty_buffer {Ty : Type} (m : array2d Ty) :
  wf m -> rows_ m * cols_ m = 0 -> m = mk_array2d (rows_ m) (cols_ m) [].
Proof.
  intros (_ & _ & Hlen & _) Hz. destruct m as [r c d]. simpl in *.
  destruct d; [reflexivity|]. simpl in Hlen. lia.
Qed.

Lemma wf_size {Ty : Type} (m : array2d Ty) : wf m -> size m = rows m * cols m.
Proof.
  intros (Hr & Hc & Hlen & Hfit). unfold size, rows, cols. rewrite Hlen.
  apply to_size_small. nia.
Qed.

Lemma resize_impl_spec {Ty : Type} {ET : ElemTraits Ty} (throws : nat -> option exn)
  (nr nc : Z) (fv : option Ty) (w : world Ty) :
  wf (this w) -> 0 <= nr <= INT_MAX -> 0 <= nc <= INT_MAX ->
  let m := this w in
  let out := resize_impl throws nr nc fv w in
  let m' := this (snd out) in
  let fill := match fv with Some val => val | None => Ty_default end in
  (quiet throws -> nr * nc <= SIZE_MAX -> fst out = Ok tt) /\
  (nr = rows m -> nc = cols m -> m' = m) /\
  (fst out = Ok tt -> nr * nc = 0 -> m' = mk_array2d nr nc []) /\
  (fst out = Ok tt ->
   rows m' = nr /\ cols m' = nc /\ size m' = nr * nc /\ wf m' /\
   forall i j, 0 <= i < nr -> 0 <= j < nc ->
     elem m' i j = if (i <? rows m) && (j <? cols m) then elem m i j else Some fill).
Proof.
  intros Hwf Hr Hc. cbv zeta. unfold rows, cols.
  destruct (decide ((nr, nc) = (rows_ (this w), cols_ (this w)))) as [Heq|Hne].
  { injection Heq as E1 E2.
    rewrite resize_impl_same by lia. simpl.
    split; [auto|]. split; [auto|]. split.
    - intros _ Hz. subst nr nc. now apply wf_empty_buffer.
    - intros _. split; [auto|]. split; [auto|]. split; [|split; [assumption|]].
      + subst nr nc. now apply wf_size.
      + intros i j Hi Hj. subst nr nc.
        destruct (Z.ltb_spec i (rows_ (this w))); [|lia].
        destruct (Z.ltb_spec j (cols_ (this w))); [|lia]. reflexivity. }
  destruct (Z.eq_dec (nr * nc) 0) as [Hz|Hz].
  { rewrite resize_impl_zero by assumption. simpl.
    split; [auto|]. split; [intros; exfalso; apply Hne; congruence|].
    split; [auto|]. intros _. split; [auto|]. split; [auto|]. split; [|split].
    - unfold size. simpl. rewrite Hz. reflexivity.
    - unfold wf, SIZE_MAX. simpl. lia.
    - intros i j Hi Hj. exfalso.
      assert (0 < nr * nc) by (apply Z.mul_pos_pos; lia). lia. }
  destruct (Z.le_gt_cases (nr * nc) SIZE_MAX) as [Hfit|Hbig].
  2:{ rewrite resize_impl_overflow by (try assumption; nia). simpl.
      split; [intros; lia|]. split; [intros; exfalso; apply Hne; congruence|].
      split; intros; discriminate. }
  destruct (resize_impl throws nr nc fv w) as [r w'] eqn:E.
  apply resize_impl_build in E; try assumption; try nia.
  simpl. destruct E as [(-> & Hrows & Hcols & Hlen & Hcells)|(e & j & Hj & -> & Ht)].
  - split; [auto|]. split; [intros; exfalso; apply Hne; congruence|].
    split; [intros; lia|]. intros _.
    split; [assumption|]. split; [assumption|]. split; [|split].
    + unfold size. rewrite Hlen. apply to_size_small. nia.
    + unfold wf. rewrite Hrows, Hcols, Hlen. lia.
    + intros i j0 Hi Hj0. unfold elem. rewrite Hcols. now apply Hcells.
  - split; [intros Hq; rewrite Hq in Hj; discriminate|].
    split; [intros; exfalso; apply Hne; congruence|].
    split; intros; discriminate.
Qed.

(** C3: on a well-formed container, [resize(r2, c2)] and
    [resize(r2, c2, val)] with non-negative dimensions return whenever the
    size fits [size_type] and nothing fails in the environment; a call with
    the current dimensions changes nothing; a call with [r2 * c2 = 0] that
    returns leaves an empty buffer and the dimensions [(r2, c2)]; every call
    that returns leaves a [r2] by [c2] container whose element [(i, j)] is
    the old element [(i, j)] for [i < rows()] and [j < cols()], and the
    fill value (or [Ty{}] without one) elsewhere. *)
Theorem resize_semantics {Ty : Type} {ET : ElemTraits Ty} (throws : nat -> option exn)
  (m : array2d Ty) (r2 c2 : Z) (fv : option Ty) (k : nat) :
  wf m -> 0 <= r2 <= INT_MAX -> 0 <= c2 <= INT_MAX ->
  let out := match fv with
             | Some val => resize_val throws r2 c2 val (mk_world m k)
             | None => resize throws r2 c2 (mk_world m k)
             end in
  let m' := this (snd out) in
  let fill := match fv with Some val => val | None => Ty_default end in
  (quiet throws -> r2 * c2 <= SIZE_MAX -> fst out = Ok tt) /\
  (r2 = rows m -> c2 = cols m -> m' = m) /\
  (fst out = Ok tt -> r2 * c2 = 0 -> m' = mk_array2d r2 c2 []) /\
  (fst out = Ok tt ->
   rows m' = r2 /\ cols m' = c2 /\ size m' = r2 * c2 /\ wf m' /\
   forall i j, 0 <= i < r2 -> 0 <= j < c2 ->
     elem m' i j = if (i <? rows m) && (j <? cols m) then elem m i j else Some fill).
Proof.
  intros Hwf Hr Hc. destruct fv as [val|].
  - assert (E : resize_val throws r2 c2 val (mk_world m k) =
                 match throws k with
                 | Some e => (Throw e, mk_world m (S k))
                 | None => resize_impl throws r2 c2 (Some val) (mk_world m (S k))
                 end).
    { unfold resize_val, bind, may_throw. simpl. destruct (throws k); reflexivity. }
    cbv zeta. rewrite E. clear E.
    destruct (throws k) as [e|] eqn:Ek.
    + simpl. split; [intros Hq; rewrite Hq in Ek; discriminate|].
      split; [auto|]. split; intros; discriminate.
    + apply (resize_impl_spec throws r2 c2 (Some val) (mk_world m (S k))); assumption.
  - apply (resize_impl_spec throws r2 c2 None (mk_world m k)); assumption.
Qed.

Lemma resize_semantics_witness :
  let m := mk_array2d 2 2 [1; 2; 3; 4] in
  let out := resize_val (ET := int_traits) never_throws 4 4 999 (mk_world m 0) in
  wf m /\ fst out = Ok tt /\
  elem (this (snd out)) 1 1 = Some 4 /\ elem (this (snd out)) 1 2 = Some 999.
Proof.
  cbv zeta.
  assert (Hwf : wf (mk_array2d 2 2 [1; 2; 3; 4])).
  { unfold wf, INT_MAX, SIZE_MAX. simpl. lia. }
  split; [exact Hwf|].
  destruct (resize_semantics (ET := int_traits) never_throws (mk_array2d 2 2 [1; 2; 3; 4])
              4 4 (Some 999) 0 Hwf) as (Hok & _ & _ & Hcells);
    [unfold INT_MAX; lia|unfold INT_MAX; lia|].
  assert (Hret : fst (resize_val (ET := int_traits) never_throws 4 4 999
                        (mk_world (mk_array2d 2 2 [1; 2; 3; 4]) 0)) = Ok tt).
  { apply Hok; [intros j; reflexivity|unfold SIZE_MAX; lia]. }
  split; [exact Hret|].
  destruct (Hcells Hret) as (_ & _ & _ & _ & He).
  split; [apply (He 1 1); lia|apply (He 1 2); lia].
Defined.

(** ** The shape invariant *)

Lemma for_loop_preserves {S : Type} (P : S -> Prop) n k (body : Z -> S -> outcome S) s s' :
  (forall j s0 s1, P s0 -> body j s0 = Ok s1 -> P s1) ->
  P s -> for_loop n k body s = Ok s' -> P s'.
Proof.
  intros Hb. revert k s. induction n as [|n IH]; intros k s Hs; simpl.
  - now intros [= <-].
  - destruct (body k s) as [s1| | |] eqn:E; simpl; try discriminate.
    apply IH. eapply Hb; eassumption.
Qed.

Lemma for_range_preserves {S : Type} (P : S -> Prop) lo hi (body : Z -> S -> outcome S) s s' :
  (forall j s0 s1, P s0 -> body j s0 = Ok s1 -> P s1) ->
  P s -> for_range lo hi body s = Ok s' -> P s'.
Proof. unfold for_range. apply for_loop_preserves. Qed.

Lemma for_blocks_preserves {S : Type} (P : S -> Prop) fuel k hi bs
  (body : Z -> S -> outcome S) s s' :
  (forall j s0 s1, P s0 -> body j s0 = Ok s1 -> P s1) ->
  P s -> for_blocks fuel k hi bs body s = Ok s' -> P s'.
Proof.
  intros Hb. revert k s. induction fuel as [|fuel IH]; intros k s Hs; simpl.
  - destruct (k <? hi); [discriminate|]. now intros [= <-].
  - destruct (k <? hi); [|now intros [= <-]].
    destruct (body k s) as [s1| | |] eqn:E; simpl; try discriminate.
    apply IH. eapply Hb; eassumption.
Qed.

Section Lengths.

Context {Ty : Type}.
Implicit Types v d : list Ty.

Lemma store_length v k x d : store v k x = Ok d -> length d = length v.
Proof.
  unfold store. destruct (_ && _); [|discriminate].
  intros [= <-]. apply length_insert.
Qed.

Lemma swap_at_length v p q d : swap_at v p q = Ok d -> length d = length v.
Proof.
  unfold swap_at. destruct (load v p) as [x| | |]; simpl; try discriminate.
  destruct (load v q) as [y| | |]; simpl; try discriminate.
  destruct (store v p y) as [v1| | |] eqn:E1; simpl; try discriminate.
  intros E2. apply store_length in E1, E2. congruence.
Qed.

Lemma memcpy_length dst_v dst src_v src n d :
  memcpy dst_v dst src_v src n = Ok d -> length d = length dst_v.
Proof.
  unfold memcpy.
  destruct (Z.leb_spec 0 n); simpl; [|discriminate].
  destruct (Z.leb_spec 0 src); simpl; [|discriminate].
  destruct (Z.leb_spec (src + n) (Z.of_nat (length src_v))); simpl; [|discriminate].
  destruct (Z.leb_spec 0 dst); simpl; [|discriminate].
  destruct (Z.leb_spec (dst + n) (Z.of_nat (length dst_v))); simpl; [|discriminate].
  intros E. destruct (memcpy_in dst_v dst src_v src n) as (d' & Hm & Hl & _); try lia.
  unfold memcpy in Hm.
  destruct (Z.leb_spec 0 n); [|lia]. destruct (Z.leb_spec 0 src); [|lia].
  destruct (Z.leb_spec (src + n) (Z.of_nat (length src_v))); [|lia].
  destruct (Z.leb_spec 0 dst); [|lia].
  destruct (Z.leb_spec (dst + n) (Z.of_nat (length dst_v))); [|lia].
  simpl in Hm. congruence.
Qed.

Lemma memcpy_within_length v dst src n d :
  memcpy_within v dst src n = Ok d -> length d = length v.
Proof.
  unfold memcpy_within. destruct (_ && _); [discriminate|]. apply memcpy_length.
Qed.

Lemma copy_n_within_length v src n dst d :
  copy_n_within v src n dst = Ok d -> length d = length v.
Proof.
  unfold copy_n_within.
  apply (for_range_preserves (fun d => length d = length v)); [|reflexivity].
  intros j s0 s1 Hs0. destruct (load s0 (src + j)); simpl; try discriminate.
  intros E. apply store_length in E. congruence.
Qed.

End Lengths.

Section ShapeOfMembers.

Context {Ty : Type} {ET : ElemTraits Ty}.
Variable throws : nat -> option exn.
Variable schedule : nat -> list nat.

(** Keeping the dimensions and the length of the buffer keeps the shape. *)
Lemma wf_same_shape (m m' : array2d Ty) :
  wf m -> rows_ m' = rows_ m -> cols_ m' = cols_ m ->
  length (data_ m') = length (data_ m) -> wf m'.
Proof. unfold wf. intros H E1 E2 E3. rewrite E1, E2, E3. exact H. Qed.

Lemma set_data_lift_wf (o : array2d Ty -> outcome (list Ty)) w r w' :
  wf (this w) ->
  (forall d, o (this w) = Ok d -> length d = length (data_ (this w))) ->
  bind get_this (fun m => bind (lift (o m)) set_data) w = (r, w') ->
  r = Ok tt -> wf (this w').
Proof.
  intros Hwf Hlen. munfold. simpl.
  destruct (o (this w)) as [d| | |] eqn:E; intros [= <- <-]; try discriminate.
  intros _. simpl. eapply wf_same_shape; eauto.
Qed.

Lemma fill_wf val w r w' :
  wf (this w) -> fill val w = (r, w') -> wf (this w').
Proof.
  intros Hwf. unfold fill. munfold. simpl.
  destruct (_ && _); intros [= <- <-]; simpl;
    (eapply wf_same_shape; [exact Hwf|reflexivity|reflexivity|simpl]).
  - apply length_replicate.
  - unfold std_fill. apply length_fmap.
Qed.

Lemma fill_parallel_wf val w r w' :
  wf (this w) -> fill_parallel schedule val w = (r, w') -> wf (this w').
Proof.
  intros Hwf. unfold fill_parallel. unfold bind at 1. unfold get_this.
  destruct (10000 <? _).
  - munfold. intros [= <- <-]. simpl.
    eapply wf_same_shape; [exact Hwf|reflexivity|reflexivity|simpl].
    apply scheduled_fill_length.
  - now apply fill_wf.
Qed.

Lemma reset_wf opt w r w' :
  wf (this w) -> reset opt w = (r, w') -> wf (this w').
Proof.
  intros Hwf. unfold reset. munfold. simpl.
  destruct (empty (this w)); [now intros [= <- <-]|].
  destruct is_trivial_standard_layout; [destruct opt; [destruct (_ =? _)| |]|];
    intros [= <- <-]; simpl;
    (eapply wf_same_shape; [exact Hwf|reflexivity|reflexivity|simpl; apply length_replicate]).
Qed.

Lemma copy_row_wf src dest w r w' :
  wf (this w) -> copy_row src dest w = (r, w') -> r = Ok tt -> wf (this w').
Proof.
  intros Hwf. unfold copy_row. munfold. simpl.
  destruct (src =? dest); [now intros [= <- <-]|].
  destruct is_trivially_copyable.
  - destruct (memcpy_within _ _ _ _) as [d| | |] eqn:E; intros [= <- <-]; try discriminate.
    intros _. simpl. eapply wf_same_shape; eauto. simpl. eapply memcpy_within_length; eauto.
  - destruct (copy_n_within _ _ _ _) as [d| | |] eqn:E; intros [= <- <-]; try discriminate.
    intros _. simpl. eapply wf_same_shape; eauto. simpl. eapply copy_n_within_length; eauto.
Qed.

Lemma swap_rows_wf row1 row2 (w : world Ty) r w' :
  wf (this w) -> swap_rows row1 row2 w = (r, w') -> r = Ok tt -> wf (this w').
Proof.
  intros Hwf. unfold swap_rows. munfold. simpl.
  destruct (row1 =? row2); [now intros [= <- <-]|].
  destruct (for_range _ _ _ _) as [d| | |] eqn:E; intros [= <- <-]; try discriminate.
  intros _. simpl. eapply wf_same_shape; eauto. simpl.
  revert E. apply (for_range_preserves (fun d => length d = length (data_ (this w))));
    [|reflexivity].
  intros j s0 s1 Hs0 E. apply swap_at_length in E. congruence.
Qed.

Lemma fill_row_wf row val (w : world Ty) r w' :
  wf (this w) -> fill_row row val w = (r, w') -> r = Ok tt -> wf (this w').
Proof.
  intros Hwf. unfold fill_row. munfold. simpl.
  destruct (for_range _ _ _ _) as [d| | |] eqn:E; intros [= <- <-]; try discriminate.
  intros _. simpl. eapply wf_same_shape; eauto. simpl.
  revert E. apply (for_range_preserves (fun d => length d = length (data_ (this w))));
    [|reflexivity].
  intros j s0 s1 Hs0 E. apply store_length in E. congruence.
Qed.

Lemma transpose_loops_length fuel (m : array2d Ty) d :
  transpose_loops fuel m = Ok d -> length d = length (data_ m).
Proof.
  unfold transpose_loops.
  apply (for_blocks_preserves (fun d => length d = length (data_ m))); [|reflexivity].
  intros i s0 s1 Hs0. destruct (int_add i _); simpl; try discriminate.
  apply (for_blocks_preserves (fun d => length d = length (data_ m))); [|assumption].
  clear s0 s1 Hs0. intros j s0 s1 Hs0. destruct (int_add j _); simpl; try discriminate.
  apply (for_range_preserves (fun d => length d = length (data_ m))); [|assumption].
  clear s0 s1 Hs0. intros bi s0 s1 Hs0.
  destruct (if i =? j then int_add bi 1 else Ok j); simpl; try discriminate.
  apply (for_range_preserves (fun d => length d = length (data_ m))); [|assumption].
  clear s0 s1 Hs0. intros bj s0 s1 Hs0 E. apply swap_at_length in E. congruence.
Qed.

Lemma transpose_wf fuel w r w' :
  wf (this w) -> transpose fuel w = (r, w') -> r = Ok tt -> wf (this w').
Proof.
  intros Hwf. unfold transpose. munfold. simpl.
  destruct (negb _); [intros [= <- <-]; discriminate|].
  destruct (transpose_loops fuel (this w)) as [d| | |] eqn:E; intros [= <- <-];
    try discriminate.
  intros _. simpl. eapply wf_same_shape; eauto. simpl.
  eapply transpose_loops_length; eauto.
Qed.

End ShapeOfMembers.

Section ShapeOfConstructors.

Context {Ty : Type} {ET : ElemTraits Ty}.
Variable throws : nat -> option exn.

Lemma calculate_size_ok rows cols size :
  0 <= rows <= INT_MAX -> 0 <= cols <= INT_MAX ->
  calculate_size rows cols = Ok size -> size = rows * cols /\ rows * cols <= SIZE_MAX.
Proof.
  intros Hr Hc E. destruct (Z.le_gt_cases (rows * cols) SIZE_MAX) as [Hfit|Hbig].
  - rewrite calculate_size_fits in E by assumption. injection E as <-. auto.
  - assert (0 < rows) by (unfold SIZE_MAX in Hbig; nia).
    assert (0 < cols) by (unfold SIZE_MAX in Hbig; nia).
    rewrite calculate_size_overflow in E by lia. discriminate.
Qed.

Lemma ctor_dims_val_wf rows cols val (w : world Ty) r w' :
  is_index rows -> is_index cols -> data_ (this w) = [] ->
  ctor_dims_val throws rows cols val w = (r, w') -> r = Ok tt -> wf (this w').
Proof.
  unfold is_index. intros Hr Hc Hd. unfold ctor_dims_val.
  destruct (Z.ltb_spec rows 0) as [Hr0|Hr0].
  { rewrite validate_dimension_neg by assumption. munfold. intros [= <- <-]. discriminate. }
  rewrite (validate_dimension_ok rows) by assumption. rewrite bind_lift_ok.
  unfold bind at 1. unfold set_rows at 1.
  destruct (Z.ltb_spec cols 0) as [Hc0|Hc0].
  { rewrite validate_dimension_neg by assumption. munfold. intros [= <- <-]. discriminate. }
  rewrite (validate_dimension_ok cols) by assumption. rewrite bind_lift_ok.
  unfold bind at 1. unfold set_cols at 1. simpl.
  destruct (Z.ltb_spec 0 rows) as [Hrp|Hrp]; [destruct (Z.ltb_spec 0 cols) as [Hcp|Hcp]|]; simpl.
  - destruct (calculate_size rows cols) as [size|e| |] eqn:Es;
      try (munfold; intros [= <- <-]; discriminate).
    apply calculate_size_ok in Es; [|lia|lia]. destruct Es as [-> Hfit].
    rewrite bind_lift_ok, bind_get_this. simpl. rewrite Hd.
    unfold bind.
    match goal with |- context [vector_resize ?t ?v ?n ?x ?w0] =>
      destruct (vector_resize t v n x w0) as [[d|e| |] w1] eqn:Ev end;
      try (intros [= <- <-]; discriminate).
    apply vector_resize_run in Ev. destruct Ev as [Ht Ed].
    rewrite resize_fresh_result in Ed by nia.
    unfold set_data. intros [= <- <-] _. simpl. rewrite Ht. simpl.
    subst d. unfold wf. simpl. rewrite length_replicate. lia.
  - munfold. intros [= <- <-] _. simpl. rewrite Hd. unfold wf, SIZE_MAX. simpl. lia.
  - munfold. intros [= <- <-] _. simpl. rewrite Hd. unfold wf, SIZE_MAX. simpl. nia.
Qed.

Lemma check_row_lengths_ok cols (init_list : list (list Ty)) :
  check_row_lengths cols init_list = Ok tt ->
  Forall (fun row => to_index (Z.of_nat (length row)) = cols) init_list.
Proof.
  induction init_list as [|row rest IH]; simpl; intros E; [constructor|].
  destruct (Z.eqb_spec (to_index (Z.of_nat (length row))) cols); [|discriminate].
  constructor; auto.
Qed.

Lemma insert_rows_run (init_list : list (list Ty)) w r w' :
  insert_rows throws init_list w = (r, w') -> r = Ok tt ->
  rows_ (this w') = rows_ (this w) /\ cols_ (this w') = cols_ (this w) /\
  data_ (this w') = data_ (this w) ++ concat init_list.
Proof.
  revert w. induction init_list as [|row rest IH]; intros w; simpl.
  - munfold. intros [= <- <-] _. rewrite app_nil_r. auto.
  - rewrite bind_get_this. unfold bind at 1.
    destruct (copy_construct throws row w) as [[ext|e| |] w1] eqn:Ec;
      try (intros [= <- <-]; discriminate).
    apply copy_construct_run in Ec. destruct Ec as [Ht ->].
    unfold bind at 1. unfold set_data at 1.
    intros E Hr. apply IH in E; [|assumption]. simpl in E.
    destruct E as (E1 & E2 & E3). rewrite E1, E2, E3, Ht.
    rewrite <- app_assoc. auto.
Qed.

Lemma concat_uniform_length (cols : nat) (l : list (list Ty)) :
  Forall (fun row => length row = cols) l -> length (concat l) = (length l * cols)%nat.
Proof.
  induction 1 as [|row rest Hrow _ IH]; simpl; [reflexivity|].
  rewrite length_app, IH, Hrow. reflexivity.
Qed.

Lemma ctor_init_list_wf (init_list : list (list Ty)) (w : world Ty) r w' :
  Z.of_nat (length init_list) <= INT_MAX ->
  Forall (fun row => Z.of_nat (length row) <= INT_MAX) init_list ->
  data_ (this w) = [] ->
  ctor_init_list throws init_list w = (r, w') -> r = Ok tt -> wf (this w').
Proof.
  intros Hlen Hrows Hd. unfold ctor_init_list.
  destruct init_list as [|first rest] eqn:El.
  { munfold. intros [= <- <-] _. simpl. rewrite Hd. unfold wf, INT_MAX, SIZE_MAX. simpl. lia. }
  rewrite <- El in *. assert (Hfirst : Z.of_nat (length first) <= INT_MAX).
  { rewrite El in Hrows. now inversion Hrows. }
  unfold INT_MAX in Hlen, Hfirst.
  rewrite !to_index_small by (unfold is_index, INT_MIN, INT_MAX; lia).
  unfold bind at 1. unfold set_rows at 1. unfold bind at 1. unfold set_cols at 1.
  rewrite bind_get_this. simpl this. simpl cols_. simpl rows_.
  destruct (check_row_lengths (Z.of_nat (length first)) init_list) as [[]|e| |] eqn:Ech;
    try (munfold; intros [= <- <-]; discriminate).
  rewrite bind_lift_ok.
  destruct (calculate_size (Z.of_nat (length init_list)) (Z.of_nat (length first)))
    as [size|e| |] eqn:Es; try (munfold; intros [= <- <-]; discriminate).
  apply calculate_size_ok in Es; [|unfold INT_MAX; lia|unfold INT_MAX; lia].
  destruct Es as [_ Hfit].
  rewrite bind_lift_ok. unfold bind at 1. unfold may_throw at 1. simpl clock. simpl this.
  destruct (throws (clock w)); try (intros [= <- <-]; discriminate).
  intros E Hr. apply insert_rows_run in E; [|assumption]. simpl in E.
  destruct E as (E1 & E2 & E3). rewrite Hd in E3. simpl in E3.
  apply check_row_lengths_ok in Ech.
  assert (Hu : Forall (fun row => length row = length first) init_list).
  { rewrite Forall_forall in *. intros row Hin.
    specialize (Ech row Hin). specialize (Hrows row Hin). simpl in Ech, Hrows.
    rewrite to_index_small in Ech by (unfold is_index, INT_MIN, INT_MAX in *; lia). lia. }
  unfold wf. rewrite E1, E2, E3. rewrite (concat_uniform_length _ _ Hu).
  unfold INT_MAX. lia.
Qed.

Lemma ctor_container_wf rows cols (container : list Ty) (w : world Ty) r w' :
  is_index rows -> is_index cols ->
  ctor_container throws rows cols container w = (r, w') -> r = Ok tt -> wf (this w').
Proof.
  unfold is_index. intros Hr Hc. unfold ctor_container.
  destruct (Z.ltb_spec rows 0) as [Hr0|Hr0].
  { rewrite validate_dimension_neg by assumption. munfold. intros [= <- <-]. discriminate. }
  rewrite (validate_dimension_ok rows) by assumption. rewrite bind_lift_ok.
  unfold bind at 1. unfold set_rows at 1.
  destruct (Z.ltb_spec cols 0) as [Hc0|Hc0].
  { rewrite validate_dimension_neg by assumption. munfold. intros [= <- <-]. discriminate. }
  rewrite (validate_dimension_ok cols) by assumption. rewrite bind_lift_ok.
  unfold bind at 1. unfold set_cols at 1. simpl.
  destruct (calculate_size rows cols) as [size|e| |] eqn:Es;
    try (munfold; intros [= <- <-]; discriminate).
  apply calculate_size_ok in Es; [|lia|lia]. destruct Es as [-> Hfit].
  rewrite bind_lift_ok.
  destruct (Z.eqb_spec (Z.of_nat (length container)) (rows * cols)) as [El|El]; simpl;
    [|munfold; intros [= <- <-]; discriminate].
  unfold bind at 1. unfold may_throw at 1. simpl.
  destruct (throws (clock w)); try (intros [= <- <-]; discriminate).
  unfold bind.
  match goal with |- context [copy_construct ?t ?l ?w0] =>
    destruct (copy_construct t l w0) as [[d|e| |] w1] eqn:Ec end;
    try (intros [= <- <-]; discriminate).
  apply copy_construct_run in Ec. destruct Ec as [Ht ->].
  unfold set_data. intros [= <- <-] _. simpl. rewrite Ht. simpl.
  unfold wf. simpl. lia.
Qed.

Lemma copy_members_wf (other : array2d Ty) (w : world Ty) r w' :
  wf other ->
  bind (set_rows (rows_ other))
    (fun _ => bind (set_cols (cols_ other))
       (fun _ => bind (vector_copy throws (data_ other)) set_data)) w = (r, w') ->
  r = Ok tt -> wf (this w').
Proof.
  intros Hwf. unfold bind at 1. unfold set_rows at 1.
  unfold bind at 1. unfold set_cols at 1. unfold bind.
  match goal with |- context [vector_copy ?t ?l ?w0] =>
    destruct (vector_copy t l w0) as [[d|e| |] w1] eqn:Ec end;
    try (intros [= <- <-]; discriminate).
  apply vector_copy_run in Ec. destruct Ec as [Ht ->].
  unfold set_data. intros [= <- <-] _. simpl. rewrite Ht. simpl.
  destruct other; exact Hwf.
Qed.

(** Construction establishes the shape. *)
Lemma build_wf (c : constructor_call Ty) k m k' :
  constructor_args_ok c -> construct (build throws c) k = (Ok m, k') -> wf m.
Proof.
  intros Hargs. unfold construct.
  destruct (build throws c (mk_world array2d_default k)) as [[[]|e| |] w'] eqn:E;
    intros [= <- <-].
  destruct c as [|rows cols|rows cols val|init_list|rows cols container|other|other];
    simpl in Hargs, E.
  - revert E. munfold. intros [= <-]. unfold wf, INT_MAX, SIZE_MAX. simpl. lia.
  - destruct Hargs.
    change (ctor_dims throws rows cols) with (ctor_dims_val throws rows cols Ty_default) in E.
    exact (ctor_dims_val_wf rows cols Ty_default (mk_world array2d_default k) _ _ H H0 eq_refl E eq_refl).
  - destruct Hargs.
    exact (ctor_dims_val_wf rows cols val (mk_world array2d_default k) _ _ H H0 eq_refl E eq_refl).
  - destruct Hargs.
    exact (ctor_init_list_wf init_list (mk_world array2d_default k) _ _ H H0 eq_refl E eq_refl).
  - destruct Hargs.
    exact (ctor_container_wf rows cols container _ _ _ H H0 E eq_refl).
  - eapply copy_members_wf; [exact Hargs|exact E|reflexivity].
  - revert E. unfold ctor_move. munfold. simpl. intros [= <-]. simpl.
    destruct other; exact Hargs.
Qed.

End ShapeOfConstructors.

Section ShapeOfCalls.

Context {Ty : Type} {ET : ElemTraits Ty}.
Variable throws : nat -> option exn.
Variable schedule : nat -> list nat.

Lemma resize_impl_wf nr nc fv (w : world Ty) w' :
  wf (this w) -> is_index nr -> is_index nc ->
  resize_impl throws nr nc fv w = (Ok tt, w') -> wf (this w').
Proof.
  unfold is_index. intros Hwf Hr Hc E.
  destruct (Z.ltb_spec nr 0) as [Hr0|Hr0].
  { revert E. unfold resize_impl. rewrite validate_dimension_neg by assumption.
    munfold. discriminate. }
  destruct (Z.ltb_spec nc 0) as [Hc0|Hc0].
  { revert E. unfold resize_impl. rewrite (validate_dimension_ok nr) by assumption.
    rewrite validate_dimension_neg by assumption. munfold. discriminate. }
  destruct (resize_impl_spec throws nr nc fv w Hwf) as (_ & _ & _ & H); [lia|lia|].
  rewrite E in H. simpl in H. now destruct (H eq_refl) as (_ & _ & _ & Hwf' & _).
Qed.

Lemma frame_copy_construct (l : list Ty) : frame (copy_construct throws l).
Proof. intros w r w' E. now apply copy_construct_run in E. Qed.

Lemma reserve_frame cols_first capacity rows cols :
  frame (Ty := Ty) (reserve throws cols_first capacity rows cols).
Proof.
  unfold reserve.
  apply frame_bind; [apply frame_lift|]. intros dims.
  apply frame_bind; [apply frame_lift|]. intros n.
  destruct (n <=? capacity); [apply frame_ret|].
  apply frame_bind; [apply frame_get_this|]. intros m.
  apply frame_bind; [apply frame_may_throw|]. intros _.
  apply frame_bind; [apply frame_copy_construct|]. intros _. apply frame_ret.
Qed.

(** A copy assignment that returns leaves the receiver equal to its
    argument, whatever the capacity. *)
Lemma assign_copy_returns capacity (other : array2d Ty) (w : world Ty) w' :
  assign_copy throws capacity other w = (Ok tt, w') -> this w' = other.
Proof.
  unfold assign_copy. unfold bind at 1. unfold set_rows at 1.
  unfold bind at 1. unfold set_cols at 1. rewrite bind_get_this. cbn [this data_ clock].
  destruct (capacity <? Z.of_nat (length (data_ other))).
  - unfold bind.
    match goal with |- context [vector_copy ?t ?l ?w0] =>
      destruct (vector_copy t l w0) as [[d|e| |] w1] eqn:Ec end;
      try (intros [= <-]; discriminate); try discriminate.
    apply vector_copy_run in Ec. destruct Ec as [Ht ->].
    unfold set_data. intros [= <-]. cbn [this]. rewrite Ht. cbn [this rows_ cols_].
    destruct other; reflexivity.
  - destruct (length (data_ other) <=? length (data_ (this w)))%nat.
    + unfold set_data. intros [= <-]. cbn [this rows_ cols_]. destruct other; reflexivity.
    + unfold bind at 1. unfold set_data at 1. cbn [this rows_ cols_ clock]. unfold bind.
      match goal with |- context [copy_construct ?t ?l ?w0] =>
        destruct (copy_construct t l w0) as [[ext|e| |] w1] eqn:Ec end;
        try (intros [= <-]; discriminate); try discriminate.
      apply copy_construct_run in Ec. destruct Ec as [Ht ->].
      unfold set_data. intros [= <-]. cbn [this]. rewrite Ht. cbn [this rows_ cols_].
      rewrite take_drop. destruct other; reflexivity.
Qed.

(** A member call that returns keeps the shape. *)
Lemma perform_wf fuel (c : member_call Ty) w w' :
  wf (this w) -> member_args_ok c -> c <> CallAssignMove Itself ->
  perform throws schedule fuel c w = (Ok tt, w') -> wf (this w').
Proof.
  intros Hwf Hargs Hself E.
  destruct c as [capacity other|[other|]|val|val|opt|nr nc|nr nc val
                |cols_first capacity rows cols| | |src dest|row1 row2|row val|other];
    simpl in Hargs, E; try contradiction.
  - apply assign_copy_returns in E. now rewrite E.
  - revert E. unfold assign_move. munfold. simpl. intros [= <-]. simpl.
    destruct other; exact Hargs.
  - eapply fill_wf; eauto.
  - eapply fill_parallel_wf; eauto.
  - eapply reset_wf; eauto.
  - destruct Hargs as [Hr Hc]. exact (resize_impl_wf nr nc None w w' Hwf Hr Hc E).
  - destruct Hargs as [Hr Hc]. revert E. unfold resize_val. unfold bind at 1.
    unfold may_throw. destruct (throws (clock w)); [discriminate|].
    intros E. eapply resize_impl_wf in E; [exact E|exact Hwf|exact Hr|exact Hc].
  - apply reserve_frame in E. now rewrite E.
  - revert E. unfold shrink_to_fit. munfold. now intros [= <-].
  - eapply transpose_wf; eauto.
  - eapply copy_row_wf; eauto.
  - eapply swap_rows_wf; eauto.
  - eapply fill_row_wf; eauto.
  - revert E. unfold swap. munfold. simpl. intros [= <-]. simpl.
    destruct other; exact Hargs.
Qed.

Lemma transposed_loops_length fuel (m result : array2d Ty) d :
  transposed_loops fuel m result = Ok d -> length d = length (data_ result).
Proof.
  unfold transposed_loops.
  apply (for_blocks_preserves (fun d => length d = length (data_ result))); [|reflexivity].
  intros i s0 s1 Hs0. destruct (int_add i _); simpl; try discriminate.
  apply (for_blocks_preserves (fun d => length d = length (data_ result))); [|assumption].
  clear s0 s1 Hs0. intros j s0 s1 Hs0. destruct (int_add j _); simpl; try discriminate.
  apply (for_range_preserves (fun d => length d = length (data_ result))); [|assumption].
  clear s0 s1 Hs0. intros bi s0 s1 Hs0.
  apply (for_range_preserves (fun d => length d = length (data_ result))); [|assumption].
  clear s0 s1 Hs0. intros bj s0 s1 Hs0.
  destruct (load (data_ m) _); simpl; try discriminate.
  intros E. apply store_length in E. congruence.
Qed.

Lemma new_object_run (ctor : M Ty unit) w r w' :
  new_object ctor w = (r, w') ->
  this w' = this w /\
  forall res, r = Ok res ->
    exists w1, ctor (mk_world array2d_default (clock w)) = (Ok tt, w1) /\ res = this w1.
Proof.
  unfold new_object, construct.
  destruct (ctor (mk_world array2d_default (clock w))) as [[[]|e| |] w1];
    intros [= <- <-]; (split; [reflexivity|]); intros res [= <-]. eauto.
Qed.

(** [transposed()] returns a well-formed container and leaves [this] alone. *)
Lemma transposed_wf fuel (w : world Ty) res w' :
  wf (this w) -> transposed throws fuel w = (Ok res, w') ->
  wf res /\ this w' = this w.
Proof.
  intros Hwf. unfold transposed. rewrite bind_get_this. unfold bind.
  destruct (new_object _ w) as [[result|e| |] w1] eqn:En; try discriminate.
  apply new_object_run in En. destruct En as [Ht Hres].
  destruct (Hres result eq_refl) as (w2 & Ec & ->).
  destruct (transposed_loops fuel (this w) (this w2)) as [d| | |] eqn:El;
    unfold lift, ret; intros [= <- <-].
  split; [|assumption].
  destruct Hwf as (Hr & Hc & _).
  change (ctor_dims throws (cols_ (this w)) (rows_ (this w)))
    with (ctor_dims_val throws (cols_ (this w)) (rows_ (this w)) Ty_default) in Ec.
  eapply ctor_dims_val_wf in Ec;
    [|unfold is_index, INT_MIN; lia|unfold is_index, INT_MIN; lia|reflexivity|reflexivity].
  eapply wf_same_shape; [exact Ec|reflexivity|reflexivity|].
  simpl. eapply transposed_loops_length; eauto.
Qed.

End ShapeOfCalls.




(** ** Transposition of wide elements *)

Lemma next_block_zero k : 0 <= k <= INT_MAX -> next_block k 0 = k.
Proof.
  intros Hk. unfold next_block. rewrite Z.add_0_r.
  rewrite (to_size_index k) by assumption. rewrite (to_size_index k) by assumption.
  apply to_index_small. unfold is_index, INT_MIN, INT_MAX in *. lia.
Qed.

(** A block loop whose step is zero never gets past its first block. *)
Lemma for_blocks_stuck {S : Type} fuel k hi (body : Z -> S -> outcome S) s :
  0 <= k <= INT_MAX -> k < hi ->
  (forall s0, match body k s0 with Ok _ | OutOfFuel => True | _ => False end) ->
  for_blocks fuel k hi 0 body s = OutOfFuel.
Proof.
  intros Hk Hlt Hb. revert s. induction fuel as [|fuel IH]; intros s; simpl.
  - destruct (Z.ltb_spec k hi); [reflexivity|lia].
  - destruct (Z.ltb_spec k hi); [|lia].
    specialize (Hb s). destruct (body k s); simpl; try contradiction; [|reflexivity].
    rewrite next_block_zero by assumption. apply IH.
Qed.

Section WideElements.

Context {Ty : Type} {ET : ElemTraits Ty}.

Lemma block_size_wide : 64 < sizeof_Ty -> block_size = 0.
Proof.
  intros H. unfold block_size. rewrite Z.div_small by lia. reflexivity.
Qed.

Lemma int_add_zero k : is_index k -> int_add k (to_index 0) = Ok k.
Proof.
  intros Hk. unfold int_add. change (to_index 0) with 0. rewrite Z.add_0_r.
  unfold is_index in Hk. unfold is_indexb.
  destruct (Z.leb_spec INT_MIN k); [|lia]. destruct (Z.leb_spec k INT_MAX); [|lia].
  reflexivity.
Qed.

(** With [sizeof(Ty) > 64] the block size is zero, and the loops of
    [transposed()] on a matrix with at least one row do not end. *)
Lemma transposed_loops_wide fuel (m result : array2d Ty) :
  64 < sizeof_Ty -> 0 < rows_ m -> 0 <= cols_ m <= INT_MAX ->
  transposed_loops fuel m result = OutOfFuel.
Proof.
  intros Hwide Hr Hc. unfold transposed_loops. rewrite block_size_wide by assumption.
  apply for_blocks_stuck; [unfold INT_MAX; lia|assumption|].
  intros d. rewrite int_add_zero by (unfold is_index, INT_MIN, INT_MAX; lia). simpl.
  destruct (Z.lt_ge_cases 0 (cols_ m)) as [Hcp|Hcz].
  - rewrite for_blocks_stuck; [exact I|unfold INT_MAX; lia|assumption|].
    intros d'. rewrite int_add_zero by (unfold is_index, INT_MIN, INT_MAX; lia). simpl.
    rewrite for_range_empty by lia. exact I.
  - destruct fuel; simpl; destruct (Z.ltb_spec 0 (cols_ m)); try lia; exact I.
Qed.

(** The same for the loops of [transpose()] on a square matrix. *)
Lemma transpose_loops_wide fuel (m : array2d Ty) :
  64 < sizeof_Ty -> 0 < rows_ m -> 0 < cols_ m <= INT_MAX ->
  transpose_loops fuel m = OutOfFuel.
Proof.
  intros Hwide Hr Hc. unfold transpose_loops. rewrite block_size_wide by assumption.
  apply for_blocks_stuck; [unfold INT_MAX; lia|assumption|].
  intros d. rewrite int_add_zero by (unfold is_index, INT_MIN, INT_MAX; lia). simpl.
  rewrite for_blocks_stuck; [exact I|unfold INT_MAX; lia|lia|].
  intros d'. rewrite int_add_zero by (unfold is_index, INT_MIN, INT_MAX; lia). simpl.
  rewrite for_range_empty by lia. exact I.
Qed.

End WideElements.

(** C6 at a failing input: [transpose()] on a one-by-one matrix of
    eighty-byte elements is still running whatever fuel it is given; it
    neither returns nor throws, and so produces no transposed matrix. *)
Theorem transpose_wide_element_diverges :
  forall fuel : nat,
    is_square wide_1x1 = true /\
    run (transpose (ET := wide_traits) fuel) wide_1x1 = (OutOfFuel, wide_1x1).
Proof.
  intros fuel. split; [reflexivity|].
  unfold run, transpose. munfold. simpl.
  rewrite (transpose_loops_wide (ET := wide_traits)); simpl; try reflexivity;
    unfold INT_MAX; lia.
Qed.

(** C7 at a failing input: [transposed()] on a one-by-one matrix of
    eighty-byte elements is still running whatever fuel it is given, in an
    environment where nothing fails. *)
Theorem transposed_wide_element_diverges :
  forall fuel : nat,
    run (transposed (ET := wide_traits) never_throws fuel) wide_1x1 = (OutOfFuel, wide_1x1).
Proof.
  intros fuel. unfold run, transposed. rewrite bind_get_this. unfold bind.
  simpl this. unfold new_object, construct. simpl.
  rewrite (transposed_loops_wide (ET := wide_traits)); simpl; try reflexivity;
    unfold INT_MAX; lia.
Qed.

(** ** Block loops that advance *)

Lemma next_block_step k bs :
  0 <= k -> 0 <= bs -> k + bs <= INT_MAX -> next_block k bs = k + bs.
Proof.
  intros Hk Hbs Hs. unfold next_block.
  rewrite (to_size_index k) by lia. rewrite (to_size_index (k + bs)) by lia.
  apply to_index_small. unfold is_index, INT_MIN, INT_MAX in *. lia.
Qed.

(** With a positive step and fuel for one round per index, a block loop
    ends, past its bound, and carries an invariant along. *)
Lemma for_blocks_inv {S : Type} (Inv : Z -> S -> Prop) fuel k hi bs
  (body : Z -> S -> outcome S) s :
  0 < bs -> 0 <= k -> hi + bs <= INT_MAX + 1 ->
  (Z.to_nat (hi - k) <= fuel)%nat ->
  Inv k s ->
  (forall j s0, k <= j < hi -> Inv j s0 -> exists s1, body j s0 = Ok s1 /\ Inv (j + bs) s1) ->
  exists s' j', for_blocks fuel k hi bs body s = Ok s' /\ hi <= j' /\ Inv j' s'.
Proof.
  intros Hbs Hk Hhi. revert k s Hk.
  induction fuel as [|fuel IH]; intros k s Hk Hfuel Hinv Hstep; simpl.
  - destruct (Z.ltb_spec k hi); [lia|]. exists s, k. auto.
  - destruct (Z.ltb_spec k hi) as [Hlt|Hge]; [|exists s, k; auto].
    destruct (Hstep k s) as (s1 & Hb & Hi1); [lia|assumption|].
    rewrite Hb. simpl. rewrite next_block_step by lia.
    apply IH; [lia|lia|assumption|].
    intros j s0 Hj. apply Hstep. lia.
Qed.

Section BlockSize.

Context {Ty : Type} {ET : ElemTraits Ty}.

Lemma block_size_range : 0 < sizeof_Ty <= 64 -> 1 <= block_size <= 64.
Proof.
  intros H. unfold block_size.
  assert (1 <= 64 / sizeof_Ty <= 64).
  { split.
    - apply Z.div_le_lower_bound; lia.
    - apply Z.div_le_upper_bound; [lia|]. nia. }
  rewrite to_size_small by (unfold SIZE_MAX; lia). assumption.
Qed.

Lemma int_add_block j bs :
  0 <= j -> 1 <= bs <= 64 -> j + bs <= INT_MAX -> int_add j (to_index bs) = Ok (j + bs).
Proof.
  intros Hj Hbs Hs. rewrite to_index_small by (unfold is_index, INT_MIN, INT_MAX; lia).
  unfold int_add, is_indexb.
  destruct (Z.leb_spec INT_MIN (j + bs)); [|unfold INT_MIN in *; lia].
  destruct (Z.leb_spec (j + bs) INT_MAX); [reflexivity|lia].
Qed.

Lemma int_add_one j : 0 <= j < INT_MAX -> int_add j 1 = Ok (j + 1).
Proof.
  intros Hj. unfold int_add, is_indexb.
  destruct (Z.leb_spec INT_MIN (j + 1)); [|unfold INT_MIN in *; lia].
  destruct (Z.leb_spec (j + 1) INT_MAX); [reflexivity|lia].
Qed.

End BlockSize.

Lemma cell_index_inj n a b a' b' :
  0 <= b < n -> 0 <= b' < n -> a * n + b = a' * n + b' -> a = a' /\ b = b'.
Proof.
  intros Hb Hb' E. assert (a = a') by nia. subst a'. split; [reflexivity|lia].
Qed.

(** ** Out-of-place transposition, for elements of at most 64 bytes *)

Section TransposedLoops.

Context {Ty : Type} {ET : ElemTraits Ty}.
Variables m result : array2d Ty.
Hypothesis Hwf : wf m.
Hypothesis Hres : wf result.
Hypothesis Hrr : rows_ result = cols_ m.
Hypothesis Hrc : cols_ result = rows_ m.
Hypothesis Hsize : 0 < sizeof_Ty <= 64.
Hypothesis Hrows : rows_ m + block_size <= INT_MAX + 1.
Hypothesis Hcols : cols_ m + block_size <= INT_MAX + 1.

Lemma transposed_upto_weaken (W W' : Z -> Z -> Prop) d :
  (forall a b, 0 <= a < rows_ m -> 0 <= b < cols_ m -> W' a b -> W a b) ->
  transposed_upto m W d -> transposed_upto m W' d.
Proof.
  intros Hw [Hl Hd]. split; [assumption|]. intros a b Ha Hb HW'. apply Hd; auto.
Qed.

Lemma transposed_store_step (W : Z -> Z -> Prop) d bi bj :
  transposed_upto m W d -> 0 <= bi < rows_ m -> 0 <= bj < cols_ m ->
  exists d',
    (let? x := load (data_ m) (subscript m bi bj) in store d (subscript result bj bi) x)
    = Ok d' /\
    transposed_upto m (fun a b => W a b \/ (a = bi /\ b = bj)) d'.
Proof.
  intros [Hl Hd] Hbi Hbj.
  rewrite (subscript_cell m bi bj) by assumption.
  rewrite (subscript_cell result bj bi) by (try assumption; lia).
  rewrite Hrc.
  pose proof (wf_cell_bound m bi bj Hwf Hbi Hbj) as [Hb _].
  destruct (load_in (data_ m) _ Hb) as (x & Hx & Hload).
  rewrite Hload. simpl.
  assert (Hin : 0 <= bj * rows_ m + bi < Z.of_nat (length d)) by nia.
  rewrite store_in by assumption.
  eexists. split; [reflexivity|]. split.
  - rewrite length_insert. assumption.
  - intros a b Ha Hb' HW. rewrite lookup_stored by nia.
    destruct (Z.eqb_spec (b * rows_ m + a) (bj * rows_ m + bi)) as [E|E].
    + apply cell_index_inj in E; [|lia|lia]. destruct E as [-> ->]. now rewrite Hx.
    + apply Hd; try assumption. destruct HW as [HW|[-> ->]]; [assumption|].
      now contradiction E.
Qed.

Lemma transposed_bj_loop (W : Z -> Z -> Prop) d bi j j_end :
  transposed_upto m W d -> 0 <= bi < rows_ m -> 0 <= j -> j <= j_end -> j_end <= cols_ m ->
  exists d',
    for_range j j_end
      (fun bj d =>
         let? x := load (data_ m) (subscript m bi bj) in store d (subscript result bj bi) x)
      d = Ok d' /\
    transposed_upto m (fun a b => W a b \/ (a = bi /\ j <= b < j_end)) d'.
Proof.
  intros Hd Hbi Hj Hje Hjc.
  apply (for_range_inv
           (fun bj d => transposed_upto m (fun a b => W a b \/ (a = bi /\ j <= b < bj)) d));
    [assumption| |].
  - eapply transposed_upto_weaken; [|exact Hd]. intros a b _ _ [H|H]; [assumption|lia].
  - intros bj d0 Hbj Hd0.
    destruct (transposed_store_step _ d0 bi bj Hd0) as (d1 & E & Hd1); [lia|lia|].
    exists d1. split; [assumption|].
    eapply transposed_upto_weaken; [|exact Hd1].
    intros a b _ _ [H|H]; [now left; left|].
    destruct (Z.eq_dec b bj); [right; lia|left; right; lia].
Qed.

Lemma transposed_bi_loop (W : Z -> Z -> Prop) d i i_end j j_end :
  transposed_upto m W d -> 0 <= i -> i <= i_end -> i_end <= rows_ m ->
  0 <= j -> j <= j_end -> j_end <= cols_ m ->
  exists d',
    for_range i i_end
      (fun bi d =>
         for_range j j_end
           (fun bj d =>
              let? x := load (data_ m) (subscript m bi bj) in
              store d (subscript result bj bi) x) d)
      d = Ok d' /\
    transposed_upto m (fun a b => W a b \/ (i <= a < i_end /\ j <= b < j_end)) d'.
Proof.
  intros Hd Hi Hie Hir Hj Hje Hjc.
  apply (for_range_inv
           (fun bi d =>
              transposed_upto m (fun a b => W a b \/ (i <= a < bi /\ j <= b < j_end)) d));
    [assumption| |].
  - eapply transposed_upto_weaken; [|exact Hd]. intros a b _ _ [H|H]; [assumption|lia].
  - intros bi d0 Hbi Hd0.
    destruct (transposed_bj_loop _ d0 bi j j_end Hd0) as (d1 & E & Hd1); try lia.
    exists d1. split; [assumption|].
    eapply transposed_upto_weaken; [|exact Hd1].
    intros a b _ _ [H|H]; [now left; left|].
    destruct (Z.eq_dec a bi); [right; lia|left; right; lia].
Qed.

Lemma transposed_j_blocks fuel (W : Z -> Z -> Prop) d i i_end :
  transposed_upto m W d -> 0 <= i -> i <= i_end -> i_end <= rows_ m ->
  (Z.to_nat (cols_ m) <= fuel)%nat ->
  exists d',
    for_blocks fuel 0 (cols_ m) block_size
      (fun j d =>
         let? j_next := int_add j (to_index block_size) in
         let j_end := Z.min j_next (cols_ m) in
         for_range i i_end
           (fun bi d =>
              for_range j j_end
                (fun bj d =>
                   let? x := load (data_ m) (subscript m bi bj) in
                   store d (subscript result bj bi) x) d)
           d)
      d = Ok d' /\
    transposed_upto m (fun a b => W a b \/ i <= a < i_end) d'.
Proof.
  intros Hd Hi Hie Hir Hfuel.
  pose proof (block_size_range Hsize) as Hbs.
  destruct (for_blocks_inv
              (fun j d => transposed_upto m (fun a b => W a b \/ (i <= a < i_end /\ b < j)) d)
              fuel 0 (cols_ m) block_size
              (fun j d =>
                 let? j_next := int_add j (to_index block_size) in
                 let j_end := Z.min j_next (cols_ m) in
                 for_range i i_end
                   (fun bi d =>
                      for_range j j_end
                        (fun bj d =>
                           let? x := load (data_ m) (subscript m bi bj) in
                           store d (subscript result bj bi) x) d)
                   d) d) as (d' & j' & E & Hj' & Hd'); try lia.
  - eapply transposed_upto_weaken; [|exact Hd]. intros a b _ Hb [H|H]; [assumption|lia].
  - intros j d0 Hj Hd0. rewrite int_add_block by lia. simpl.
    destruct (transposed_bi_loop _ d0 i i_end j (Z.min (j + block_size) (cols_ m)) Hd0)
      as (d1 & E & Hd1); try lia.
    exists d1. split; [assumption|].
    eapply transposed_upto_weaken; [|exact Hd1].
    intros a b _ Hb [H|H]; [now left; left|].
    destruct (Z.lt_ge_cases b j); [left; right; lia|right; lia].
  - exists d'. split; [assumption|].
    eapply transposed_upto_weaken; [|exact Hd'].
    intros a b _ Hb [H|H]; [now left|right; lia].
Qed.

Lemma transposed_loops_correct fuel :
  Z.of_nat (length (data_ result)) = rows_ m * cols_ m ->
  (Z.to_nat (rows_ m) <= fuel)%nat -> (Z.to_nat (cols_ m) <= fuel)%nat ->
  exists d,
    transposed_loops fuel m result = Ok d /\
    transposed_upto m (fun _ _ => True) d.
Proof.
  intros Hlen Hfr Hfc. unfold transposed_loops.
  pose proof (block_size_range Hsize) as Hbs.
  pose proof Hwf as (Hr & Hc & _).
  destruct (for_blocks_inv
              (fun i d => transposed_upto m (fun a b => a < i) d)
              fuel 0 (rows_ m) block_size
              (fun i d =>
                 let? i_next := int_add i (to_index block_size) in
                 let i_end := Z.min i_next (rows_ m) in
                 for_blocks fuel 0 (cols_ m) block_size
                   (fun j d =>
                      let? j_next := int_add j (to_index block_size) in
                      let j_end := Z.min j_next (cols_ m) in
                      for_range i i_end
                        (fun bi d =>
                           for_range j j_end
                             (fun bj d =>
                                let? x := load (data_ m) (subscript m bi bj) in
                                store d (subscript result bj bi) x) d)
                        d)
                   d) (data_ result)) as (d' & i' & E & Hi' & Hd'); try lia.
  - split; [assumption|]. intros a b Ha Hb H. lia.
  - intros i d0 Hi Hd0. rewrite int_add_block by lia. simpl.
    destruct (transposed_j_blocks fuel _ d0 i (Z.min (i + block_size) (rows_ m)) Hd0)
      as (d1 & E & Hd1); try lia.
    exists d1. split; [assumption|].
    eapply transposed_upto_weaken; [|exact Hd1].
    intros a b Ha _ H. cbv beta in H.
    destruct (Z.lt_ge_cases a i); [now left|right; lia].
  - exists d'. split; [assumption|].
    eapply transposed_upto_weaken; [|exact Hd']. intros a b Ha _ _. cbv beta. lia.
Qed.

End TransposedLoops.

Section TransposedCall.

Context {Ty : Type} {ET : ElemTraits Ty}.
Variable throws : nat -> option exn.
Hypothesis Hquiet : quiet throws.

Lemma ctor_dims_quiet rows cols k :
  0 <= rows <= INT_MAX -> 0 <= cols <= INT_MAX -> rows * cols <= SIZE_MAX ->
  exists k',
    construct (ctor_dims throws rows cols) k =
    (Ok (mk_array2d rows cols (replicate (Z.to_nat (rows * cols)) Ty_default)), k').
Proof.
  intros Hr Hc Hfit. unfold construct.
  destruct (Z.eq_dec (rows * cols) 0) as [Hz|Hz].
  - rewrite Hz. simpl. unfold ctor_dims. rewrite !validate_dimension_ok by lia.
    munfold. simpl.
    assert (E : (0 <? rows) && (0 <? cols) = false).
    { destruct (Z.ltb_spec 0 rows); destruct (Z.ltb_spec 0 cols); try reflexivity. nia. }
    rewrite E. simpl. eauto.
  - rewrite ctor_dims_positive by nia. unfold bind.
    change (data_ (this (mk_world array2d_default k))) with (@nil Ty).
    match goal with |- context [vector_resize ?t ?v ?n ?x ?w] =>
      destruct (vector_resize_quiet t v n x w Hquiet) as [k' Ek'] end.
    rewrite resize_fresh_result in Ek' by nia. rewrite Ek'. simpl. eauto.
Qed.

(** For elements of at most 64 bytes, dimensions that leave room for one
    block below [INT_MAX], and enough fuel, [transposed()] returns the
    [cols() x rows()] container whose element [(b, a)] is element [(a, b)]
    of [this], and leaves [this] alone. *)
Lemma transposed_correct fuel (w : world Ty) :
  wf (this w) -> 0 < sizeof_Ty <= 64 ->
  rows_ (this w) + block_size <= INT_MAX + 1 ->
  cols_ (this w) + block_size <= INT_MAX + 1 ->
  (Z.to_nat (rows_ (this w)) <= fuel)%nat -> (Z.to_nat (cols_ (this w)) <= fuel)%nat ->
  exists res w',
    transposed throws fuel w = (Ok res, w') /\ this w' = this w /\
    rows_ res = cols_ (this w) /\ cols_ res = rows_ (this w) /\ wf res /\
    forall a b, 0 <= a < rows_ (this w) -> 0 <= b < cols_ (this w) ->
      elem res b a = elem (this w) a b.
Proof.
  intros Hwf Hsize Hrows Hcols Hfr Hfc.
  pose proof Hwf as (Hr & Hc & Hlen & Hfit).
  unfold transposed. rewrite bind_get_this. unfold bind, new_object.
  destruct (ctor_dims_quiet (cols_ (this w)) (rows_ (this w)) (clock w)) as [k' Ek'];
    [lia|lia|lia|].
  rewrite Ek'.
  set (result := mk_array2d (cols_ (this w)) (rows_ (this w))
                   (replicate (Z.to_nat (cols_ (this w) * rows_ (this w))) Ty_default)).
  assert (Hres : wf result).
  { unfold wf, result. simpl. rewrite length_replicate. lia. }
  destruct (transposed_loops_correct (this w) result Hwf Hres eq_refl eq_refl
              Hsize Hrows Hcols fuel) as (d & El & Hl & Hd); try assumption.
  { unfold result. simpl. rewrite length_replicate. lia. }
  unfold lift. rewrite El. unfold ret. simpl.
  eexists. eexists. split; [reflexivity|]. simpl.
  split; [reflexivity|]. split; [reflexivity|]. split; [reflexivity|]. split.
  - unfold wf. simpl. lia.
  - intros a b Ha Hb. unfold elem. simpl. now apply Hd.
Qed.

End TransposedCall.

(** Two well-formed containers with the same dimensions and the same
    elements are the same container. *)
Lemma array2d_ext {Ty : Type} (m1 m2 : array2d Ty) :
  wf m1 -> wf m2 -> rows_ m1 = rows_ m2 -> cols_ m1 = cols_ m2 ->
  (forall a b, 0 <= a < rows_ m1 -> 0 <= b < cols_ m1 -> elem m1 a b = elem m2 a b) ->
  m1 = m2.
Proof.
  intros (Hr1 & Hc1 & Hl1 & _) (Hr2 & Hc2 & Hl2 & _) Er Ec He.
  destruct m1 as [r1 c1 d1], m2 as [r2 c2 d2]. simpl in *. subst r2 c2.
  f_equal. apply list_eq. intros k.
  destruct (Z.lt_ge_cases (Z.of_nat k) (r1 * c1)) as [Hlt|Hge].
  - assert (Hc : 0 < c1) by nia.
    pose proof (Z.div_mod (Z.of_nat k) c1 ltac:(lia)) as Hdm.
    pose proof (Z.mod_pos_bound (Z.of_nat k) c1 Hc) as Hmod.
    assert (Hdiv : 0 <= Z.of_nat k / c1 < r1).
    { split; [apply Z.div_pos; lia|]. apply Z.div_lt_upper_bound; lia. }
    specialize (He (Z.of_nat k / c1) (Z.of_nat k mod c1) Hdiv Hmod).
    unfold elem in He. simpl in He.
    replace (Z.of_nat k / c1 * c1 + Z.of_nat k mod c1) with (Z.of_nat k) in He by lia.
    now rewrite Nat2Z.id in He.
  - rewrite !lookup_ge_None_2 by lia. reflexivity.
Qed.

(** For elements of at most 64 bytes and dimensions that leave room for
    one block below [INT_MAX], transposing twice gives the container back. *)
Lemma transposed_round_trip {Ty : Type} {ET : ElemTraits Ty} (throws : nat -> option exn)
  fuel (m : array2d Ty) k :
  quiet throws -> wf m -> 0 < sizeof_Ty <= 64 ->
  rows_ m + block_size <= INT_MAX + 1 -> cols_ m + block_size <= INT_MAX + 1 ->
  (Z.to_nat (rows_ m) <= fuel)%nat -> (Z.to_nat (cols_ m) <= fuel)%nat ->
  exists res w1 w2,
    transposed throws fuel (mk_world m k) = (Ok res, w1) /\ this w1 = m /\
    rows_ res = cols_ m /\ cols_ res = rows_ m /\
    (forall a b, 0 <= a < rows_ m -> 0 <= b < cols_ m -> elem res b a = elem m a b) /\
    transposed throws fuel (mk_world res (clock w1)) = (Ok m, w2).
Proof.
  intros Hq Hwf Hsize Hrows Hcols Hfr Hfc.
  destruct (transposed_correct throws Hq fuel (mk_world m k))
    as (res & w1 & E1 & Ht1 & Hr1 & Hc1 & Hwf1 & He1); try assumption.
  simpl in *.
  destruct (transposed_correct throws Hq fuel (mk_world res (clock w1)))
    as (res2 & w2 & E2 & Ht2 & Hr2 & Hc2 & Hwf2 & He2); simpl; try assumption;
    try (rewrite ?Hr1, ?Hc1; assumption).
  simpl in *.
  exists res, w1, w2. repeat split; try assumption.
  rewrite E2. do 2 f_equal.
  apply array2d_ext; try assumption; try congruence.
  intros a b Ha Hb. rewrite He2 by lia. apply He1; lia.
Qed.

(** ** In-place transposition, for elements of at most 64 bytes *)

Section TransposeLoops.

Context {Ty : Type} {ET : ElemTraits Ty}.
Variable m : array2d Ty.
Hypothesis Hwf : wf m.
Hypothesis Hsq : rows_ m = cols_ m.
Hypothesis Hsize : 0 < sizeof_Ty <= 64.

Local Abbreviation n := (cols_ m).
Local Abbreviation d0 := (data_ m).

Lemma square_side_small : n < 65536.
Proof. destruct Hwf as (Hr & Hc & _ & Hfit). rewrite Hsq in Hfit. unfold SIZE_MAX in Hfit. nia. Qed.

Lemma swapped_upto_equiv (S S' : Z -> Z -> Prop) d :
  (forall a b, 0 <= a -> a < b -> b < n -> (S a b <-> S' a b)) ->
  swapped_upto n d0 S d -> swapped_upto n d0 S' d.
Proof.
  intros Heq (Hl & Hdiag & Hp). split; [assumption|]. split; [assumption|].
  intros a b Ha Hab Hb. destruct (Hp a b Ha Hab Hb) as [H1 H2].
  specialize (Heq a b Ha Hab Hb). split; intros H; [apply H1|apply H2]; tauto.
Qed.

Lemma swap_at_lookup (d : list Ty) p q :
  0 <= p < Z.of_nat (length d) -> 0 <= q < Z.of_nat (length d) -> p <> q ->
  exists d',
    swap_at d p q = Ok d' /\ length d' = length d /\
    forall k, 0 <= k ->
      d' !! Z.to_nat k =
      if k =? q then d !! Z.to_nat p else if k =? p then d !! Z.to_nat q else d !! Z.to_nat k.
Proof.
  intros Hp Hq Hne. unfold swap_at.
  destruct (load_in d p Hp) as (x & Hx & ->). destruct (load_in d q Hq) as (y & Hy & ->).
  simpl. rewrite store_in by assumption. simpl.
  rewrite store_in by (rewrite length_insert; assumption).
  eexists. split; [reflexivity|]. split; [now rewrite !length_insert|].
  intros k Hk. rewrite lookup_stored by (rewrite ?length_insert; lia).
  destruct (Z.eqb_spec k q); [now rewrite Hx|].
  rewrite lookup_stored by lia.
  destruct (Z.eqb_spec k p); [now rewrite Hy|reflexivity].
Qed.

Lemma transpose_swap_step (S : Z -> Z -> Prop) d bi bj :
  swapped_upto n d0 S d -> 0 <= bi -> bi < bj -> bj < n -> ~ S bi bj ->
  exists d',
    swap_at d (subscript m bi bj) (subscript m bj bi) = Ok d' /\
    swapped_upto n d0 (fun a b => S a b \/ (a = bi /\ b = bj)) d'.
Proof.
  intros (Hl & Hdiag & Hp) Hbi Hlt Hbj HnS.
  pose proof Hwf as (Hr & Hc & Hlen & Hfit).
  rewrite (subscript_cell m bi bj) by (try assumption; lia).
  rewrite (subscript_cell m bj bi) by (try assumption; lia).
  assert (Hpq : bi * n + bj <> bj * n + bi).
  { intros E. apply cell_index_inj in E; lia. }
  destruct (swap_at_lookup d (bi * n + bj) (bj * n + bi)) as (d' & -> & Hl' & Hd');
    [nia|nia|assumption|].
  exists d'. split; [reflexivity|]. split; [congruence|]. split.
  - intros a Ha. rewrite Hd' by nia.
    destruct (Z.eqb_spec (a * n + a) (bj * n + bi)) as [E|_];
      [apply cell_index_inj in E; lia|].
    destruct (Z.eqb_spec (a * n + a) (bi * n + bj)) as [E|_];
      [apply cell_index_inj in E; lia|].
    now apply Hdiag.
  - intros a b Ha Hab Hb. rewrite !Hd' by nia.
    destruct (Hp bi bj Hbi Hlt Hbj) as [_ Hkeep]. destruct (Hkeep HnS) as [K1 K2].
    destruct (Z.eqb_spec (a * n + b) (bj * n + bi)) as [E|_];
      [apply cell_index_inj in E; lia|].
    destruct (Z.eqb_spec (b * n + a) (bi * n + bj)) as [E|_];
      [apply cell_index_inj in E; lia|].
    destruct (Z.eqb_spec (a * n + b) (bi * n + bj)) as [E|Hne1].
    + apply cell_index_inj in E; [|lia|lia]. destruct E as [-> ->].
      destruct (Z.eqb_spec (bj * n + bi) (bj * n + bi)); [|lia].
      split; [intros _; auto|]. intros Hn. exfalso. apply Hn. now right.
    + destruct (Z.eqb_spec (b * n + a) (bj * n + bi)) as [E|_].
      { apply cell_index_inj in E; [|lia|lia]. destruct E as [-> ->]. lia. }
      destruct (Hp a b Ha Hab Hb) as [H1 H2]. split.
      * intros [HS|[-> ->]]; [now apply H1|lia].
      * intros Hn. apply H2. tauto.
Qed.

Lemma transpose_bj_loop (S : Z -> Z -> Prop) d bi start_j j_end :
  swapped_upto n d0 S d -> 0 <= bi -> bi < start_j -> start_j <= j_end -> j_end <= n ->
  (forall b, start_j <= b < j_end -> ~ S bi b) ->
  exists d',
    for_range start_j j_end
      (fun bj d => swap_at d (subscript m bi bj) (subscript m bj bi)) d = Ok d' /\
    swapped_upto n d0 (fun a b => S a b \/ (a = bi /\ start_j <= b < j_end)) d'.
Proof.
  intros Hd Hbi Hst Hje Hjn HnS.
  apply (for_range_inv
           (fun bj d =>
              swapped_upto n d0 (fun a b => S a b \/ (a = bi /\ start_j <= b < bj)) d));
    [assumption| |].
  - eapply swapped_upto_equiv; [|exact Hd]. intros a b _ _ _. split; [tauto|].
    intros [H|H]; [assumption|lia].
  - intros bj d1 Hbj Hd1.
    destruct (transpose_swap_step _ d1 bi bj Hd1) as (d2 & E & Hd2); try lia.
    { intros [H|H]; [apply (HnS bj); [lia|assumption]|lia]. }
    exists d2. split; [assumption|].
    eapply swapped_upto_equiv; [|exact Hd2]. intros a b _ _ _. split.
    + intros [[H|H]|H]; [now left|right; lia|right; lia].
    + intros [H|H]; [now left; left|].
      destruct (Z.eq_dec b bj); [right; lia|left; right; lia].
Qed.

Lemma transpose_bi_loop (S : Z -> Z -> Prop) d i i_end j j_end :
  swapped_upto n d0 S d -> 0 <= i -> i <= i_end -> i_end <= n ->
  j <= j_end -> j_end <= n ->
  (i = j /\ i_end = j_end) \/ i_end <= j ->
  (forall a b, i <= a < i_end -> j <= b < j_end -> a < b -> ~ S a b) ->
  exists d',
    for_range i i_end
      (fun bi d =>
         let? start_j := if i =? j then int_add bi 1 else Ok j in
         for_range start_j j_end
           (fun bj d => swap_at d (subscript m bi bj) (subscript m bj bi)) d)
      d = Ok d' /\
    swapped_upto n d0 (fun a b => S a b \/ (i <= a < i_end /\ j <= b < j_end)) d'.
Proof.
  intros Hd Hi Hie Hin Hje Hjn Hblock HnS.
  pose proof square_side_small as Hsmall.
  apply (for_range_inv
           (fun bi d =>
              swapped_upto n d0 (fun a b => S a b \/ (i <= a < bi /\ j <= b < j_end)) d));
    [assumption| |].
  - eapply swapped_upto_equiv; [|exact Hd]. intros a b _ _ _. split; [tauto|].
    intros [H|H]; [assumption|lia].
  - intros bi d1 Hbi Hd1.
    assert (Hstart : exists start_j,
               (if i =? j then int_add bi 1 else Ok j) = Ok start_j /\
               bi < start_j /\ start_j <= j_end /\ j <= start_j /\
               forall b, bi < b -> j <= b -> start_j <= b).
    { destruct (Z.eqb_spec i j) as [E|E].
      - exists (bi + 1). rewrite int_add_one by (unfold INT_MAX; lia).
        repeat split; try lia.
      - exists j. repeat split; try lia. }
    destruct Hstart as (start_j & -> & Hs1 & Hs2 & Hs3 & Hs4). simpl.
    destruct (transpose_bj_loop _ d1 bi start_j j_end Hd1) as (d2 & E & Hd2); try lia.
    { intros b Hb [H|H]; [apply (HnS bi b); [lia|lia|lia|assumption]|lia]. }
    exists d2. split; [assumption|].
    eapply swapped_upto_equiv; [|exact Hd2]. intros a b Ha Hab Hb. split.
    + intros [[H|H]|H]; [now left|right; lia|right; lia].
    + intros [H|H]; [now left; left|].
      destruct (Z.eq_dec a bi) as [->|Hne]; [right|left; right; lia].
      split; [reflexivity|]. split; [apply Hs4; lia|lia].
Qed.

Lemma transpose_j_blocks fuel (S : Z -> Z -> Prop) d i i_end :
  swapped_upto n d0 S d -> 0 <= i -> i < i_end -> i_end <= n -> i_end <= i + block_size ->
  i_end = Z.min (i + block_size) n ->
  (Z.to_nat n <= fuel)%nat ->
  (forall a b, i <= a < i_end -> a < b -> ~ S a b) ->
  exists d',
    for_blocks fuel i n block_size
      (fun j d =>
         let? j_next := int_add j (to_index block_size) in
         let j_end := Z.min j_next n in
         for_range i i_end
           (fun bi d =>
              let? start_j := if i =? j then int_add bi 1 else Ok j in
              for_range start_j j_end
                (fun bj d => swap_at d (subscript m bi bj) (subscript m bj bi)) d)
           d)
      d = Ok d' /\
    swapped_upto n d0 (fun a b => S a b \/ i <= a < i_end) d'.
Proof.
  intros Hd Hi Hie Hin Hib Hmin Hfuel HnS.
  pose proof (block_size_range Hsize) as Hbs.
  pose proof square_side_small as Hsmall.
  destruct (for_blocks_inv
              (fun j d =>
                 (j = i \/ i + block_size <= j) /\
                 swapped_upto n d0 (fun a b => S a b \/ (i <= a < i_end /\ b < j)) d)
              fuel i n block_size
              (fun j d =>
                 let? j_next := int_add j (to_index block_size) in
                 let j_end := Z.min j_next n in
                 for_range i i_end
                   (fun bi d =>
                      let? start_j := if i =? j then int_add bi 1 else Ok j in
                      for_range start_j j_end
                        (fun bj d => swap_at d (subscript m bi bj) (subscript m bj bi)) d)
                   d) d) as (d' & j' & E & Hj' & Hal & Hd'); try (unfold INT_MAX; lia).
  - split; [now left|].
    eapply swapped_upto_equiv; [|exact Hd]. intros a b _ Hab _. split; [tauto|].
    intros [H|H]; [assumption|lia].
  - intros j d1 Hj [Hal Hd1]. rewrite int_add_block by (unfold INT_MAX; lia). simpl.
    destruct (transpose_bi_loop _ d1 i i_end j (Z.min (j + block_size) n) Hd1)
      as (d2 & E & Hd2); try lia.
    { intros a b Ha Hb Hab [H|H]; [apply (HnS a b); assumption|lia]. }
    exists d2. split; [assumption|]. split; [right; lia|].
    eapply swapped_upto_equiv; [|exact Hd2]. intros a b _ Hab Hb. split.
    + intros [[H|H]|H]; [now left|right; lia|right; lia].
    + intros [H|H]; [now left; left|].
      destruct (Z.lt_ge_cases b j); [left; right; lia|right; lia].
  - exists d'. split; [assumption|].
    eapply swapped_upto_equiv; [|exact Hd']. intros a b _ Hab Hb. split.
    + intros [H|H]; [now left|right; lia].
    + intros [H|H]; [now left|right; lia].
Qed.

Lemma transpose_loops_correct fuel :
  (Z.to_nat n <= fuel)%nat ->
  exists d,
    transpose_loops fuel m = Ok d /\ length d = length d0 /\
    forall a b, 0 <= a < n -> 0 <= b < n ->
      d !! Z.to_nat (a * n + b) = d0 !! Z.to_nat (b * n + a).
Proof.
  intros Hfuel. unfold transpose_loops. rewrite Hsq.
  pose proof (block_size_range Hsize) as Hbs.
  pose proof square_side_small as Hsmall.
  destruct (for_blocks_inv
              (fun i d => swapped_upto n d0 (fun a b => a < i) d)
              fuel 0 n block_size
              (fun i d =>
                 let? i_next := int_add i (to_index block_size) in
                 let i_end := Z.min i_next n in
                 for_blocks fuel i n block_size
                   (fun j d =>
                      let? j_next := int_add j (to_index block_size) in
                      let j_end := Z.min j_next n in
                      for_range i i_end
                        (fun bi d =>
                           let? start_j := if i =? j then int_add bi 1 else Ok j in
                           for_range start_j j_end
                             (fun bj d =>
                                swap_at d (subscript m bi bj) (subscript m bj bi)) d)
                        d)
                   d) d0) as (d' & i' & E & Hi' & Hd'); try (unfold INT_MAX; lia).
  - split; [reflexivity|]. split; [reflexivity|].
    intros a b Ha Hab Hb. split; [intros H; lia|auto].
  - intros i d1 Hi Hd1. rewrite int_add_block by (unfold INT_MAX; lia). simpl.
    destruct (transpose_j_blocks fuel _ d1 i (Z.min (i + block_size) n) Hd1)
      as (d2 & E & Hd2); try lia.
    exists d2. split; [assumption|].
    eapply swapped_upto_equiv; [|exact Hd2]. intros a b _ Hab Hb. cbv beta. lia.
  - exists d'. split; [assumption|].
    destruct Hd' as (Hl & Hdiag & Hp). split; [assumption|].
    intros a b Ha Hb.
    destruct (Z.lt_trichotomy a b) as [Hab|[->|Hab]].
    + destruct (Hp a b) as [H _]; try lia. apply H. cbv beta. lia.
    + apply Hdiag. lia.
    + destruct (Hp b a) as [H _]; try lia. apply H. cbv beta. lia.
Qed.

End TransposeLoops.

(** Loops throw only when their bodies do. *)
Lemma for_loop_no_throw {S : Type} n k (body : Z -> S -> outcome S) s e :
  (forall j s0 e0, body j s0 <> Throw e0) -> for_loop n k body s <> Throw e.
Proof.
  intros Hb. revert k s. induction n as [|n IH]; intros k s; simpl; [discriminate|].
  destruct (body k s) as [s1|e1| |] eqn:E; simpl; try discriminate.
  - apply IH.
  - now apply Hb in E.
Qed.

Lemma for_range_no_throw {S : Type} lo hi (body : Z -> S -> outcome S) s e :
  (forall j s0 e0, body j s0 <> Throw e0) -> for_range lo hi body s <> Throw e.
Proof. unfold for_range. apply for_loop_no_throw. Qed.

Lemma for_blocks_no_throw {S : Type} fuel k hi bs (body : Z -> S -> outcome S) s e :
  (forall j s0 e0, body j s0 <> Throw e0) -> for_blocks fuel k hi bs body s <> Throw e.
Proof.
  intros Hb. revert k s. induction fuel as [|fuel IH]; intros k s; simpl.
  - destruct (k <? hi); discriminate.
  - destruct (k <? hi); [|discriminate].
    destruct (body k s) as [s1|e1| |] eqn:E; simpl; try discriminate.
    + apply IH.
    + now apply Hb in E.
Qed.

Section TransposeCall.

Context {Ty : Type} {ET : ElemTraits Ty}.

Lemma swap_at_no_throw (d : list Ty) p q e : swap_at d p q <> Throw e.
Proof.
  unfold swap_at, load, store.
  destruct (p <? 0); simpl; [discriminate|].
  destruct (d !! Z.to_nat p); simpl; [|discriminate].
  destruct (q <? 0); simpl; [discriminate|].
  destruct (d !! Z.to_nat q); simpl; [|discriminate].
  destruct (_ && _); simpl; [|discriminate].
  destruct (_ && _); simpl; discriminate.
Qed.

Lemma int_add_no_throw a b e : int_add a b <> Throw e.
Proof. unfold int_add. destruct (is_indexb _); discriminate. Qed.

Lemma transpose_loops_no_throw fuel (m : array2d Ty) e : transpose_loops fuel m <> Throw e.
Proof.
  unfold transpose_loops. apply for_blocks_no_throw. intros i d e0.
  destruct (int_add i _) as [i_next|e1| |] eqn:Ei; simpl; try discriminate;
    [|now apply int_add_no_throw in Ei].
  apply for_blocks_no_throw. intros j d1 e1.
  destruct (int_add j _) as [j_next|e2| |] eqn:Ej; simpl; try discriminate;
    [|now apply int_add_no_throw in Ej].
  apply for_range_no_throw. intros bi d2 e2.
  destruct (if i =? j then int_add bi 1 else Ok j) as [start_j|e3| |] eqn:Es; simpl;
    try discriminate.
  - apply for_range_no_throw. intros bj d3 e3. apply swap_at_no_throw.
  - destruct (i =? j); [now apply int_add_no_throw in Es|discriminate].
Qed.

(** [transpose()] throws exactly on a container that is not square: then
    it throws [std::invalid_argument] and leaves the container as it was. *)
Lemma transpose_throws_iff fuel (w : world Ty) :
  ((exists e, fst (transpose fuel w) = Throw e) <-> rows_ (this w) <> cols_ (this w)) /\
  (rows_ (this w) <> cols_ (this w) ->
   transpose fuel w =
   (Throw (invalid_argument "transpose: matrix must be square for in-place transpose"), w)).
Proof.
  unfold transpose. rewrite bind_get_this. unfold is_square.
  destruct (Z.eqb_spec (rows_ (this w)) (cols_ (this w))) as [Heq|Hne]; simpl.
  - split; [|contradiction]. split; [|contradiction].
    intros [e He]. exfalso. revert He. unfold bind, lift, set_data.
    destruct (transpose_loops fuel (this w)) as [d|e1| |] eqn:E; simpl; try discriminate.
    now apply transpose_loops_no_throw in E.
  - split; [|reflexivity]. split; [auto|]. intros _. eexists. reflexivity.
Qed.

(** For elements of at most 64 bytes and enough fuel, [transpose()] on a
    square container returns, keeps the dimensions and makes element
    [(a, b)] the old element [(b, a)]. *)
Lemma transpose_correct fuel (w : world Ty) :
  wf (this w) -> rows_ (this w) = cols_ (this w) -> 0 < sizeof_Ty <= 64 ->
  (Z.to_nat (cols_ (this w)) <= fuel)%nat ->
  exists w',
    transpose fuel w = (Ok tt, w') /\
    rows_ (this w') = rows_ (this w) /\ cols_ (this w') = cols_ (this w) /\
    wf (this w') /\
    forall a b, 0 <= a < rows_ (this w) -> 0 <= b < cols_ (this w) ->
      elem (this w') a b = elem (this w) b a.
Proof.
  intros Hwf Hsq Hsize Hfuel.
  destruct (transpose_loops_correct (this w) Hwf Hsq Hsize fuel Hfuel) as (d & El & Hl & Hd).
  unfold transpose. rewrite bind_get_this. unfold is_square.
  destruct (Z.eqb_spec (rows_ (this w)) (cols_ (this w))) as [_|Hne]; [|contradiction].
  simpl. unfold bind, lift. rewrite El. unfold set_data.
  eexists. split; [reflexivity|]. simpl.
  split; [reflexivity|]. split; [reflexivity|]. split.
  - eapply wf_same_shape; [exact Hwf|reflexivity|reflexivity|exact Hl].
  - intros a b Ha Hb. unfold elem. simpl. apply Hd; lia.
Qed.

(** In place and out of place agree on square containers of elements of
    at most 64 bytes. *)
Lemma transpose_agrees_with_transposed (throws : nat -> option exn) fuel (w : world Ty) :
  quiet throws -> wf (this w) -> rows_ (this w) = cols_ (this w) -> 0 < sizeof_Ty <= 64 ->
  (Z.to_nat (cols_ (this w)) <= fuel)%nat ->
  exists res w1 w2,
    transposed throws fuel w = (Ok res, w1) /\ this w1 = this w /\
    transpose fuel w = (Ok tt, w2) /\ this w2 = res.
Proof.
  intros Hq Hwf Hsq Hsize Hfuel.
  pose proof (square_side_small (this w) Hwf Hsq) as Hsmall.
  pose proof (block_size_range Hsize) as Hbs.
  destruct (transposed_correct throws Hq fuel w)
    as (res & w1 & E1 & Ht1 & Hr1 & Hc1 & Hwf1 & He1); try assumption;
    try (unfold INT_MAX; lia).
  destruct (transpose_correct fuel w Hwf Hsq Hsize Hfuel)
    as (w2 & E2 & Hr2 & Hc2 & Hwf2 & He2).
  exists res, w1, w2. repeat split; try assumption.
  apply array2d_ext; try assumption; try congruence.
  intros a b Ha Hb. rewrite He2 by lia. symmetry. apply He1; lia.
Qed.

End TransposeCall.

(** ** Copy assignment that throws *)

(** The defaulted copy assignment assigns [rows_] and [cols_] before it
    copies the buffer: when the source does not fit the capacity and the
    allocation of the new storage throws, the dimensions are those of
    [other] and the buffer is still the old one. *)
Lemma assign_copy_throw_tears_shape :
  let out := run (assign_copy (Ty := Z) first_allocation_fails 6 m_3x3) m_2x3 in
  out = (Throw bad_alloc, mk_array2d 3 3 [1; 2; 3; 4; 5; 6]) /\
  size (snd out) <> rows (snd out) * cols (snd out).
Proof. split; [reflexivity|vm_compute; discriminate]. Qed.

(** ** Worked scenarios *)

Example scenario_fill_construct :
  fst (construct (ctor_dims_val never_throws 3 4 42) 0) =
  Ok (mk_array2d 3 4 (replicate 12 42)).
Proof. reflexivity. Qed.

Example scenario_nested_list :
  fst (construct (ctor_init_list never_throws [[1; 2; 3]; [4; 5; 6]]) 0) = Ok m_2x3 /\
  fst (run (at_ 2 0) m_2x3) =
  Throw (out_of_range "array2d: index (2, 0) out of range [0, 2) x [0, 3)").
Proof. split; reflexivity. Qed.

Example scenario_ragged_list :
  fst (construct (ctor_init_list never_throws [[1; 2; 3]; [4; 5]]) 0) =
  Throw (invalid_argument "All rows must have the same number of columns").
Proof. reflexivity. Qed.

Example scenario_transposed :
  run (transposed (ET := int_traits) never_throws 3) m_2x3 =
  (Ok (mk_array2d 3 2 [1; 4; 2; 5; 3; 6]), m_2x3).
Proof. reflexivity. Qed.

Example scenario_transpose_square :
  run (transpose (ET := int_traits) 3) m_3x3 =
  (Ok tt, mk_array2d 3 3 [1; 4; 7; 2; 5; 8; 3; 6; 9]).
Proof. reflexivity. Qed.

Example scenario_resize_grow :
  run (resize_val (ET := int_traits) never_throws 4 4 999) (mk_array2d 2 2 [1; 2; 3; 4]) =
  (Ok tt, mk_array2d 4 4 [1; 2; 999; 999; 3; 4; 999; 999;
                          999; 999; 999; 999; 999; 999; 999; 999]).
Proof. reflexivity. Qed.

Example scenario_resize_to_zero_and_back :
  run (let* _ := resize (ET := int_traits) never_throws 0 0 in
       resize (ET := int_traits) never_throws 2 2) m_2x3 =
  (Ok tt, mk_array2d 2 2 [0; 0; 0; 0]).
Proof. reflexivity. Qed.

Example scenario_invalid_arguments :
  fst (construct (ctor_dims (ET := int_traits) never_throws (-1) 5) 0) =
  Throw (invalid_argument "rows must be non-negative") /\
  run (transpose (ET := int_traits) 3) m_2x3 =
  (Throw (invalid_argument "transpose: matrix must be square for in-place transpose"), m_2x3).
Proof. split; reflexivity. Qed.

Example scenario_swap_and_fill_rows :
  run (let* _ := swap_rows 0 1 in fill_row 0 7) m_2x3 =
  (Ok tt, mk_array2d 2 3 [7; 7; 7; 1; 2; 3]).
Proof. reflexivity. Qed.

Example scenario_overflow :
  fst (construct (ctor_dims (ET := int_traits) never_throws 65536 65536) 0) =
  Throw (overflow_error "Matrix size calculation overflow").
Proof. reflexivity. Qed.

Example scenario_strings :
  run (let* _ := copy_row (ET := string_traits) 0 1 in
       resize (ET := string_traits) never_throws 3 1)
    (mk_array2d 2 1 ["a"; "b"]%string) =
  (Ok tt, mk_array2d 3 1 ["a"; "a"; ""]%string).
Proof. reflexivity. Qed.

Example scenario_throwing_element :
  run (resize (ET := string_traits) throws_after_five 5 5)
    (mk_array2d 2 2 ["a"; "b"; "c"; "d"]%string) =
  (Throw (element_error "Construction failed"), mk_array2d 2 2 ["a"; "b"; "c"; "d"]%string).
Proof. reflexivity. Qed.

(** * Further properties *)

(** ** Transposition of elements of at most 64 bytes *)

Lemma wf_m_2x3 : wf m_2x3.
Proof. unfold wf, INT_MAX, SIZE_MAX. simpl. lia. Qed.

Lemma wf_m_3x3 : wf m_3x3.
Proof. unfold wf, INT_MAX, SIZE_MAX. simpl. lia. Qed.

Lemma wf_m_3x4 : wf m_3x4.
Proof. unfold wf, INT_MAX, SIZE_MAX. simpl. lia. Qed.

Lemma quiet_never_throws : quiet never_throws.
Proof. intros k. reflexivity. Qed.

(** X1: for elements of at most 64 bytes, dimensions that leave room for
    one block below [INT_MAX], an environment in which nothing fails and
    enough fuel, [transposed()] returns a [cols() x rows()] container whose
    element [(b, a)] is element [(a, b)] of [this], and [this] is as it was. *)
Theorem transposed_is_transpose {Ty : Type} {ET : ElemTraits Ty}
  (throws : nat -> option exn) (fuel : nat) (m : array2d Ty) (k : nat) :
  quiet throws -> wf m -> 0 < sizeof_Ty <= 64 ->
  rows m + block_size <= INT_MAX + 1 -> cols m + block_size <= INT_MAX + 1 ->
  (Z.to_nat (rows m) <= fuel)%nat -> (Z.to_nat (cols m) <= fuel)%nat ->
  exists res w',
    transposed throws fuel (mk_world m k) = (Ok res, w') /\ this w' = m /\
    rows res = cols m /\ cols res = rows m /\ size res = size m /\
    forall a b, 0 <= a < rows m -> 0 <= b < cols m -> elem res b a = elem m a b.
Proof.
  unfold rows, cols. intros Hq Hwf Hsize Hr Hc Hfr Hfc.
  destruct (transposed_correct throws Hq fuel (mk_world m k))
    as (res & w' & E & Ht & Hrr & Hrc & Hwfr & He); try assumption.
  simpl in *. exists res, w'. repeat split; try assumption.
  rewrite (wf_size res Hwfr), (wf_size m Hwf). unfold rows, cols. rewrite Hrr, Hrc. lia.
Qed.

Lemma transposed_is_transpose_witness :
  exists res w',
    transposed (ET := int_traits) never_throws 3 (mk_world m_2x3 0) = (Ok res, w') /\
    this w' = m_2x3 /\ elem res 2 1 = elem m_2x3 1 2.
Proof.
  destruct (transposed_is_transpose (ET := int_traits) never_throws 3 m_2x3 0)
    as (res & w' & E & Ht & _ & _ & _ & He).
  - exact quiet_never_throws.
  - exact wf_m_2x3.
  - simpl. lia.
  - vm_compute. discriminate.
  - vm_compute. discriminate.
  - simpl. lia.
  - simpl. lia.
  - exists res, w'. split; [exact E|]. split; [exact Ht|].
    apply He; unfold rows, cols; simpl; lia.
Defined.

(** X2: under the same conditions, transposing the transposed container
    gives back the container it started from. *)
Theorem transposed_twice_is_identity {Ty : Type} {ET : ElemTraits Ty}
  (throws : nat -> option exn) (fuel : nat) (m : array2d Ty) (k : nat) :
  quiet throws -> wf m -> 0 < sizeof_Ty <= 64 ->
  rows m + block_size <= INT_MAX + 1 -> cols m + block_size <= INT_MAX + 1 ->
  (Z.to_nat (rows m) <= fuel)%nat -> (Z.to_nat (cols m) <= fuel)%nat ->
  exists res w1 w2,
    transposed throws fuel (mk_world m k) = (Ok res, w1) /\
    transposed throws fuel (mk_world res (clock w1)) = (Ok m, w2).
Proof.
  unfold rows, cols. intros Hq Hwf Hsize Hr Hc Hfr Hfc.
  destruct (transposed_round_trip throws fuel m k Hq Hwf Hsize Hr Hc Hfr Hfc)
    as (res & w1 & w2 & E1 & _ & _ & _ & _ & E2).
  exists res, w1, w2. auto.
Qed.

Lemma transposed_twice_is_identity_witness :
  exists res w1 w2,
    transposed (ET := int_traits) never_throws 3 (mk_world m_2x3 0) = (Ok res, w1) /\
    transposed (ET := int_traits) never_throws 3 (mk_world res (clock w1)) = (Ok m_2x3, w2).
Proof.
  apply (transposed_twice_is_identity (ET := int_traits) never_throws 3 m_2x3 0).
  - exact quiet_never_throws.
  - exact wf_m_2x3.
  - simpl. lia.
  - vm_compute. discriminate.
  - vm_compute. discriminate.
  - simpl. lia.
  - simpl. lia.
Defined.

(** X3: for elements of at most 64 bytes and enough fuel, [transpose()] on
    a square container returns, keeps [rows()], [cols()] and [size()], and
    makes element [(a, b)] the former element [(b, a)]; the diagonal stays. *)
Theorem transpose_in_place {Ty : Type} {ET : ElemTraits Ty}
  (fuel : nat) (m : array2d Ty) (k : nat) :
  wf m -> rows m = cols m -> 0 < sizeof_Ty <= 64 -> (Z.to_nat (cols m) <= fuel)%nat ->
  exists w',
    transpose fuel (mk_world m k) = (Ok tt, w') /\
    rows (this w') = rows m /\ cols (this w') = cols m /\ size (this w') = size m /\
    (forall a b, 0 <= a < rows m -> 0 <= b < cols m ->
       elem (this w') a b = elem m b a) /\
    (forall a, 0 <= a < rows m -> elem (this w') a a = elem m a a).
Proof.
  unfold rows, cols. intros Hwf Hsq Hsize Hfuel.
  destruct (transpose_correct fuel (mk_world m k) Hwf Hsq Hsize Hfuel)
    as (w' & E & Hr & Hc & Hwf' & He).
  simpl in *. exists w'. split; [assumption|]. split; [assumption|]. split; [assumption|].
  split; [|split; [assumption|]].
  - rewrite (wf_size _ Hwf'), (wf_size m Hwf). unfold rows, cols. now rewrite Hr, Hc.
  - intros a Ha. apply He; lia.
Qed.

Lemma transpose_in_place_witness :
  exists w',
    transpose (ET := int_traits) 3 (mk_world m_3x3 0) = (Ok tt, w') /\
    elem (this w') 0 2 = elem m_3x3 2 0.
Proof.
  destruct (transpose_in_place (ET := int_traits) 3 m_3x3 0) as (w' & E & _ & _ & _ & He & _).
  - exact wf_m_3x3.
  - reflexivity.
  - simpl. lia.
  - simpl. lia.
  - exists w'. split; [exact E|]. apply He; unfold rows, cols; simpl; lia.
Defined.

(** X4: on a square container of elements of at most 64 bytes,
    [transpose()] leaves in [this] exactly the container [transposed()]
    returns. *)
Theorem transpose_matches_transposed {Ty : Type} {ET : ElemTraits Ty}
  (throws : nat -> option exn) (fuel : nat) (m : array2d Ty) (k : nat) :
  quiet throws -> wf m -> rows m = cols m -> 0 < sizeof_Ty <= 64 ->
  (Z.to_nat (cols m) <= fuel)%nat ->
  exists res w1 w2,
    transposed throws fuel (mk_world m k) = (Ok res, w1) /\
    transpose fuel (mk_world m k) = (Ok tt, w2) /\ this w2 = res.
Proof.
  unfold rows, cols. intros Hq Hwf Hsq Hsize Hfuel.
  destruct (transpose_agrees_with_transposed throws fuel (mk_world m k) Hq Hwf Hsq Hsize Hfuel)
    as (res & w1 & w2 & E1 & _ & E2 & Ht).
  exists res, w1, w2. auto.
Qed.

Lemma transpose_matches_transposed_witness :
  exists res w1 w2,
    transposed (ET := int_traits) never_throws 3 (mk_world m_3x3 0) = (Ok res, w1) /\
    transpose (ET := int_traits) 3 (mk_world m_3x3 0) = (Ok tt, w2) /\ this w2 = res.
Proof.
  apply (transpose_matches_transposed (ET := int_traits) never_throws 3 m_3x3 0).
  - exact quiet_never_throws.
  - exact wf_m_3x3.
  - reflexivity.
  - simpl. lia.
  - simpl. lia.
Defined.


(** ** Row operations *)

Section RowOperations.

Context {Ty : Type}.
Implicit Types m : array2d Ty.

Lemma swap_rows_spec m r1 r2 k :
  wf m -> 0 <= r1 < rows_ m -> 0 <= r2 < rows_ m ->
  exists d,
    swap_rows r1 r2 (mk_world m k) = (Ok tt, mk_world (mk_array2d (rows_ m) (cols_ m) d) k) /\
    length d = length (data_ m) /\
    forall r c, 0 <= r < rows_ m -> 0 <= c < cols_ m ->
      d !! Z.to_nat (r * cols_ m + c) =
      if r =? r1 then elem m r2 c else if r =? r2 then elem m r1 c else elem m r c.
Proof.
  intros Hwf H1 H2. unfold swap_rows. rewrite bind_get_this. cbn [this].
  destruct (Z.eqb_spec r1 r2) as [->|Hne].
  { exists (data_ m). unfold ret. destruct m as [r c d]. simpl.
    split; [reflexivity|]. split; [reflexivity|].
    intros r0 c0 Hr0 Hc0. unfold elem. simpl.
    destruct (Z.eqb_spec r0 r2) as [->|_]; reflexivity. }
  pose proof Hwf as (Hr & Hc & Hlen & Hfit).
  rewrite !calculate_offset_row by assumption. cbn [this].
  rewrite (to_size_index (cols_ m)) by lia.
  pose proof (row_range_bounds (rows_ m) (cols_ m) r1 ltac:(lia) H1) as [Ha0 Ha1].
  pose proof (row_range_bounds (rows_ m) (cols_ m) r2 ltac:(lia) H2) as [Hb0 Hb1].
  pose proof (rows_disjoint (cols_ m) r1 r2 ltac:(lia) Hne) as Hdis.
  set (o1 := r1 * cols_ m) in *. set (o2 := r2 * cols_ m) in *.
  destruct (for_range_inv
              (fun i d =>
                 length d = length (data_ m) /\
                 forall p, 0 <= p ->
                   d !! Z.to_nat p =
                   if (o1 <=? p) && (p <? o1 + i) then data_ m !! Z.to_nat (o2 + (p - o1))
                   else if (o2 <=? p) && (p <? o2 + i) then data_ m !! Z.to_nat (o1 + (p - o2))
                   else data_ m !! Z.to_nat p)
              0 (cols_ m)
              (fun i d => swap_at d (to_size (o1 + i)) (to_size (o2 + i)))
              (data_ m)) as (d & E & Hl & Hd); [lia| | |].
  - split; [reflexivity|]. intros p Hp.
    destruct (Z.leb_spec o1 p); destruct (Z.ltb_spec p (o1 + 0));
      destruct (Z.leb_spec o2 p); destruct (Z.ltb_spec p (o2 + 0)); simpl;
      try reflexivity; lia.
  - intros i d [Hi0 Hi1] [Hl Hd].
    rewrite !to_size_small by lia.
    destruct (swap_at_lookup d (o1 + i) (o2 + i)) as (d' & -> & Hl' & Hd'); [lia|lia|lia|].
    exists d'. split; [reflexivity|]. split; [congruence|].
    intros p Hp. rewrite Hd' by assumption. rewrite !Hd by lia.
    destruct (Z.eqb_spec p (o2 + i)) as [->|Hq];
      [|destruct (Z.eqb_spec p (o1 + i)) as [->|Hq1]];
      repeat match goal with
             | |- context [Z.leb ?a ?b] => destruct (Z.leb_spec a b)
             | |- context [Z.ltb ?a ?b] => destruct (Z.ltb_spec a b)
             end; simpl; try lia; try reflexivity; f_equal; lia.
  - exists d. unfold bind, lift. rewrite E. unfold set_data. simpl.
    split; [reflexivity|]. split; [assumption|].
    intros r c Hr0 Hc0. rewrite Hd by nia. unfold elem.
    fold o1 o2.
    replace ((o1 <=? r * cols_ m + c) && (r * cols_ m + c <? o1 + cols_ m)) with (r =? r1)
      by (symmetry; apply cell_in_row; assumption).
    replace ((o2 <=? r * cols_ m + c) && (r * cols_ m + c <? o2 + cols_ m)) with (r =? r2)
      by (symmetry; apply cell_in_row; assumption).
    destruct (Z.eqb_spec r r1) as [->|_]; [f_equal; unfold o1, o2; lia|].
    destruct (Z.eqb_spec r r2) as [->|_]; [f_equal; unfold o1, o2; lia|reflexivity].
Qed.

Lemma fill_row_spec m r val k :
  wf m -> 0 <= r < rows_ m ->
  exists d,
    fill_row r val (mk_world m k) = (Ok tt, mk_world (mk_array2d (rows_ m) (cols_ m) d) k) /\
    length d = length (data_ m) /\
    forall r0 c, 0 <= r0 < rows_ m -> 0 <= c < cols_ m ->
      d !! Z.to_nat (r0 * cols_ m + c) = if r0 =? r then Some val else elem m r0 c.
Proof.
  intros Hwf H1. unfold fill_row. rewrite bind_get_this. cbn [this].
  pose proof Hwf as (Hr & Hc & Hlen & Hfit).
  rewrite calculate_offset_row by assumption. cbn [this].
  pose proof (row_range_bounds (rows_ m) (cols_ m) r ltac:(lia) H1) as [Ha0 Ha1].
  destruct (for_range_inv
              (fun i d =>
                 length d = length (data_ m) /\
                 forall p, 0 <= p ->
                   d !! Z.to_nat p =
                   if (r * cols_ m <=? p) && (p <? r * cols_ m + i) then Some val
                   else data_ m !! Z.to_nat p)
              0 (cols_ m)
              (fun i d => store d (r * cols_ m + i) val)
              (data_ m)) as (d & E & Hl & Hd); [lia| | |].
  - split; [reflexivity|]. intros p Hp.
    destruct (Z.leb_spec (r * cols_ m) p); destruct (Z.ltb_spec p (r * cols_ m + 0)); simpl;
      try reflexivity; lia.
  - intros i d [Hi0 Hi1] [Hl Hd]. rewrite store_in by lia.
    eexists. split; [reflexivity|]. split; [now rewrite length_insert|].
    intros p Hp. rewrite lookup_stored by lia. rewrite Hd by assumption.
    destruct (Z.eqb_spec p (r * cols_ m + i)) as [->|Hne];
      repeat match goal with
             | |- context [Z.leb ?a ?b] => destruct (Z.leb_spec a b)
             | |- context [Z.ltb ?a ?b] => destruct (Z.ltb_spec a b)
             end; simpl; try lia; reflexivity.
  - exists d. unfold bind, lift. rewrite E. unfold set_data. simpl.
    split; [reflexivity|]. split; [assumption|].
    intros r0 c Hr0 Hc0. rewrite Hd by nia.
    rewrite cell_in_row by assumption. reflexivity.
Qed.

End RowOperations.

(** X6: on a well-formed container with valid rows, [swap_rows(row1, row2)]
    returns, keeps the dimensions, puts the former row [row2] in row [row1]
    and the former row [row1] in row [row2], and leaves every other row as
    it was. *)
Theorem swap_rows_exchanges {Ty : Type} (m : array2d Ty) (row1 row2 : Z) (k : nat) :
  wf m -> 0 <= row1 < rows m -> 0 <= row2 < rows m ->
  let out := swap_rows row1 row2 (mk_world m k) in
  let m' := this (snd out) in
  fst out = Ok tt /\ rows m' = rows m /\ cols m' = cols m /\
  forall r c, 0 <= r < rows m -> 0 <= c < cols m ->
    elem m' r c =
    if r =? row1 then elem m row2 c else if r =? row2 then elem m row1 c else elem m r c.
Proof.
  unfold rows, cols. intros Hwf H1 H2. cbv zeta.
  destruct (swap_rows_spec m row1 row2 k Hwf H1 H2) as (d & -> & Hl & Hd).
  simpl. repeat split. exact Hd.
Qed.

Lemma swap_rows_exchanges_witness :
  wf m_2x3 /\
  elem (this (snd (swap_rows 0 1 (mk_world m_2x3 0)))) 0 2 = elem m_2x3 1 2.
Proof.
  split; [exact wf_m_2x3|].
  destruct (swap_rows_exchanges m_2x3 0 1 0 wf_m_2x3) as (_ & _ & _ & H);
    [unfold rows; simpl; lia|unfold rows; simpl; lia|].
  apply (H 0 2); [unfold rows; simpl; lia|unfold cols; simpl; lia].
Defined.

(** X7: swapping the same two valid rows twice gives the container back. *)
Theorem swap_rows_twice {Ty : Type} (m : array2d Ty) (row1 row2 : Z) (k : nat) :
  wf m -> 0 <= row1 < rows m -> 0 <= row2 < rows m ->
  (let* _ := swap_rows row1 row2 in swap_rows row1 row2) (mk_world m k) =
  (Ok tt, mk_world m k).
Proof.
  unfold rows. intros Hwf H1 H2. unfold bind at 1.
  destruct (swap_rows_spec m row1 row2 k Hwf H1 H2) as (d & -> & Hl & Hd).
  set (m1 := mk_array2d (rows_ m) (cols_ m) d).
  assert (Hwf1 : wf m1).
  { eapply wf_same_shape; [exact Hwf|reflexivity|reflexivity|exact Hl]. }
  destruct (swap_rows_spec m1 row1 row2 k Hwf1 H1 H2) as (d2 & -> & Hl2 & Hd2).
  simpl. do 2 f_equal.
  apply array2d_ext; try reflexivity; try assumption.
  { eapply wf_same_shape; [exact Hwf1|reflexivity|reflexivity|exact Hl2]. }
  intros a b Ha Hb. unfold elem at 1. simpl in *. rewrite Hd2 by assumption.
  unfold elem, m1. simpl.
  destruct (Z.eqb_spec a row1) as [->|Hn1].
  - rewrite Hd by assumption. rewrite Z.eqb_refl.
    destruct (Z.eqb_spec row2 row1) as [->|_]; reflexivity.
  - destruct (Z.eqb_spec a row2) as [->|Hn2].
    + rewrite Hd by assumption. rewrite Z.eqb_refl. reflexivity.
    + rewrite Hd by assumption.
      destruct (Z.eqb_spec a row1); [contradiction|].
      destruct (Z.eqb_spec a row2); [contradiction|reflexivity].
Qed.

Lemma swap_rows_twice_witness :
  (let* _ := swap_rows 0 1 in swap_rows 0 1) (mk_world m_2x3 0) = (Ok tt, mk_world m_2x3 0).
Proof.
  apply (swap_rows_twice m_2x3 0 1 0 wf_m_2x3); unfold rows; simpl; lia.
Defined.

(** X8: on a well-formed container with a valid row, [fill_row(row, val)]
    returns, keeps the dimensions, makes every element of that row [val]
    and leaves every other row as it was. *)
Theorem fill_row_frame {Ty : Type} (m : array2d Ty) (row : Z) (val : Ty) (k : nat) :
  wf m -> 0 <= row < rows m ->
  let out := fill_row row val (mk_world m k) in
  let m' := this (snd out) in
  fst out = Ok tt /\ rows m' = rows m /\ cols m' = cols m /\
  forall r c, 0 <= r < rows m -> 0 <= c < cols m ->
    elem m' r c = if r =? row then Some val else elem m r c.
Proof.
  unfold rows, cols. intros Hwf H1. cbv zeta.
  destruct (fill_row_spec m row val k Hwf H1) as (d & -> & Hl & Hd).
  simpl. repeat split. exact Hd.
Qed.

Lemma fill_row_frame_witness :
  wf m_2x3 /\
  elem (this (snd (fill_row 1 7 (mk_world m_2x3 0)))) 1 2 = Some 7 /\
  elem (this (snd (fill_row 1 7 (mk_world m_2x3 0)))) 0 2 = elem m_2x3 0 2.
Proof.
  split; [exact wf_m_2x3|].
  destruct (fill_row_frame m_2x3 1 7 0 wf_m_2x3) as (_ & _ & _ & H); [unfold rows; simpl; lia|].
  split; [apply (H 1 2)|apply (H 0 2)]; unfold rows, cols; simpl; lia.
Defined.

(** ** Construction from values *)

Section ConstructionFromValues.

Context {Ty : Type} {ET : ElemTraits Ty}.
Variable throws : nat -> option exn.

Lemma lookup_concat_uniform (c : nat) (l : list (list Ty)) (i j : nat) :
  Forall (fun row => length row = c) l -> (j < c)%nat ->
  concat l !! (i * c + j)%nat = l !! i ≫= (fun row => row !! j).
Proof.
  intros Hl Hj. revert i. induction Hl as [|row rest Hrow _ IH]; intros i.
  - reflexivity.
  - destruct i as [|i]; simpl.
    + rewrite lookup_app_l by lia. reflexivity.
    + rewrite lookup_app_r by lia. rewrite <- IH. f_equal. lia.
Qed.

Lemma check_row_lengths_uniform cols (l : list (list Ty)) :
  Forall (fun row => to_index (Z.of_nat (length row)) = cols) l ->
  check_row_lengths cols l = Ok tt.
Proof.
  induction 1 as [|row rest Hrow _ IH]; simpl; [reflexivity|].
  rewrite Hrow, Z.eqb_refl. exact IH.
Qed.

Lemma check_row_lengths_ragged cols (l : list (list Ty)) :
  Exists (fun row => to_index (Z.of_nat (length row)) <> cols) l ->
  check_row_lengths cols l =
  Throw (invalid_argument "All rows must have the same number of columns").
Proof.
  induction l as [|row rest IH]; intros H; [inversion H|]. simpl.
  destruct (Z.eqb_spec (to_index (Z.of_nat (length row))) cols) as [E|_]; [|reflexivity].
  apply IH. inversion H; subst; [contradiction|assumption].
Qed.

Lemma insert_rows_quiet (l : list (list Ty)) (w : world Ty) :
  quiet throws ->
  exists k,
    insert_rows throws l w =
    (Ok tt, mk_world (mk_array2d (rows_ (this w)) (cols_ (this w))
                        (data_ (this w) ++ concat l)) k).
Proof.
  intros Hq. revert w. induction l as [|row rest IH]; intros w; simpl.
  - exists (clock w). unfold ret. rewrite app_nil_r. destruct w as [[r c d] k]. reflexivity.
  - rewrite bind_get_this. unfold bind at 1.
    rewrite copy_construct_quiet by assumption.
    unfold bind at 1. unfold set_data at 1. cbn [this clock].
    destruct (IH (mk_world (mk_array2d (rows_ (this w)) (cols_ (this w))
                              (data_ (this w) ++ row))
                    (clock w + length row))) as [k Ek].
    rewrite Ek. cbn [this rows_ cols_ data_]. rewrite <- app_assoc. eauto.
Qed.

Lemma ctor_init_list_rows (first : list Ty) (rest : list (list Ty)) (w : world Ty) :
  Z.of_nat (length (first :: rest)) <= INT_MAX -> Z.of_nat (length first) <= INT_MAX ->
  ctor_init_list throws (first :: rest) w =
  (let* _ := lift (check_row_lengths (Z.of_nat (length first)) (first :: rest)) in
   let* size := lift (calculate_size (Z.of_nat (length (first :: rest)))
                        (Z.of_nat (length first))) in
   let* _ := may_throw throws in
   insert_rows throws (first :: rest))
    (mk_world (mk_array2d (Z.of_nat (length (first :: rest))) (Z.of_nat (length first))
                 (data_ (this w))) (clock w)).
Proof.
  intros Hn Hc. unfold ctor_init_list. unfold INT_MAX in Hn, Hc.
  rewrite !to_index_small by (unfold is_index, INT_MIN, INT_MAX; lia).
  reflexivity.
Qed.

Lemma ctor_init_list_run (first : list Ty) (rest : list (list Ty)) (k : nat) :
  Z.of_nat (length (first :: rest)) <= INT_MAX -> Z.of_nat (length first) <= INT_MAX ->
  Z.of_nat (length (first :: rest)) * Z.of_nat (length first) <= SIZE_MAX ->
  Forall (fun row => length row = length first) rest ->
  quiet throws ->
  exists k',
    construct (ctor_init_list throws (first :: rest)) k =
    (Ok (mk_array2d (Z.of_nat (length (first :: rest))) (Z.of_nat (length first))
           (concat (first :: rest))), k').
Proof.
  intros Hn Hc Hfit Hu Hq. unfold construct.
  rewrite ctor_init_list_rows by assumption.
  rewrite check_row_lengths_uniform.
  2:{ assert (Hi : to_index (Z.of_nat (length first)) = Z.of_nat (length first)).
      { unfold INT_MAX in Hc. apply to_index_small. unfold is_index, INT_MIN, INT_MAX. lia. }
      constructor; [exact Hi|].
      eapply Forall_impl; [exact Hu|]. intros row E. simpl in E. now rewrite E. }
  rewrite bind_lift_ok. rewrite calculate_size_fits by lia. rewrite bind_lift_ok.
  unfold bind at 1. unfold may_throw at 1. rewrite Hq. cbn [this clock].
  match goal with
  | |- context [insert_rows throws ?l ?w] =>
      destruct (insert_rows_quiet l w Hq) as [k' Ek']
  end.
  rewrite Ek'. cbn [this clock rows_ cols_ data_ array2d_default]. eauto.
Qed.

Lemma ctor_init_list_throw (first : list Ty) (rest : list (list Ty)) (k : nat) :
  Z.of_nat (length (first :: rest)) <= INT_MAX ->
  Forall (fun row => Z.of_nat (length row) <= INT_MAX) (first :: rest) ->
  Exists (fun row => length row <> length first) rest ->
  fst (construct (ctor_init_list throws (first :: rest)) k) =
  Throw (invalid_argument "All rows must have the same number of columns").
Proof.
  intros Hn Hrows Hex. unfold construct.
  assert (Hc : Z.of_nat (length first) <= INT_MAX) by now inversion Hrows.
  rewrite ctor_init_list_rows by assumption.
  rewrite check_row_lengths_ragged; [reflexivity|].
  apply Exists_cons_tl. rewrite Exists_exists in *.
  destruct Hex as (row & Hin & Hne). exists row. split; [assumption|].
  assert (Hin' : row ∈ first :: rest) by (constructor; exact Hin).
  rewrite Forall_forall in Hrows. specialize (Hrows row Hin').
  simpl in Hrows. unfold INT_MAX in Hrows.
  rewrite to_index_small by (unfold is_index, INT_MIN, INT_MAX; lia). lia.
Qed.

Lemma ctor_container_run rows cols (container : list Ty) (k : nat) :
  0 <= rows <= INT_MAX -> 0 <= cols <= INT_MAX -> rows * cols <= SIZE_MAX ->
  construct (ctor_container throws rows cols container) k =
  if Z.of_nat (length container) =? rows * cols
  then match (let* _ := may_throw throws in
              let* d := copy_construct throws container in set_data d)
               (mk_world (mk_array2d rows cols []) k) with
       | (Ok _, w) => (Ok (this w), clock w)
       | (Throw e, w) => (Throw e, clock w)
       | (Undefined, w) => (Undefined, clock w)
       | (OutOfFuel, w) => (OutOfFuel, clock w)
       end
  else (Throw (invalid_argument "Container size doesn't match matrix dimensions"), k).
Proof.
  intros Hr Hc Hfit. unfold construct, ctor_container.
  rewrite !validate_dimension_ok by lia. rewrite bind_lift_ok.
  unfold bind at 1. unfold set_rows at 1. rewrite bind_lift_ok.
  unfold bind at 1. unfold set_cols at 1. cbn [this clock rows_ cols_ data_ array2d_default].
  rewrite calculate_size_fits by assumption. rewrite bind_lift_ok.
  destruct (Z.of_nat (length container) =? rows * cols); reflexivity.
Qed.

End ConstructionFromValues.

(** X9: a non-empty nested list whose rows all have the length of the first
    one builds, when nothing fails, the container with one row per inner
    list, as many columns as the first list has elements, and the element
    [j] of list [i] at position [(i, j)]. *)
Theorem ctor_init_list_rectangular {Ty : Type} (throws : nat -> option exn)
  (first : list Ty) (rest : list (list Ty)) (k : nat) :
  let init_list := first :: rest in
  Z.of_nat (length init_list) <= INT_MAX -> Z.of_nat (length first) <= INT_MAX ->
  Z.of_nat (length init_list) * Z.of_nat (length first) <= SIZE_MAX ->
  Forall (fun row => length row = length first) rest ->
  quiet throws ->
  exists m,
    fst (construct (ctor_init_list throws init_list) k) = Ok m /\
    wf m /\
    rows m = Z.of_nat (length init_list) /\ cols m = Z.of_nat (length first) /\
    data_ m = concat init_list /\
    forall i j : nat, (j < length first)%nat ->
      elem m (Z.of_nat i) (Z.of_nat j) = init_list !! i ≫= (fun row => row !! j).
Proof.
  intros init_list Hn Hc Hfit Hu Hq.
  destruct (ctor_init_list_run throws first rest k Hn Hc Hfit Hu Hq) as [k' E].
  fold init_list in E. rewrite E. eexists. split; [reflexivity|].
  assert (Hall : Forall (fun row => length row = length first) init_list).
  { constructor; [reflexivity|assumption]. }
  split; [|split; [reflexivity|split; [reflexivity|split; [reflexivity|]]]].
  - unfold wf. cbn [rows_ cols_ data_].
    rewrite (concat_uniform_length _ _ Hall). unfold INT_MAX in *. lia.
  - intros i j Hj. unfold elem. cbn [rows_ cols_ data_].
    rewrite <- (lookup_concat_uniform (length first) init_list i j Hall Hj).
    f_equal. lia.
Qed.

Lemma ctor_init_list_rectangular_witness :
  exists m,
    fst (construct (ctor_init_list never_throws [[1; 2; 3]; [4; 5; 6]]) 0) = Ok m /\
    elem m 1 2 = Some 6.
Proof.
  destruct (ctor_init_list_rectangular never_throws [1; 2; 3] [[4; 5; 6]] 0)
    as (m & E & _ & _ & _ & _ & H).
  - unfold INT_MAX. simpl. lia.
  - unfold INT_MAX. simpl. lia.
  - unfold SIZE_MAX. simpl. lia.
  - repeat constructor.
  - intros j. reflexivity.
  - exists m. split; [exact E|]. apply (H 1%nat 2%nat). simpl. lia.
Defined.

(** X10: a nested list with a row whose length differs from the first
    row's is refused with [std::invalid_argument], and the empty list
    builds the empty 0 x 0 container. *)
Theorem ctor_init_list_ragged {Ty : Type} (throws : nat -> option exn)
  (first : list Ty) (rest : list (list Ty)) (k : nat) :
  Z.of_nat (length (first :: rest)) <= INT_MAX ->
  Forall (fun row => Z.of_nat (length row) <= INT_MAX) (first :: rest) ->
  Exists (fun row => length row <> length first) rest ->
  fst (construct (ctor_init_list throws (first :: rest)) k) =
  Throw (invalid_argument "All rows must have the same number of columns") /\
  fst (construct (ctor_init_list throws (@nil (list Ty))) k) = Ok (mk_array2d 0 0 []).
Proof.
  intros Hn Hrows Hex. split; [|reflexivity].
  exact (ctor_init_list_throw throws first rest k Hn Hrows Hex).
Qed.

Lemma ctor_init_list_ragged_witness :
  fst (construct (ctor_init_list never_throws [[1; 2; 3]; [4; 5]]) 0) =
  Throw (invalid_argument "All rows must have the same number of columns").
Proof.
  apply (ctor_init_list_ragged never_throws [1; 2; 3] [[4; 5]] 0).
  - unfold INT_MAX. simpl. lia.
  - repeat constructor; unfold INT_MAX; simpl; lia.
  - apply Exists_cons_hd. simpl. lia.
Defined.

(** X11: the constructor from a container refuses, with
    [std::invalid_argument], a container whose size is not [rows * cols];
    given one of that size it builds, when nothing fails, the container
    whose buffer is the given sequence, so that position [(r, c)] holds the
    element number [r * cols + c] of it. *)
Theorem ctor_container_spec {Ty : Type} (throws : nat -> option exn)
  (rows cols : Z) (container : list Ty) (k : nat) :
  0 <= rows <= INT_MAX -> 0 <= cols <= INT_MAX -> rows * cols <= SIZE_MAX ->
  let r := fst (construct (ctor_container throws rows cols container) k) in
  (Z.of_nat (length container) <> rows * cols ->
   r = Throw (invalid_argument "Container size doesn't match matrix dimensions")) /\
  (Z.of_nat (length container) = rows * cols -> quiet throws ->
   r = Ok (mk_array2d rows cols container) /\
   wf (mk_array2d rows cols container) /\
   forall i j, elem (mk_array2d rows cols container) i j =
               container !! Z.to_nat (i * cols + j)).
Proof.
  intros Hr Hc Hfit r. unfold r. rewrite ctor_container_run by assumption. split.
  - intros Hne. destruct (Z.eqb_spec (Z.of_nat (length container)) (rows * cols));
      [contradiction|reflexivity].
  - intros Hlen Hq. rewrite Hlen, Z.eqb_refl.
    unfold bind at 1. unfold may_throw at 1. rewrite Hq. cbn [this clock].
    unfold bind at 1. rewrite copy_construct_quiet by assumption.
    unfold set_data. cbn [this clock rows_ cols_ data_ fst].
    split; [reflexivity|]. split; [|reflexivity].
    unfold wf. cbn [rows_ cols_ data_]. lia.
Qed.

Lemma ctor_container_spec_witness :
  fst (construct (ctor_container never_throws 2 2 [1; 2; 3]) 0) =
  Throw (invalid_argument "Container size doesn't match matrix dimensions") /\
  fst (construct (ctor_container never_throws 2 2 [1; 2; 3; 4]) 0) =
  Ok (mk_array2d 2 2 [1; 2; 3; 4]).
Proof.
  split.
  - apply (ctor_container_spec never_throws 2 2 [1; 2; 3] 0);
      unfold INT_MAX, SIZE_MAX; simpl; lia.
  - apply (ctor_container_spec never_throws 2 2 [1; 2; 3; 4] 0);
      unfold INT_MAX, SIZE_MAX; simpl; try lia. intros j. reflexivity.
Defined.

(** ** Construction from a fill value, copies and exchange *)

Section FillCopyExchange.

Context {Ty : Type} {ET : ElemTraits Ty}.
Variable throws : nat -> option exn.

Lemma ctor_dims_val_run rows cols (val : Ty) k :
  0 <= rows <= INT_MAX -> 0 <= cols <= INT_MAX -> rows * cols <= SIZE_MAX ->
  quiet throws ->
  exists k',
    construct (ctor_dims_val throws rows cols val) k =
    (Ok (mk_array2d rows cols (replicate (Z.to_nat (rows * cols)) val)), k').
Proof.
  intros Hr Hc Hfit Hq. unfold construct, ctor_dims_val.
  rewrite !validate_dimension_ok by lia. rewrite bind_lift_ok.
  unfold bind at 1. unfold set_rows at 1. rewrite bind_lift_ok.
  unfold bind at 1. unfold set_cols at 1. cbn [this clock rows_ cols_ data_ array2d_default].
  destruct (Z.eq_dec (rows * cols) 0) as [Hz|Hz].
  - assert (E : (0 <? rows) && (0 <? cols) = false).
    { destruct (Z.ltb_spec 0 rows); destruct (Z.ltb_spec 0 cols); try reflexivity. nia. }
    rewrite E, Hz. unfold ret. simpl. eauto.
  - assert (E : (0 <? rows) && (0 <? cols) = true).
    { destruct (Z.ltb_spec 0 rows); destruct (Z.ltb_spec 0 cols); try reflexivity; nia. }
    rewrite E. rewrite calculate_size_fits by assumption. rewrite bind_lift_ok.
    rewrite bind_get_this. cbn [this data_]. unfold bind.
    match goal with |- context [vector_resize ?t ?v ?n ?x ?w] =>
      destruct (vector_resize_quiet t v n x w Hq) as [k' Ek'] end.
    rewrite resize_fresh_result in Ek' by nia. rewrite Ek'. unfold set_data. simpl. eauto.
Qed.

Lemma vector_copy_quiet (v : list Ty) (w : world Ty) :
  quiet throws ->
  vector_copy throws v w = (Ok v, mk_world (this w) (S (clock w) + length v)).
Proof.
  intros Hq. unfold vector_copy. unfold bind, may_throw. rewrite Hq.
  rewrite copy_construct_quiet by assumption. reflexivity.
Qed.

Lemma assign_copy_quiet capacity (other m : array2d Ty) (k : nat) :
  quiet throws ->
  exists k', assign_copy throws capacity other (mk_world m k) = (Ok tt, mk_world other k').
Proof.
  intros Hq. unfold assign_copy. unfold bind at 1. unfold set_rows at 1.
  unfold bind at 1. unfold set_cols at 1. rewrite bind_get_this. cbn [this data_ clock].
  destruct (capacity <? Z.of_nat (length (data_ other))).
  - unfold bind. rewrite vector_copy_quiet by assumption. unfold set_data.
    cbn [this rows_ cols_ clock]. destruct other; eauto.
  - destruct (length (data_ other) <=? length (data_ m))%nat.
    + unfold set_data. cbn [this rows_ cols_ clock]. destruct other; eauto.
    + unfold bind at 1. unfold set_data at 1. cbn [this rows_ cols_ clock]. unfold bind.
      rewrite copy_construct_quiet by assumption. unfold set_data.
      cbn [this rows_ cols_ clock]. rewrite take_drop. destruct other; eauto.
Qed.

Lemma assign_copy_alloc_fails capacity (other m : array2d Ty) (k : nat) (e : exn) :
  capacity < Z.of_nat (length (data_ other)) -> throws k = Some e ->
  assign_copy throws capacity other (mk_world m k) =
  (Throw e, mk_world (mk_array2d (rows_ other) (cols_ other) (data_ m)) (S k)).
Proof.
  intros Hcap He. unfold assign_copy. unfold bind at 1. unfold set_rows at 1.
  unfold bind at 1. unfold set_cols at 1. rewrite bind_get_this. cbn [this data_ clock].
  destruct (Z.ltb_spec capacity (Z.of_nat (length (data_ other)))); [|lia].
  unfold bind at 1. unfold vector_copy.
  unfold bind at 1. unfold may_throw. cbn [this clock]. rewrite He. reflexivity.
Qed.

Lemma assign_copy_fits capacity (other m : array2d Ty) (k : nat) :
  Z.of_nat (length (data_ other)) <= capacity ->
  (length (data_ other) <= length (data_ m))%nat ->
  assign_copy throws capacity other (mk_world m k) = (Ok tt, mk_world other k).
Proof.
  intros Hcap Hlen. unfold assign_copy. unfold bind at 1. unfold set_rows at 1.
  unfold bind at 1. unfold set_cols at 1. rewrite bind_get_this. cbn [this data_ clock].
  destruct (Z.ltb_spec capacity (Z.of_nat (length (data_ other)))); [lia|].
  destruct (Nat.leb_spec (length (data_ other)) (length (data_ m))); [|lia].
  unfold set_data. cbn [this rows_ cols_ clock]. destruct other; reflexivity.
Qed.

Lemma reset_result (opt : Array_reset_opt) (m : array2d Ty) (k : nat) :
  reset opt (mk_world m k) =
  (Ok tt,
   mk_world (mk_array2d (rows_ m) (cols_ m)
               (replicate (length (data_ m))
                  (if is_trivial_standard_layout
                   then byte_object (to_uchar (reset_opt_value opt))
                   else Ty_default))) k).
Proof.
  unfold reset. rewrite bind_get_this. cbn [this]. unfold empty.
  destruct (data_ m) as [|x d] eqn:Ed.
  - rewrite bool_decide_eq_true_2 by reflexivity. unfold ret. simpl.
    destruct m as [r c d0]. simpl in Ed. subst d0. reflexivity.
  - rewrite bool_decide_eq_false_2 by discriminate.
    destruct is_trivial_standard_layout; [|reflexivity].
    destruct opt; try reflexivity.
    destruct (sizeof_Ty mod 8 =? 0); reflexivity.
Qed.

End FillCopyExchange.

(** X12: for non-negative dimensions whose product fits, the constructor
    with a fill value builds, when nothing fails, the [rows x cols]
    container every element of which is the value; with a zero dimension
    the buffer is empty. *)
Theorem ctor_dims_val_spec {Ty : Type} (throws : nat -> option exn)
  (rows cols : Z) (val : Ty) (k : nat) :
  0 <= rows <= INT_MAX -> 0 <= cols <= INT_MAX -> rows * cols <= SIZE_MAX ->
  quiet throws ->
  exists m,
    fst (construct (ctor_dims_val throws rows cols val) k) = Ok m /\
    wf m /\ rows_ m = rows /\ cols_ m = cols /\ size m = rows * cols /\
    (rows = 0 \/ cols = 0 -> data_ m = []) /\
    forall i j, 0 <= i < rows -> 0 <= j < cols -> elem m i j = Some val.
Proof.
  intros Hr Hc Hfit Hq.
  destruct (ctor_dims_val_run throws rows cols val k Hr Hc Hfit Hq) as [k' E].
  rewrite E. eexists. split; [reflexivity|].
  assert (Hwf : wf (mk_array2d rows cols (replicate (Z.to_nat (rows * cols)) val))).
  { unfold wf. cbn [rows_ cols_ data_]. rewrite length_replicate. nia. }
  split; [exact Hwf|]. split; [reflexivity|]. split; [reflexivity|].
  split; [now rewrite wf_size|]. split.
  - intros Hz. cbn [data_]. replace (rows * cols) with 0 by nia. reflexivity.
  - intros i j Hi Hj. unfold elem. cbn [rows_ cols_ data_].
    apply lookup_replicate_2. nia.
Qed.

Lemma ctor_dims_val_spec_witness :
  exists m,
    fst (construct (ctor_dims_val never_throws 3 4 42) 0) = Ok m /\ elem m 2 3 = Some 42.
Proof.
  destruct (ctor_dims_val_spec never_throws 3 4 42 0) as (m & E & _ & _ & _ & _ & _ & H);
    try (unfold INT_MAX, SIZE_MAX; lia).
  - intros j. reflexivity.
  - exists m. split; [exact E|]. apply (H 2 3); lia.
Defined.

(** X13: when nothing fails, the copy constructor builds a container equal
    to its argument, and the copy assignment makes [this] equal to its
    argument, whatever [this] held and whatever the capacity of its
    buffer. *)
Theorem copy_is_equal {Ty : Type} (throws : nat -> option exn) (capacity : Z)
  (other m : array2d Ty) (k : nat) :
  quiet throws ->
  fst (construct (ctor_copy throws other) k) = Ok other /\
  let out := assign_copy throws capacity other (mk_world m k) in
  fst out = Ok tt /\ this (snd out) = other.
Proof.
  intros Hq. split.
  - unfold construct, ctor_copy. unfold bind at 1. unfold set_rows at 1.
    unfold bind at 1. unfold set_cols at 1. unfold bind at 1.
    rewrite vector_copy_quiet by assumption. unfold set_data. simpl.
    destruct other; reflexivity.
  - cbv zeta. destruct (assign_copy_quiet throws capacity other m k Hq) as [k' ->].
    split; reflexivity.
Qed.

Lemma copy_is_equal_witness :
  fst (construct (ctor_copy never_throws m_2x3) 0) = Ok m_2x3 /\
  this (snd (assign_copy never_throws 9 m_2x3 (mk_world m_3x3 0))) = m_2x3 /\
  this (snd (assign_copy never_throws 6 m_3x3 (mk_world m_2x3 0))) = m_3x3.
Proof.
  split; [|split].
  - apply (copy_is_equal never_throws 9 m_2x3 m_3x3 0). intros j. reflexivity.
  - apply (copy_is_equal never_throws 9 m_2x3 m_3x3 0). intros j. reflexivity.
  - apply (copy_is_equal never_throws 6 m_3x3 m_2x3 0). intros j. reflexivity.
Defined.

(** X14: the copy assignment is not all-or-nothing. It assigns the
    dimensions before the buffer; when the argument's buffer is longer
    than the capacity of the receiver's and the allocation of the new
    storage fails, the exception leaves [this] with the dimensions of the
    argument and its own old buffer, which is no well-formed container
    when the two element counts differ. When the argument's buffer fits
    the capacity and is no longer than the receiver's, nothing is
    allocated and the assignment returns whatever the environment. *)
Theorem assign_copy_not_atomic {Ty : Type} (throws : nat -> option exn) (capacity : Z)
  (other m : array2d Ty) (k : nat) :
  let out := assign_copy throws capacity other (mk_world m k) in
  (forall e, capacity < Z.of_nat (length (data_ other)) -> throws k = Some e ->
     fst out = Throw e /\
     this (snd out) = mk_array2d (rows_ other) (cols_ other) (data_ m) /\
     (wf m -> rows_ other * cols_ other <> rows_ m * cols_ m -> ~ wf (this (snd out)))) /\
  (Z.of_nat (length (data_ other)) <= capacity ->
   (length (data_ other) <= length (data_ m))%nat ->
   out = (Ok tt, mk_world other k)).
Proof.
  cbv zeta. split.
  - intros e Hcap He. rewrite (assign_copy_alloc_fails throws capacity other m k e Hcap He).
    cbn [fst snd this]. split; [reflexivity|]. split; [reflexivity|].
    intros (_ & _ & Hlen & _) Hne (_ & _ & Hlen' & _). cbn [rows_ cols_ data_] in *. lia.
  - intros Hcap Hlen. now apply assign_copy_fits.
Qed.

Lemma assign_copy_not_atomic_witness :
  fst (assign_copy first_allocation_fails 6 m_3x3 (mk_world m_2x3 0)) = Throw bad_alloc /\
  ~ wf (this (snd (assign_copy first_allocation_fails 6 m_3x3 (mk_world m_2x3 0)))) /\
  assign_copy first_allocation_fails 9 m_2x3 (mk_world m_3x3 0) = (Ok tt, mk_world m_2x3 0).
Proof.
  destruct (assign_copy_not_atomic first_allocation_fails 6 m_3x3 m_2x3 0) as [H _].
  destruct (H bad_alloc ltac:(simpl; lia) eq_refl) as (E & _ & Hn).
  split; [exact E|]. split; [apply Hn; [exact wf_m_2x3|simpl; lia]|].
  destruct (assign_copy_not_atomic first_allocation_fails 9 m_2x3 m_3x3 0) as [_ H'].
  apply H'; simpl; lia.
Defined.

(** X15: [swap] gives [this] the state of the other container and the
    other container the former state of [this]; swapping back restores
    both. *)
Theorem swap_exchanges_and_restores {Ty : Type} (m other : array2d Ty) (k : nat) :
  swap other (mk_world m k) = (Ok m, mk_world other k) /\
  (let* other' := swap other in swap other') (mk_world m k) = (Ok other, mk_world m k).
Proof.
  destruct m as [r c d], other as [r' c' d']. split; reflexivity.
Qed.

(** X16: [reset] keeps the dimensions and the element count and makes all
    elements equal: to the object all of whose bytes are the byte of the
    option for a trivial standard-layout element type, to a
    value-initialised element otherwise; resetting a second time with the
    same option changes nothing more. *)
Theorem reset_makes_uniform {Ty : Type} {ET : ElemTraits Ty}
  (opt : Array_reset_opt) (m : array2d Ty) (k : nat) :
  wf m ->
  let out := reset opt (mk_world m k) in
  let m' := this (snd out) in
  let v := if is_trivial_standard_layout
           then byte_object (to_uchar (reset_opt_value opt)) else Ty_default in
  fst out = Ok tt /\ rows m' = rows m /\ cols m' = cols m /\ size m' = size m /\
  wf m' /\
  (forall r c, 0 <= r < rows m -> 0 <= c < cols m -> elem m' r c = Some v) /\
  (let* _ := reset opt in reset opt) (mk_world m k) = out.
Proof.
  intros Hwf. cbv zeta. unfold bind. rewrite reset_result. cbn [fst snd this].
  split; [reflexivity|]. split; [reflexivity|]. split; [reflexivity|].
  split; [unfold size; cbn [data_]; now rewrite length_replicate|].
  split; [eapply wf_same_shape; [exact Hwf|reflexivity|reflexivity|];
          cbn [data_]; now rewrite length_replicate|].
  split.
  - intros r c Hr Hc. unfold elem. cbn [rows_ cols_ data_].
    apply lookup_replicate_2.
    pose proof (wf_cell_bound m r c Hwf Hr Hc) as [Hb _]. lia.
  - rewrite reset_result. cbn [rows_ cols_ data_]. rewrite length_replicate. reflexivity.
Qed.

Lemma reset_makes_uniform_witness :
  this (snd (reset (ET := int_traits) All_bits1 (mk_world m_2x3 0))) =
  mk_array2d 2 3 [-1; -1; -1; -1; -1; -1] /\
  elem (this (snd (reset (ET := int_traits) Safe_max (mk_world m_2x3 0)))) 1 2 =
  Some 1061109567.
Proof.
  split; [reflexivity|].
  destruct (reset_makes_uniform (ET := int_traits) Safe_max m_2x3 0 wf_m_2x3)
    as (_ & _ & _ & _ & _ & H & _).
  apply (H 1 2); unfold rows, cols; simpl; lia.
Defined.



(** ** Iteration *)

Section Iteration.

Context {Ty : Type}.
Implicit Types m : array2d Ty.

Lemma traverse_range m (n fuel : nat) (p q : Z) :
  0 <= p -> q = p + Z.of_nat n -> q <= Z.of_nat (length (data_ m)) -> (n <= fuel)%nat ->
  traverse fuel m (mk_iterator p) (mk_iterator q) =
  Ok (take n (drop (Z.to_nat p) (data_ m))).
Proof.
  revert fuel p. induction n as [|n IH]; intros fuel p Hp Hq Hlen Hfuel.
  - assert (E : q = p) by lia. rewrite E.
    destruct fuel; cbn [traverse]; unfold Iterator.eqb; cbn [ptr_]; rewrite Z.eqb_refl; reflexivity.
  - destruct fuel as [|fuel]; [lia|]. cbn [traverse]. unfold Iterator.eqb. cbn [ptr_].
    destruct (Z.eqb_spec p q) as [E|_]; [lia|].
    unfold iterator_deref. cbn [ptr_]. rewrite vector_ref_in by lia. simpl.
    destruct (load_in (data_ m) p) as (x & Hx & ->); [lia|]. simpl.
    unfold Iterator.pre_inc. simpl.
    rewrite (IH fuel (p + 1)) by lia. simpl.
    rewrite (drop_S _ _ _ Hx). simpl.
    replace (Z.to_nat (p + 1)) with (S (Z.to_nat p)) by lia. reflexivity.
Qed.

Lemma reverse_traverse_range m (n fuel : nat) (p q : Z) :
  0 <= q -> p = q + Z.of_nat n -> p <= Z.of_nat (length (data_ m)) -> (n <= fuel)%nat ->
  reverse_traverse fuel m (mk_reverse (mk_iterator p)) (mk_reverse (mk_iterator q)) =
  Ok (reverse (take n (drop (Z.to_nat q) (data_ m)))).
Proof.
  revert fuel p. induction n as [|n IH]; intros fuel p Hq Hp Hlen Hfuel.
  - assert (E : p = q) by lia. rewrite E.
    destruct fuel; cbn [reverse_traverse]; unfold Iterator.eqb; cbn [ptr_ current]; rewrite Z.eqb_refl;
      reflexivity.
  - destruct fuel as [|fuel]; [lia|]. cbn [reverse_traverse]. unfold Iterator.eqb. cbn [ptr_ current].
    destruct (Z.eqb_spec p q) as [E|_]; [lia|].
    unfold reverse_deref, iterator_deref, Iterator.pre_dec. cbn [ptr_ current].
    rewrite vector_ref_in by lia. simpl.
    destruct (load_in (data_ m) (p - 1)) as (x & Hx & ->); [lia|]. simpl.
    unfold reverse_pre_inc, Iterator.pre_dec. simpl.
    rewrite (IH fuel (p - 1)) by lia. simpl.
    assert (Hn : drop (Z.to_nat q) (data_ m) !! n = Some x).
    { rewrite lookup_drop. rewrite <- Hx. f_equal. lia. }
    rewrite (take_S_r _ _ _ Hn). rewrite reverse_snoc. reflexivity.
Qed.

End Iteration.

(** X18: on a well-formed container the loop from [begin()] to [end()]
    ends after [rows * cols] steps and visits the elements in row-major
    order: the visit number [r * cols + c] reads element [(r, c)]; and
    [end() - begin()] is the element count. *)
Theorem traversal_is_row_major {Ty : Type} (m : array2d Ty) (fuel : nat) :
  wf m -> (Z.to_nat (rows m * cols m) <= fuel)%nat ->
  Iterator.distance (end_ m) (begin_ m) = rows m * cols m /\
  exists visited,
    traverse fuel m (begin_ m) (end_ m) = Ok visited /\
    Z.of_nat (length visited) = rows m * cols m /\
    forall r c, 0 <= r < rows m -> 0 <= c < cols m ->
      visited !! Z.to_nat (r * cols m + c) = elem m r c.
Proof.
  unfold rows, cols. intros Hwf Hfuel. pose proof Hwf as (Hr & Hc & Hlen & Hfit).
  split; [unfold Iterator.distance, end_, begin_; simpl; lia|].
  exists (data_ m). split; [|split; [assumption|reflexivity]].
  unfold begin_, end_.
  rewrite (traverse_range m (length (data_ m)) fuel 0) by lia.
  simpl. rewrite firstn_all. reflexivity.
Qed.

Lemma traversal_is_row_major_witness :
  traverse 6 m_2x3 (begin_ m_2x3) (end_ m_2x3) = Ok [1; 2; 3; 4; 5; 6].
Proof.
  destruct (traversal_is_row_major m_2x3 6 wf_m_2x3) as (_ & v & E & _ & _).
  - simpl. lia.
  - rewrite E. f_equal.
    assert (E' : traverse 6 m_2x3 (begin_ m_2x3) (end_ m_2x3) = Ok [1; 2; 3; 4; 5; 6])
      by reflexivity.
    congruence.
Defined.

(** X19: the loop from [rbegin()] to [rend()] visits the same elements in
    the opposite order. *)
Theorem reverse_traversal_is_reversed {Ty : Type} (m : array2d Ty) (fuel : nat) :
  (length (data_ m) <= fuel)%nat ->
  reverse_traverse fuel m (rbegin m) (rend m) = Ok (reverse (data_ m)) /\
  traverse fuel m (begin_ m) (end_ m) = Ok (data_ m).
Proof.
  intros Hfuel. unfold rbegin, rend, begin_, end_. split.
  - rewrite (reverse_traverse_range m (length (data_ m)) fuel _ 0) by lia.
    simpl. rewrite firstn_all. reflexivity.
  - rewrite (traverse_range m (length (data_ m)) fuel 0) by lia.
    simpl. rewrite firstn_all. reflexivity.
Qed.

Lemma reverse_traversal_is_reversed_witness :
  reverse_traverse 6 m_2x3 (rbegin m_2x3) (rend m_2x3) = Ok [6; 5; 4; 3; 2; 1].
Proof.
  apply (reverse_traversal_is_reversed m_2x3 6). simpl. lia.
Defined.

(** X20: on a well-formed container and for a valid row, the loop over
    [row_range(row)] ends after [cols] steps and visits the elements of
    that row from column 0 on, and no other element. *)
Theorem row_range_visits_row {Ty : Type} (m : array2d Ty) (row : Z) (fuel : nat) :
  wf m -> 0 <= row < rows m -> (Z.to_nat (cols m) <= fuel)%nat ->
  exists visited,
    traverse fuel m (wrapper_begin (row_range m row)) (wrapper_end (row_range m row))
    = Ok visited /\
    Z.of_nat (length visited) = cols m /\
    forall c, 0 <= c < cols m -> visited !! Z.to_nat c = elem m row c.
Proof.
  unfold rows, cols. intros Hwf Hrow Hfuel. pose proof Hwf as (Hr & Hc & Hlen & Hfit).
  pose proof (row_range_bounds (rows_ m) (cols_ m) row ltac:(lia) Hrow) as [Hb0 Hb1].
  unfold row_range, wrapper_begin, wrapper_end. simpl.
  rewrite calculate_offset_row by assumption. rewrite to_size_index by assumption.
  rewrite (traverse_range m (Z.to_nat (cols_ m)) fuel (row * cols_ m)) by lia.
  eexists. split; [reflexivity|]. split.
  - rewrite length_take, length_drop. lia.
  - intros c Hcol. unfold elem. rewrite lookup_take_lt by lia. rewrite lookup_drop.
    f_equal. lia.
Qed.

Lemma row_range_visits_row_witness :
  exists visited,
    traverse 3 m_2x3 (wrapper_begin (row_range m_2x3 1)) (wrapper_end (row_range m_2x3 1))
    = Ok visited /\
    visited !! 2%nat = Some 6.
Proof.
  destruct (row_range_visits_row m_2x3 1 3 wf_m_2x3) as (v & E & _ & H).
  - unfold rows. simpl. lia.
  - unfold cols. simpl. lia.
  - exists v. split; [exact E|]. apply (H 2). unfold cols. simpl. lia.
Defined.

(** ** Views *)

Section Views.

Context {Ty : Type}.
Implicit Types m : array2d Ty.

Lemma span_ref_in (v : list Ty) (s : span) i :
  0 <= i < span_size s -> 0 <= span_data s ->
  span_data s + span_size s <= Z.of_nat (length v) ->
  span_ref v s i = Ok (span_data s + i).
Proof.
  intros Hi Hd Hfit. unfold span_ref.
  destruct (Z.leb_spec 0 i); [|lia]. destruct (Z.ltb_spec i (span_size s)); [|lia].
  simpl. apply vector_ref_in. lia.
Qed.

Lemma span_ref_out (v : list Ty) (s : span) i :
  i < 0 \/ span_size s <= i -> span_ref v s i = Undefined.
Proof.
  intros Hi. unfold span_ref.
  destruct (Z.leb_spec 0 i); destruct (Z.ltb_spec i (span_size s)); simpl;
    try reflexivity; lia.
Qed.

Lemma col_post (throws : nat -> option exn) m col :
  wf m -> 0 <= col < cols_ m ->
  post (Ty := Ty) throws
    (fun l => Z.of_nat (length l) = rows_ m /\
              forall r, 0 <= r < rows_ m -> l !! Z.to_nat r = elem m r col)
    (let* _ := may_throw throws in
     for_rangeM 0 (rows_ m)
       (fun i result =>
          let* x := lift (let? k := vector_ref (data_ m) (calculate_offset m i col) in
                          load (data_ m) k) in
          let* _ := may_throw throws in
          ret (result ++ [x]))
       []).
Proof.
  intros Hwf Hcol. pose proof Hwf as (Hr & Hc & Hlen & Hfit).
  apply (post_bind throws (fun _ => True)); [apply post_may_throw|]. intros _ _.
  apply (post_for_rangeM throws
           (fun i l => Z.of_nat (length l) = i /\
                       forall r, 0 <= r < i -> l !! Z.to_nat r = elem m r col)).
  - lia.
  - split; [reflexivity|]. intros r Hr0. lia.
  - intros j l Hj [Hl Hel].
    pose proof (wf_cell_bound m j col Hwf Hj Hcol) as [Hb _].
    destruct (load_in (data_ m) (j * cols_ m + col) Hb) as (x & Hx & Hload).
    apply (post_bind throws (fun y => y = x)).
    { apply (post_lift throws _ _ x); [|reflexivity].
      rewrite calculate_offset_cell by assumption.
      rewrite vector_ref_in by assumption. simpl. exact Hload. }
    intros y ->.
    apply (post_bind throws (fun _ => True)); [apply post_may_throw|]. intros _ _.
    apply post_ret. split; [rewrite length_app; simpl; lia|].
    intros r Hr0. destruct (Z.eq_dec r j) as [->|Hne].
    + rewrite lookup_app_r by lia.
      replace (Z.to_nat j - length l)%nat with 0%nat by lia. simpl.
      unfold elem. now rewrite Hx.
    + rewrite lookup_app_l by lia. apply Hel. lia.
Qed.

Lemma at_in_range m row col k :
  wf m -> 0 <= row < rows_ m -> 0 <= col < cols_ m ->
  at_ row col (mk_world m k) = (Ok (row * cols_ m + col), mk_world m k).
Proof.
  intros Hwf Hrow Hcol. unfold at_, at_impl. rewrite bind_get_this. cbn [this].
  destruct (Z.ltb_spec row 0); [lia|]. destruct (Z.leb_spec (rows_ m) row); [lia|].
  destruct (Z.ltb_spec col 0); [lia|]. destruct (Z.leb_spec (cols_ m) col); [lia|].
  simpl. rewrite calculate_offset_cell by assumption.
  pose proof (wf_cell_bound m row col Hwf Hrow Hcol) as [Hb _].
  unfold lift. rewrite vector_ref_in by assumption. reflexivity.
Qed.

Lemma at_out_of_range m row col k :
  row < 0 \/ rows_ m <= row \/ col < 0 \/ cols_ m <= col ->
  at_ row col (mk_world m k) =
  (Throw (out_of_range (format_bounds_error m row col)), mk_world m k).
Proof.
  intros Hout. unfold at_, at_impl. rewrite bind_get_this. cbn [this].
  destruct (Z.ltb_spec row 0); [reflexivity|].
  destruct (Z.leb_spec (rows_ m) row); [reflexivity|].
  destruct (Z.ltb_spec col 0); [reflexivity|].
  destruct (Z.leb_spec (cols_ m) col); [reflexivity|]. lia.
Qed.

Lemma at_assign_in_range m row col (x : Ty) k :
  wf m -> 0 <= row < rows_ m -> 0 <= col < cols_ m ->
  at_assign row col x (mk_world m k) =
  (Ok tt, mk_world (mk_array2d (rows_ m) (cols_ m)
                      (<[Z.to_nat (row * cols_ m + col) := x]> (data_ m))) k).
Proof.
  intros Hwf Hrow Hcol. unfold at_assign. unfold bind at 1.
  rewrite at_in_range by assumption. rewrite bind_get_this. cbn [this].
  pose proof (wf_cell_bound m row col Hwf Hrow Hcol) as [Hb _].
  unfold bind, lift. rewrite store_in by assumption. reflexivity.
Qed.

Lemma at_assign_out_of_range m row col (x : Ty) k :
  row < 0 \/ rows_ m <= row \/ col < 0 \/ cols_ m <= col ->
  at_assign row col x (mk_world m k) =
  (Throw (out_of_range (format_bounds_error m row col)), mk_world m k).
Proof.
  intros Hout. unfold at_assign. unfold bind at 1.
  rewrite at_out_of_range by assumption. reflexivity.
Qed.

End Views.

(** X21: on a well-formed container and for a valid row, the span
    [row(row)] has [cols] elements, its element [c] is the element
    [(row, c)] of the container, and indexing it outside [0, cols) is
    undefined; the span [as_span()] covers the whole buffer in row-major
    order. *)
Theorem row_span_designates_row {Ty : Type} (m : array2d Ty) (row : Z) :
  wf m -> 0 <= row < rows m ->
  span_size (View.row m row) = cols m /\
  (forall c, 0 <= c < cols m ->
     span_ref (data_ m) (View.row m row) c = call m row c /\
     span_ref (data_ m) (View.row m row) c = Ok (row * cols m + c)) /\
  (forall c, c < 0 \/ cols m <= c -> span_ref (data_ m) (View.row m row) c = Undefined) /\
  span_size (as_span m) = rows m * cols m /\
  (forall r c, 0 <= r < rows m -> 0 <= c < cols m ->
     span_ref (data_ m) (as_span m) (r * cols m + c) = call m r c).
Proof.
  unfold rows, cols. intros Hwf Hrow. pose proof Hwf as (Hr & Hc & Hlen & Hfit).
  pose proof (row_range_bounds (rows_ m) (cols_ m) row ltac:(lia) Hrow) as [Hb0 Hb1].
  assert (Hsz : span_size (View.row m row) = cols_ m).
  { unfold View.row. simpl. now apply to_size_index. }
  assert (Hdt : span_data (View.row m row) = row * cols_ m).
  { unfold View.row. simpl. now apply calculate_offset_row. }
  split; [exact Hsz|]. split; [|split; [|split]].
  - intros c Hcol. unfold call. rewrite calculate_offset_cell by assumption.
    pose proof (wf_cell_bound m row c Hwf Hrow Hcol) as [Hb _].
    rewrite vector_ref_in by assumption.
    rewrite span_ref_in by (rewrite ?Hsz, ?Hdt; lia). rewrite Hdt. auto.
  - intros c Hout. apply span_ref_out. rewrite Hsz. exact Hout.
  - unfold as_span. simpl. exact Hlen.
  - intros r c Hr0 Hc0. unfold call. rewrite calculate_offset_cell by assumption.
    pose proof (wf_cell_bound m r c Hwf Hr0 Hc0) as [Hb _].
    rewrite vector_ref_in by assumption.
    rewrite span_ref_in by (unfold as_span; simpl; lia). reflexivity.
Qed.

Lemma row_span_designates_row_witness :
  span_ref (data_ m_2x3) (View.row m_2x3 1) 2 = Ok 5 /\
  span_ref (data_ m_2x3) (View.row m_2x3 1) 3 = Undefined.
Proof.
  destruct (row_span_designates_row m_2x3 1 wf_m_2x3) as (_ & H1 & H2 & _).
  - unfold rows. simpl. lia.
  - split; [apply (H1 2)|apply (H2 3)]; unfold cols; simpl; lia.
Defined.

(** X22: on a well-formed container and for a valid column, [col(col)]
    leaves the container alone, fails only when an allocation or an element
    copy fails, and otherwise returns the [rows] elements of that column
    from row 0 on. *)
Theorem col_copies_column {Ty : Type} (throws : nat -> option exn)
  (m : array2d Ty) (col : Z) (k : nat) :
  wf m -> 0 <= col < cols m ->
  let out := View.col throws col (mk_world m k) in
  this (snd out) = m /\
  match fst out with
  | Ok result =>
      Z.of_nat (length result) = rows m /\
      forall r, 0 <= r < rows m -> result !! Z.to_nat r = elem m r col
  | Throw e => exists j, throws j = Some e
  | _ => False
  end /\
  (quiet throws -> exists result, fst out = Ok result).
Proof.
  unfold rows, cols. intros Hwf Hcol. cbv zeta. unfold View.col.
  rewrite bind_get_this. cbn [this].
  pose proof (col_post throws m col Hwf Hcol) as Hpost.
  match type of Hpost with post _ _ ?c => set (comp := c) in * end.
  destruct (comp (mk_world m k)) as [r w'] eqn:E.
  pose proof (Hpost _ _ _ E) as [Ht HQ]. cbn [fst snd this] in *.
  split; [exact Ht|]. split; [exact HQ|].
  intros Hq. destruct r as [l|e| |]; try contradiction; [eauto|].
  destruct HQ as [j Hj]. rewrite Hq in Hj. discriminate.
Qed.

Lemma col_copies_column_witness :
  fst (View.col never_throws 1 (mk_world m_2x3 0)) = Ok [2; 5].
Proof.
  destruct (col_copies_column never_throws m_2x3 1 0 wf_m_2x3) as (_ & _ & H).
  - unfold cols. simpl. lia.
  - destruct (H ltac:(intros j; reflexivity)) as [result E]. rewrite E.
    assert (E' : fst (View.col never_throws 1 (mk_world m_2x3 0)) = Ok [2; 5])
      by reflexivity.
    congruence.
Defined.

(** X23: writing through the reference [at(row, col)] returns: inside the
    bounds of a well-formed container the write changes the element
    [(row, col)] and no other; outside them [at] throws
    [std::out_of_range] and nothing is written. *)
Theorem at_assign_spec {Ty : Type} (m : array2d Ty) (row col : Z) (x : Ty) (k : nat) :
  wf m ->
  let out := at_assign row col x (mk_world m k) in
  let m' := this (snd out) in
  (0 <= row < rows m -> 0 <= col < cols m ->
   fst out = Ok tt /\ rows m' = rows m /\ cols m' = cols m /\ wf m' /\
   forall r c, 0 <= r < rows m -> 0 <= c < cols m ->
     elem m' r c = if (r =? row) && (c =? col) then Some x else elem m r c) /\
  (row < 0 \/ rows m <= row \/ col < 0 \/ cols m <= col ->
   fst out = Throw (out_of_range (format_bounds_error m row col)) /\ m' = m).
Proof.
  unfold rows, cols. intros Hwf. cbv zeta. split.
  - intros Hrow Hcol. rewrite at_assign_in_range by assumption.
    pose proof (wf_cell_bound m row col Hwf Hrow Hcol) as [Hb _].
    cbn [fst snd this rows_ cols_ data_ clock].
    split; [reflexivity|]. split; [reflexivity|]. split; [reflexivity|].
    split.
    { eapply wf_same_shape; [exact Hwf|reflexivity|reflexivity|].
      cbn [data_]. now rewrite length_insert. }
    intros r c Hr0 Hc0. unfold elem. cbn [rows_ cols_ data_].
    pose proof (wf_cell_bound m r c Hwf Hr0 Hc0) as [Hb' _].
    rewrite lookup_stored by lia.
    destruct (Z.eqb_spec (r * cols_ m + c) (row * cols_ m + col)) as [E|Hne].
    + apply cell_index_inj in E; [|assumption|assumption]. destruct E as [-> ->].
      now rewrite !Z.eqb_refl.
    + destruct (Z.eqb_spec r row) as [->|_]; [|reflexivity].
      destruct (Z.eqb_spec c col) as [->|_]; [contradiction|reflexivity].
  - intros Hout. rewrite at_assign_out_of_range by assumption.
    split; reflexivity.
Qed.

Lemma at_assign_spec_witness :
  elem (this (snd (at_assign 1 2 9 (mk_world m_2x3 0)))) 1 2 = Some 9 /\
  elem (this (snd (at_assign 1 2 9 (mk_world m_2x3 0)))) 0 2 = elem m_2x3 0 2 /\
  this (snd (at_assign 2 0 9 (mk_world m_2x3 0))) = m_2x3.
Proof.
  destruct (at_assign_spec m_2x3 1 2 9 0 wf_m_2x3) as [H _].
  destruct H as (_ & _ & _ & _ & H); [unfold rows; simpl; lia|unfold cols; simpl; lia|].
  split; [apply (H 1 2); unfold rows, cols; simpl; lia|].
  split; [apply (H 0 2); unfold rows, cols; simpl; lia|].
  destruct (at_assign_spec m_2x3 2 0 9 0 wf_m_2x3) as [_ H'].
  apply H'. unfold rows. simpl. lia.
Defined.

(** ** Blocks of rows *)

(** X24: for a block inside a well-formed container,
    [submatrix_row_major] returns, when the block spans whole rows, the
    span over all its [num_rows * cols] elements in row-major order
    (provided that product fits [index_type]; the call is undefined
    otherwise), and, when it does not, only the span over the [num_cols]
    elements of the block's first row. *)
Theorem submatrix_row_major_spec {Ty : Type} (m : array2d Ty)
  (start_row start_col num_rows num_cols : Z) :
  wf m -> 0 <= start_row -> 0 <= start_col -> 0 < num_rows -> 0 < num_cols ->
  start_row + num_rows <= rows m -> start_col + num_cols <= cols m ->
  let sub := submatrix_row_major m start_row start_col num_rows num_cols in
  (start_col = 0 -> num_cols = cols m -> num_rows * cols m <= INT_MAX ->
   exists s, sub = Ok s /\ span_size s = num_rows * cols m /\
     forall i j, 0 <= i < num_rows -> 0 <= j < cols m ->
       span_ref (data_ m) s (i * cols m + j) = call m (start_row + i) j) /\
  (start_col = 0 -> num_cols = cols m -> INT_MAX < num_rows * cols m ->
   sub = Undefined) /\
  (start_col <> 0 \/ num_cols <> cols m ->
   exists s, sub = Ok s /\ span_size s = num_cols /\
     (forall j, 0 <= j < num_cols ->
        span_ref (data_ m) s j = call m start_row (start_col + j)) /\
     (forall j, num_cols <= j -> span_ref (data_ m) s j = Undefined)).
Proof.
  unfold rows, cols. intros Hwf Hsr Hsc Hnr Hnc Hrows Hcols. cbv zeta.
  pose proof Hwf as (Hr & Hc & Hlen & Hfit).
  unfold submatrix_row_major. split; [|split].
  - intros -> -> Hmul. rewrite !Z.eqb_refl. cbn [andb]. unfold int_mul, is_indexb.
    destruct (Z.leb_spec INT_MIN (num_rows * cols_ m)); [|unfold INT_MIN in *; nia].
    destruct (Z.leb_spec (num_rows * cols_ m) INT_MAX); [|lia].
    simpl. eexists. split; [reflexivity|]. cbn [span_size span_data].
    rewrite to_size_index by nia. split; [reflexivity|].
    rewrite calculate_offset_row by (try assumption; lia).
    intros i j Hi Hj. unfold call.
    rewrite calculate_offset_cell by (try assumption; lia).
    pose proof (wf_cell_bound m (start_row + i) j Hwf ltac:(lia) Hj) as [Hb _].
    rewrite vector_ref_in by assumption.
    rewrite span_ref_in; cbn [span_size span_data]; [f_equal; lia|nia|nia|nia].
  - intros -> -> Hmul. rewrite !Z.eqb_refl. cbn [andb]. unfold int_mul, is_indexb.
    destruct (Z.leb_spec (num_rows * cols_ m) INT_MAX); [lia|].
    rewrite andb_false_r. reflexivity.
  - intros Hpart.
    assert (E : (start_col =? 0) && (num_cols =? cols_ m) = false).
    { destruct (Z.eqb_spec start_col 0); destruct (Z.eqb_spec num_cols (cols_ m));
        try reflexivity. lia. }
    rewrite E. eexists. split; [reflexivity|]. cbn [span_size span_data].
    rewrite to_size_index by lia.
    rewrite calculate_offset_cell by (try assumption; lia).
    split; [reflexivity|]. split.
    + intros j Hj. unfold call.
      rewrite calculate_offset_cell by (try assumption; lia).
      pose proof (wf_cell_bound m start_row (start_col + j) Hwf ltac:(lia) ltac:(lia))
        as [Hb _].
      rewrite vector_ref_in by assumption.
      rewrite span_ref_in; cbn [span_size span_data]; [f_equal; lia|lia|nia|nia].
    + intros j Hj. apply span_ref_out. cbn [span_size]. right. assumption.
Qed.

Lemma submatrix_row_major_spec_witness :
  (exists s, submatrix_row_major m_3x4 1 0 2 4 = Ok s /\ span_size s = 8) /\
  (exists s, submatrix_row_major m_3x4 1 1 2 2 = Ok s /\ span_size s = 2) /\
  submatrix_row_major (mk_array2d 65536 32768 (replicate (Z.to_nat 2147483648) 0))
    0 0 65536 32768 = Undefined.
Proof.
  split; [|split].
  - destruct (submatrix_row_major_spec m_3x4 1 0 2 4 wf_m_3x4) as (H & _ & _);
      try (unfold rows, cols; simpl; lia).
    destruct H as (s & E & Hs & _);
      [reflexivity|reflexivity|unfold cols, INT_MAX; simpl; lia|].
    exists s. split; [exact E|exact Hs].
  - destruct (submatrix_row_major_spec m_3x4 1 1 2 2 wf_m_3x4) as (_ & _ & H);
      try (unfold rows, cols; simpl; lia).
    destruct H as (s & E & Hs & _); [left; lia|].
    exists s. split; [exact E|exact Hs].
  - assert (Hwf : wf (mk_array2d 65536 32768 (replicate (Z.to_nat 2147483648) 0))).
    { unfold wf, INT_MAX, SIZE_MAX. cbn [rows_ cols_ data_].
      rewrite length_replicate. lia. }
    destruct (submatrix_row_major_spec _ 0 0 65536 32768 Hwf) as (_ & H & _);
      try (unfold rows, cols; cbn [rows_ cols_]; lia).
    apply H; [reflexivity|reflexivity|unfold cols, INT_MAX; cbn [cols_]; lia].
Defined.

(** ** Comparison *)

Section ComparisonLaws.

Context {Ty : Type} {EO : ElemOrder Ty}.

Lemma std_equal_spec (v1 v2 : list Ty) :
  (forall x y, Ty_eqb x y = true <-> x = y) ->
  length v1 = length v2 -> (std_equal v1 v2 = true <-> v1 = v2).
Proof.
  intros Heq. revert v2. induction v1 as [|x v1 IH]; intros [|y v2] Hlen;
    try discriminate; simpl.
  - split; reflexivity.
  - injection Hlen as Hlen. rewrite andb_true_iff, Heq, (IH v2 Hlen).
    split; [intros [-> ->]; reflexivity|intros [= -> ->]; auto].
Qed.

Lemma vector_eqb_spec (v1 v2 : list Ty) :
  (forall x y, Ty_eqb x y = true <-> x = y) ->
  (vector_eqb v1 v2 = true <-> v1 = v2).
Proof.
  intros Heq. unfold vector_eqb. rewrite andb_true_iff, Nat.eqb_eq. split.
  - intros [Hlen E]. now apply std_equal_spec.
  - intros ->. split; [reflexivity|]. now apply std_equal_spec.
Qed.

Lemma vector_compare_eq (v1 v2 : list Ty) :
  (forall x y, Ty_compare x y = Eq <-> x = y) ->
  (vector_compare v1 v2 = Eq <-> v1 = v2).
Proof.
  intros Heq. revert v2. induction v1 as [|x v1 IH]; intros [|y v2]; simpl;
    try (split; [discriminate|discriminate]).
  - split; reflexivity.
  - destruct (Ty_compare x y) eqn:E.
    + apply Heq in E. subst y. rewrite IH. split; [intros ->; reflexivity|now intros [= ->]].
    + split; [discriminate|]. intros [= -> _].
      assert (E' : Ty_compare y y = Eq) by now apply Heq. congruence.
    + split; [discriminate|]. intros [= -> _].
      assert (E' : Ty_compare y y = Eq) by now apply Heq. congruence.
Qed.

End ComparisonLaws.

(** X25: when [==] on elements is equality, [operator==] holds exactly of
    equal containers: same dimensions and same elements; in particular two
    empty containers of different dimensions are not equal. *)
Theorem operator_eq_reflects {Ty : Type} {EO : ElemOrder Ty} (m other : array2d Ty) :
  (forall x y, Ty_eqb x y = true <-> x = y) ->
  (operator_eq m other = true <-> m = other) /\
  (rows m <> rows other \/ cols m <> cols other -> operator_eq m other = false).
Proof.
  intros Heq. unfold operator_eq, rows, cols. split.
  - rewrite !andb_true_iff, !Z.eqb_eq, (vector_eqb_spec _ _ Heq).
    destruct m as [r c d], other as [r' c' d']. simpl. split.
    + intros [[-> ->] ->]. reflexivity.
    + intros [= -> -> ->]. auto.
  - intros [Hne|Hne].
    + destruct (Z.eqb_spec (rows_ m) (rows_ other)); [contradiction|reflexivity].
    + destruct (Z.eqb_spec (cols_ m) (cols_ other)); [contradiction|].
      now rewrite andb_false_r.
Qed.

Lemma operator_eq_reflects_witness :
  operator_eq (EO := int_order) m_2x3 m_2x3 = true /\
  operator_eq (EO := int_order) (mk_array2d 0 3 []) (mk_array2d 3 0 []) = false.
Proof.
  split.
  - destruct (operator_eq_reflects (EO := int_order) m_2x3 m_2x3 Z.eqb_eq) as [H _].
    apply H. reflexivity.
  - destruct (operator_eq_reflects (EO := int_order) (mk_array2d 0 3 [])
                (mk_array2d 3 0 []) Z.eqb_eq) as [_ H].
    apply H. left. unfold rows. simpl. lia.
Defined.

(** X26: [operator<=>] orders first by the number of rows, then by the
    number of columns, and only then by the elements: a container with
    fewer rows is less whatever the two hold; and when [<=>] on elements is
    [equal] exactly on equal elements, the result is [equal] exactly on
    equal containers. *)
Theorem operator_compare_spec {Ty : Type} {EO : ElemOrder Ty} (m other : array2d Ty) :
  (forall x y, Ty_compare x y = Eq <-> x = y) ->
  (rows m < rows other -> operator_compare m other = Lt) /\
  (rows other < rows m -> operator_compare m other = Gt) /\
  (rows m = rows other -> cols m < cols other -> operator_compare m other = Lt) /\
  (rows m = rows other -> cols other < cols m -> operator_compare m other = Gt) /\
  (rows m = rows other -> cols m = cols other ->
   operator_compare m other = vector_compare (data_ m) (data_ other)) /\
  (operator_compare m other = Eq <-> m = other).
Proof.
  intros Heq. unfold operator_compare, rows, cols.
  split; [|split; [|split; [|split; [|split]]]].
  - intros H. apply Z.compare_lt_iff in H. now rewrite H.
  - intros H. apply Z.compare_gt_iff in H. now rewrite H.
  - intros -> H. rewrite Z.compare_refl. apply Z.compare_lt_iff in H. now rewrite H.
  - intros -> H. rewrite Z.compare_refl. apply Z.compare_gt_iff in H. now rewrite H.
  - intros -> ->. now rewrite !Z.compare_refl.
  - destruct m as [r c d], other as [r' c' d']. simpl.
    destruct (Z.compare_spec r r') as [->|Hlt|Hgt].
    + destruct (Z.compare_spec c c') as [->|Hlt|Hgt].
      * rewrite (vector_compare_eq _ _ Heq).
        split; [intros ->; reflexivity|now intros [= ->]].
      * split; [discriminate|]. intros [= -> _]. lia.
      * split; [discriminate|]. intros [= -> _]. lia.
    + split; [discriminate|]. intros [= -> _ _]. lia.
    + split; [discriminate|]. intros [= -> _ _]. lia.
Qed.

Lemma operator_compare_spec_witness :
  operator_compare (EO := int_order) m_2x3 m_3x3 = Lt /\
  operator_compare (EO := int_order) (mk_array2d 1 2 [9; 9]) (mk_array2d 2 1 [0; 0]) = Lt.
Proof.
  split.
  - destruct (operator_compare_spec (EO := int_order) m_2x3 m_3x3 Z.compare_eq_iff)
      as [H _].
    apply H. unfold rows. simpl. lia.
  - destruct (operator_compare_spec (EO := int_order) (mk_array2d 1 2 [9; 9])
                (mk_array2d 2 1 [0; 0]) Z.compare_eq_iff) as [H _].
    apply H. unfold rows. simpl. lia.
Defined.

(** ** Cells and offsets *)

(** X27: in a well-formed container distinct valid positions designate
    distinct elements, every element of the buffer is the element of
    exactly the position [(k / cols, k mod cols)], and the container is
    empty exactly when a dimension is zero. *)
Theorem cells_and_offsets {Ty : Type} (m : array2d Ty) :
  wf m ->
  (forall r c r' c', 0 <= r < rows m -> 0 <= c < cols m ->
     0 <= r' < rows m -> 0 <= c' < cols m ->
     call m r c = call m r' c' -> r = r' /\ c = c') /\
  (forall k, 0 <= k < size m ->
     0 <= k / cols m < rows m /\ 0 <= k mod cols m < cols m /\
     call m (k / cols m) (k mod cols m) = Ok k) /\
  (empty m = true <-> rows m = 0 \/ cols m = 0) /\
  (empty m = true <-> size m = 0).
Proof.
  intros Hwf. rewrite (wf_size m Hwf). unfold rows, cols.
  pose proof Hwf as (Hr & Hc & Hlen & Hfit).
  assert (Hcall : forall r c, 0 <= r < rows_ m -> 0 <= c < cols_ m ->
                    call m r c = Ok (r * cols_ m + c)).
  { intros r c Hr0 Hc0. unfold call. rewrite calculate_offset_cell by assumption.
    apply vector_ref_in. now apply wf_cell_bound. }
  assert (Hempty : empty m = true <-> rows_ m * cols_ m = 0).
  { unfold empty. rewrite bool_decide_eq_true. rewrite <- Hlen.
    destruct (data_ m); simpl; split; try reflexivity; try discriminate; lia. }
  split; [|split; [|split]].
  - intros r c r' c' Hr0 Hc0 Hr1 Hc1. rewrite !Hcall by assumption.
    intros [= E]. now apply (cell_index_inj (cols_ m)).
  - intros k Hk. assert (Hcp : 0 < cols_ m) by nia.
    pose proof (Z.mod_pos_bound k (cols_ m) Hcp) as Hmod.
    pose proof (Z.div_mod k (cols_ m) ltac:(lia)) as Hdm.
    assert (Hdiv : 0 <= k / cols_ m < rows_ m).
    { split; [apply Z.div_pos; lia|]. apply Z.div_lt_upper_bound; [assumption|]. nia. }
    split; [assumption|]. split; [assumption|].
    rewrite Hcall by assumption. f_equal. lia.
  - rewrite Hempty. nia.
  - exact Hempty.
Qed.

Lemma cells_and_offsets_witness :
  call m_2x3 (5 / cols m_2x3) (5 mod cols m_2x3) = Ok 5 /\ empty m_2x3 = false.
Proof.
  destruct (cells_and_offsets m_2x3 wf_m_2x3) as (_ & H & _ & _).
  split; [apply (H 5); vm_compute; split; [discriminate|reflexivity]|reflexivity].
Defined.

(** ** Elements wider than a block *)

(** X28: for every element type of more than 64 bytes and every
    well-formed container with at least one row, neither [transposed()]
    (when the construction of the result succeeds) nor, on a square
    container, [transpose()] returns, whatever the fuel; the container is
    left as it was. *)
Theorem transposition_needs_narrow_elements {Ty : Type} {ET : ElemTraits Ty}
  (throws : nat -> option exn) (m : array2d Ty) (k : nat) :
  64 < sizeof_Ty -> wf m -> 0 < rows m ->
  (quiet throws -> forall fuel,
     fst (transposed throws fuel (mk_world m k)) = OutOfFuel /\
     this (snd (transposed throws fuel (mk_world m k))) = m) /\
  (rows m = cols m -> forall fuel,
     transpose fuel (mk_world m k) = (OutOfFuel, mk_world m k)).
Proof.
  unfold rows, cols. intros Hwide Hwf Hrows. pose proof Hwf as (Hr & Hc & Hlen & Hfit).
  split.
  - intros Hq fuel. unfold transposed. rewrite bind_get_this. cbn [this].
    unfold bind, new_object. cbn [clock this].
    destruct (ctor_dims_quiet throws Hq (cols_ m) (rows_ m) k) as [k' Ek']; try lia.
    rewrite Ek'. unfold lift.
    rewrite transposed_loops_wide by assumption. split; reflexivity.
  - intros Hsq fuel. unfold transpose. rewrite bind_get_this. cbn [this].
    unfold is_square. rewrite Hsq, Z.eqb_refl. cbn [negb].
    unfold bind, lift. rewrite transpose_loops_wide by (try assumption; lia).
    reflexivity.
Qed.

Lemma transposition_needs_narrow_elements_witness :
  transpose (ET := wide_traits) 1000 (mk_world (mk_array2d 2 2 [[1]; [2]; [3]; [4]]) 0) =
  (OutOfFuel, mk_world (mk_array2d 2 2 [[1]; [2]; [3]; [4]]) 0).
Proof.
  assert (Hwf : wf (mk_array2d 2 2 [[1]; [2]; [3]; [4]])).
  { unfold wf, INT_MAX, SIZE_MAX. simpl. lia. }
  destruct (transposition_needs_narrow_elements (ET := wide_traits) never_throws
              (mk_array2d 2 2 [[1]; [2]; [3]; [4]]) 0) as [_ H].
  - simpl. lia.
  - exact Hwf.
  - unfold rows. simpl. lia.
  - apply H. reflexivity.
Defined.

(** ** Resizing there and back *)

(** X29: growing a well-formed container with [resize] and then resizing
    it to its former dimensions gives the container back, when nothing
    fails. *)
Theorem resize_grow_then_back {Ty : Type} {ET : ElemTraits Ty}
  (throws : nat -> option exn) (m : array2d Ty) (r2 c2 : Z) (k : nat) :
  wf m -> quiet throws ->
  rows m <= r2 <= INT_MAX -> cols m <= c2 <= INT_MAX -> r2 * c2 <= SIZE_MAX ->
  let out := (let* _ := resize throws r2 c2 in resize throws (rows m) (cols m))
               (mk_world m k) in
  fst out = Ok tt /\ this (snd out) = m.
Proof.
  unfold rows, cols. intros Hwf Hq Hr2 Hc2 Hfit. cbv zeta.
  pose proof Hwf as (Hr & Hc & Hlen & Hfit0).
  unfold bind, resize.
  pose proof (resize_impl_spec throws r2 c2 None (mk_world m k) Hwf ltac:(lia) ltac:(lia))
    as (H1 & _ & _ & H4). cbv zeta in H1, H4. cbn [this] in H1, H4.
  destruct (resize_impl throws r2 c2 None (mk_world m k)) as [res1 w1] eqn:E1.
  cbn [fst snd] in H1, H4. specialize (H1 Hq Hfit). subst res1.
  destruct (H4 eq_refl) as (Hr1 & Hc1 & _ & Hwf1 & Hel1). unfold rows, cols in *.
  pose proof (resize_impl_spec throws (rows_ m) (cols_ m) None w1 Hwf1 Hr Hc)
    as (G1 & _ & _ & G4). cbv zeta in G1, G4.
  destruct (resize_impl throws (rows_ m) (cols_ m) None w1) as [res2 w2] eqn:E2.
  cbn [fst snd] in G1, G4 |- *. specialize (G1 Hq Hfit0). subst res2.
  split; [reflexivity|].
  destruct (G4 eq_refl) as (Hr3 & Hc3 & _ & Hwf2 & Hel2). unfold rows, cols in *.
  apply array2d_ext; try assumption.
  intros a b Ha Hb. rewrite Hr3 in Ha. rewrite Hc3 in Hb.
  rewrite Hel2 by assumption. rewrite Hr1, Hc1.
  destruct (Z.ltb_spec a r2); [|lia]. destruct (Z.ltb_spec b c2); [|lia]. cbn [andb].
  rewrite Hel1 by lia.
  destruct (Z.ltb_spec a (rows_ m)); [|lia]. destruct (Z.ltb_spec b (cols_ m)); [|lia].
  reflexivity.
Qed.

Lemma resize_grow_then_back_witness :
  this (snd ((let* _ := resize (ET := int_traits) never_throws 4 5 in
              resize (ET := int_traits) never_throws 2 3) (mk_world m_2x3 0))) = m_2x3.
Proof.
  apply (resize_grow_then_back (ET := int_traits) never_throws m_2x3 4 5 0 wf_m_2x3).
  - intros j. reflexivity.
  - unfold rows, INT_MAX. simpl. lia.
  - unfold cols, INT_MAX. simpl. lia.
  - unfold SIZE_MAX. lia.
Defined.
